(** * qrcon: a QR-code console for kernel messages

    A shallow embedding of the QR generator library ([qr_generator.c]) and
    of the payload fitter and history driver ([qrcon.c]), with the
    properties of their specification stated and proved over it.

    Conventions of the embedding.
    - C integers are [Z]; a value stored in a [u8], [u16], [u32] or [size_t]
      object is reduced with [u8], [u16], [u32] or [size_t] where the C
      code can wrap or truncate.  Arithmetic on sub-[int] operands is done
      in [int] (the usual promotions), so the truncation happens at the
      store, as in C.
    - A byte buffer is a [list Z]; [rd] reads and [wr] writes by index.  A
      read out of range gives 0 and a write out of range is dropped (both
      are undefined in C; the theorems below establish the bounds they
      need).
    - Pointers designate buffers: the tests of the C code for [NULL]
      arguments are not modelled, except for the optional [url] of
      [qr_generate] and the framebuffer base of the driver.
    - [while] loops whose bound is not syntactic carry a fuel argument and
      return [None] when it is exhausted; termination is then a theorem.
    - The compressor and the pixel loops of the framebuffer are external to
      the module and are section variables. *)

From Stdlib Require Import ZArith List Lia Bool ZifyBool.
Import ListNotations.
Local Open Scope Z_scope.

(** ** Machine integers and buffers *)

Definition u8 (x : Z) : Z := x mod 256.
Definition u16 (x : Z) : Z := x mod 65536.
Definition u32 (x : Z) : Z := x mod 4294967296.
Definition SIZE_MAX : Z := 18446744073709551615.
Definition size_t (x : Z) : Z := x mod (SIZE_MAX + 1).

Definition rd (buf : list Z) (i : Z) : Z := nth (Z.to_nat i) buf 0.

Fixpoint upd (n : nat) (v : Z) (l : list Z) : list Z :=
  match l, n with
  | [], _ => []
  | _ :: t, O => v :: t
  | h :: t, S n' => h :: upd n' v t
  end.

Definition wr (buf : list Z) (i : Z) (v : Z) : list Z :=
  if i <? 0 then buf else upd (Z.to_nat i) v buf.

(** [memset(buf, 0, n)] and [memcpy(dst + off, src, n)]. *)
Fixpoint memset0 (n : nat) (buf : list Z) : list Z :=
  match n, buf with
  | O, _ => buf
  | _, [] => []
  | S n', _ :: t => 0 :: memset0 n' t
  end.

Fixpoint memcpy_at (off : nat) (src : list Z) (dst : list Z) : list Z :=
  match off, dst with
  | _, [] => []
  | S off', h :: t => h :: memcpy_at off' src t
  | O, h :: t =>
      match src with
      | [] => dst
      | s :: src' => s :: memcpy_at O src' t
      end
  end.

Module QrGenerator.

(** ** Constants and data types of [qr_generator.c] *)

Definition MAX_EC_SIZE : Z := 30.
Definition MAX_BLK_SIZE : Z := 123.

Definition MODE_STOP : Z := 0.
Definition MODE_NUMERIC : Z := 1.
Definition MODE_BINARY : Z := 4.

Definition PADDING : list Z := [236; 17].

Record qr_version := mk_version { version : Z }.

Inductive segment_type := SEGMENT_BINARY | SEGMENT_NUMERIC.

(** A segment borrows its bytes: [seg_data] is the buffer the pointer
    designates and [seg_length] the length field, which the code trusts. *)
Record qr_segment := mk_segment {
  seg_type : segment_type;
  seg_data : list Z;
  seg_length : Z
}.

(** The generator polynomials are told apart by address in the C code; the
    embedding names them. *)
Inductive poly_id := P7 | P10 | P15 | P18 | P20 | P22 | P24 | P26 | P28 | P30.

Definition P7_coeffs : list Z :=
  [87; 229; 146; 149; 238; 102; 21].

Definition P10_coeffs : list Z :=
  [251; 67; 46; 61; 118; 70; 64; 94; 32; 45].

Definition P15_coeffs : list Z :=
  [8; 183; 61; 91; 202; 37; 51; 58; 58; 237; 140; 124; 5; 99; 105].

Definition P18_coeffs : list Z :=
  [215; 234; 158; 94; 184; 97; 118; 170; 79; 187; 152; 148; 252; 179; 5; 98; 96; 153].

Definition P20_coeffs : list Z :=
  [17; 60; 79; 50; 61; 163; 26; 187; 202; 180; 221; 225; 83; 239; 156; 164; 212; 212;
   188; 190].

Definition P22_coeffs : list Z :=
  [210; 171; 247; 242; 93; 230; 14; 109; 221; 53; 200; 74; 8; 172; 98; 80; 219; 134; 160;
   105; 165; 231].

Definition P24_coeffs : list Z :=
  [229; 121; 135; 48; 211; 117; 251; 126; 159; 180; 169; 152; 192; 226; 228; 218; 111; 0;
   117; 232; 87; 96; 227; 21].

Definition P26_coeffs : list Z :=
  [173; 125; 158; 2; 103; 182; 118; 17; 145; 201; 111; 28; 165; 53; 161; 21; 245; 142;
   13; 102; 48; 227; 153; 145; 218; 70].

Definition P28_coeffs : list Z :=
  [168; 223; 200; 104; 224; 234; 108; 180; 110; 190; 195; 147; 205; 27; 232; 201; 21; 43;
   245; 87; 42; 195; 212; 119; 242; 37; 9; 123].

Definition P30_coeffs : list Z :=
  [41; 173; 145; 152; 216; 31; 179; 182; 50; 48; 110; 86; 239; 96; 222; 125; 42; 173;
   226; 193; 224; 130; 156; 37; 251; 216; 238; 40; 192; 180].

Definition poly_coeffs (p : poly_id) : list Z :=
  match p with
  | P7 => P7_coeffs | P10 => P10_coeffs | P15 => P15_coeffs
  | P18 => P18_coeffs | P20 => P20_coeffs | P22 => P22_coeffs
  | P24 => P24_coeffs | P26 => P26_coeffs | P28 => P28_coeffs
  | P30 => P30_coeffs
  end.

Record qr_version_param := mk_param {
  vp_poly : poly_id;
  vp_g1_blocks : Z;
  vp_g2_blocks : Z;
  vp_g1_blk_size : Z
}.

Definition VPARAM : list qr_version_param :=
  [mk_param P7 1 0 19  (* V1 *);
   mk_param P10 1 0 34  (* V2 *);
   mk_param P15 1 0 55  (* V3 *);
   mk_param P20 1 0 80  (* V4 *);
   mk_param P26 1 0 108  (* V5 *);
   mk_param P18 2 0 68  (* V6 *);
   mk_param P20 2 0 78  (* V7 *);
   mk_param P24 2 0 97  (* V8 *);
   mk_param P30 2 0 116  (* V9 *);
   mk_param P18 2 2 68  (* V10 *);
   mk_param P20 4 0 81  (* V11 *);
   mk_param P24 2 2 92  (* V12 *);
   mk_param P26 4 0 107  (* V13 *);
   mk_param P30 3 1 115  (* V14 *);
   mk_param P22 5 1 87  (* V15 *);
   mk_param P24 5 1 98  (* V16 *);
   mk_param P28 1 5 107  (* V17 *);
   mk_param P30 5 1 120  (* V18 *);
   mk_param P28 3 4 113  (* V19 *);
   mk_param P28 3 5 107  (* V20 *);
   mk_param P28 4 4 116  (* V21 *);
   mk_param P28 2 7 111  (* V22 *);
   mk_param P30 4 5 121  (* V23 *);
   mk_param P30 6 4 117  (* V24 *);
   mk_param P26 8 4 106  (* V25 *);
   mk_param P28 10 2 114  (* V26 *);
   mk_param P30 8 4 122  (* V27 *);
   mk_param P30 3 10 117  (* V28 *);
   mk_param P30 7 7 116  (* V29 *);
   mk_param P30 5 10 115  (* V30 *);
   mk_param P30 13 3 115  (* V31 *);
   mk_param P30 17 0 115  (* V32 *);
   mk_param P30 17 1 115  (* V33 *);
   mk_param P30 13 6 115  (* V34 *);
   mk_param P30 12 7 121  (* V35 *);
   mk_param P30 6 14 121  (* V36 *);
   mk_param P30 17 4 122  (* V37 *);
   mk_param P30 4 18 122  (* V38 *);
   mk_param P30 20 4 117  (* V39 *);
   mk_param P30 19 6 118  (* V40 *)].

Definition ALIGNMENT_PATTERNS : list (list Z) :=
  [[0; 0; 0; 0; 0; 0; 0; 0];
   [6; 18; 0; 0; 0; 0; 0; 0];
   [6; 22; 0; 0; 0; 0; 0; 0];
   [6; 26; 0; 0; 0; 0; 0; 0];
   [6; 30; 0; 0; 0; 0; 0; 0];
   [6; 34; 0; 0; 0; 0; 0; 0];
   [6; 22; 38; 0; 0; 0; 0; 0];
   [6; 24; 42; 0; 0; 0; 0; 0];
   [6; 26; 46; 0; 0; 0; 0; 0];
   [6; 28; 50; 0; 0; 0; 0; 0];
   [6; 30; 54; 0; 0; 0; 0; 0];
   [6; 32; 58; 0; 0; 0; 0; 0];
   [6; 34; 62; 0; 0; 0; 0; 0];
   [6; 26; 46; 66; 0; 0; 0; 0];
   [6; 26; 48; 70; 0; 0; 0; 0];
   [6; 26; 50; 74; 0; 0; 0; 0];
   [6; 30; 54; 78; 0; 0; 0; 0];
   [6; 30; 56; 82; 0; 0; 0; 0];
   [6; 30; 58; 86; 0; 0; 0; 0];
   [6; 34; 62; 90; 0; 0; 0; 0];
   [6; 28; 50; 72; 94; 0; 0; 0];
   [6; 26; 50; 74; 98; 0; 0; 0];
   [6; 30; 54; 78; 102; 0; 0; 0];
   [6; 28; 54; 80; 106; 0; 0; 0];
   [6; 32; 58; 84; 110; 0; 0; 0];
   [6; 30; 58; 86; 114; 0; 0; 0];
   [6; 34; 62; 90; 118; 0; 0; 0];
   [6; 26; 50; 74; 98; 122; 0; 0];
   [6; 30; 54; 78; 102; 126; 0; 0];
   [6; 26; 52; 78; 104; 130; 0; 0];
   [6; 30; 56; 82; 108; 134; 0; 0];
   [6; 34; 60; 86; 112; 138; 0; 0];
   [6; 30; 58; 86; 114; 142; 0; 0];
   [6; 34; 62; 90; 118; 146; 0; 0];
   [6; 30; 54; 78; 102; 126; 150; 0];
   [6; 24; 50; 76; 102; 128; 154; 0];
   [6; 28; 54; 80; 106; 132; 158; 0];
   [6; 32; 58; 84; 110; 136; 162; 0];
   [6; 26; 54; 82; 110; 138; 166; 0];
   [6; 30; 58; 86; 114; 142; 170; 0]].

Definition VERSION_INFORMATION : list Z :=
  [31892; 34236; 39577; 42195; 48118; 51042; 55367; 58893; 63784; 68472; 70749; 76311;
   79154; 84390; 87683; 92361; 96236; 102084; 102881; 110507; 110734; 117786; 119615;
   126325; 127568; 133589; 136944; 141498; 145311; 150283; 152622; 158308; 161089; 167017].

Definition FORMAT_INFOS_QR_L : list Z :=
  [30660; 29427; 32170; 30877; 26159; 25368; 27713; 26998].

Definition EXP_TABLE : list Z :=
  [1; 2; 4; 8; 16; 32; 64; 128; 29; 58; 116; 232; 205; 135; 19; 38; 76; 152; 45; 90; 180;
   117; 234; 201; 143; 3; 6; 12; 24; 48; 96; 192; 157; 39; 78; 156; 37; 74; 148; 53; 106;
   212; 181; 119; 238; 193; 159; 35; 70; 140; 5; 10; 20; 40; 80; 160; 93; 186; 105; 210;
   185; 111; 222; 161; 95; 190; 97; 194; 153; 47; 94; 188; 101; 202; 137; 15; 30; 60;
   120; 240; 253; 231; 211; 187; 107; 214; 177; 127; 254; 225; 223; 163; 91; 182; 113;
   226; 217; 175; 67; 134; 17; 34; 68; 136; 13; 26; 52; 104; 208; 189; 103; 206; 129; 31;
   62; 124; 248; 237; 199; 147; 59; 118; 236; 197; 151; 51; 102; 204; 133; 23; 46; 92;
   184; 109; 218; 169; 79; 158; 33; 66; 132; 21; 42; 84; 168; 77; 154; 41; 82; 164; 85;
   170; 73; 146; 57; 114; 228; 213; 183; 115; 230; 209; 191; 99; 198; 145; 63; 126; 252;
   229; 215; 179; 123; 246; 241; 255; 227; 219; 171; 75; 150; 49; 98; 196; 149; 55; 110;
   220; 165; 87; 174; 65; 130; 25; 50; 100; 200; 141; 7; 14; 28; 56; 112; 224; 221; 167;
   83; 166; 81; 162; 89; 178; 121; 242; 249; 239; 195; 155; 43; 86; 172; 69; 138; 9; 18;
   36; 72; 144; 61; 122; 244; 245; 247; 243; 251; 235; 203; 139; 11; 22; 44; 88; 176;
   125; 250; 233; 207; 131; 27; 54; 108; 216; 173; 71; 142; 1].

Definition LOG_TABLE : list Z :=
  [175; 0; 1; 25; 2; 50; 26; 198; 3; 223; 51; 238; 27; 104; 199; 75; 4; 100; 224; 14; 52;
   141; 239; 129; 28; 193; 105; 248; 200; 8; 76; 113; 5; 138; 101; 47; 225; 36; 15; 33;
   53; 147; 142; 218; 240; 18; 130; 69; 29; 181; 194; 125; 106; 39; 249; 185; 201; 154;
   9; 120; 77; 228; 114; 166; 6; 191; 139; 98; 102; 221; 48; 253; 226; 152; 37; 179; 16;
   145; 34; 136; 54; 208; 148; 206; 143; 150; 219; 189; 241; 210; 19; 92; 131; 56; 70;
   64; 30; 66; 182; 163; 195; 72; 126; 110; 107; 58; 40; 84; 250; 133; 186; 61; 202; 94;
   155; 159; 10; 21; 121; 43; 78; 212; 229; 172; 115; 243; 167; 87; 7; 112; 192; 247;
   140; 128; 99; 13; 103; 74; 222; 237; 49; 197; 254; 24; 227; 165; 153; 119; 38; 184;
   180; 124; 17; 68; 146; 217; 35; 32; 137; 46; 55; 63; 209; 91; 149; 188; 207; 205; 144;
   135; 151; 178; 220; 252; 190; 97; 242; 86; 211; 171; 20; 42; 93; 158; 132; 60; 57; 83;
   71; 109; 65; 162; 31; 45; 67; 216; 183; 123; 164; 118; 196; 23; 73; 236; 127; 12; 111;
   246; 108; 161; 59; 82; 41; 157; 85; 170; 251; 96; 134; 177; 187; 204; 62; 90; 203; 89;
   95; 176; 156; 169; 160; 81; 11; 245; 22; 235; 122; 117; 44; 215; 79; 174; 213; 233;
   230; 231; 173; 232; 116; 214; 244; 234; 168; 80; 88; 175].

Definition NUM_CHARS_BITS : list Z := [0; 4; 7; 10].
Definition POW10 : list Z := [1; 10; 100; 1000].

(** ** Version parameters *)

Definition vparam (v : Z) : qr_version_param :=
  nth (Z.to_nat v) VPARAM (mk_param P7 0 0 0).

Definition qr_version_width (ver : qr_version) : Z :=
  u8 (version ver * 4 + 17).

Definition qr_version_max_data (ver : qr_version) : Z :=
  let v := size_t (version ver - 1) in
  if v >=? 40 then 0
  else vp_g1_blk_size (vparam v) * vp_g1_blocks (vparam v)
       + (vp_g1_blk_size (vparam v) + 1) * vp_g2_blocks (vparam v).

Definition qr_version_poly (ver : qr_version) : option poly_id :=
  let v := size_t (version ver - 1) in
  if v >=? 40 then None else Some (vp_poly (vparam v)).

Definition qr_version_ec_size (ver : qr_version) : Z :=
  let v := size_t (version ver - 1) in
  if v >=? 40 then 0
  else match vp_poly (vparam v) with
       | P7 => 7 | P10 => 10 | P15 => 15 | P18 => 18 | P20 => 20
       | P22 => 22 | P24 => 24 | P26 => 26 | P28 => 28 | P30 => 30
       end.

Definition qr_version_g1_blocks (ver : qr_version) : Z :=
  let v := size_t (version ver - 1) in
  if v >=? 40 then 0 else vp_g1_blocks (vparam v).

Definition qr_version_g2_blocks (ver : qr_version) : Z :=
  let v := size_t (version ver - 1) in
  if v >=? 40 then 0 else vp_g2_blocks (vparam v).

Definition qr_version_g1_blk_size (ver : qr_version) : Z :=
  let v := size_t (version ver - 1) in
  if v >=? 40 then 0 else vp_g1_blk_size (vparam v).

(** [NULL] for an invalid version is [None]. *)
Definition qr_version_alignment_pattern (ver : qr_version) : option (list Z) :=
  let v := size_t (version ver - 1) in
  if v >=? 40 then None else Some (nth (Z.to_nat v) ALIGNMENT_PATTERNS []).

Definition qr_version_info (ver : qr_version) : Z :=
  if (version ver >=? 7) && (version ver <=? 40)
  then nth (Z.to_nat (version ver - 7)) VERSION_INFORMATION 0
  else 0.

(** ** Capacity query *)

Definition qr_max_data_size (ver : Z) (url_len : Z) : Z :=
  if (ver <? 1) || (ver >? 40) then 0
  else
    let max_data := qr_version_max_data (mk_version ver) in
    if url_len >? 0 then
      if size_t (url_len + 5) >=? max_data then 0
      else
        let max := size_t (size_t (max_data - url_len) - 5) in
        size_t (max * 39) / 40
    else size_t (max_data - 3).


(** ** Loop combinator

    [for (i = lo; i < hi; i++) s = body i s]. *)

Fixpoint for_loop {S : Type} (n : nat) (i : Z) (body : Z -> S -> S) (s : S) : S :=
  match n with
  | O => s
  | Datatypes.S n' => for_loop n' (i + 1) body (body i s)
  end.

Definition for_range {S : Type} (lo hi : Z) (body : Z -> S -> S) (s : S) : S :=
  for_loop (Z.to_nat (hi - lo)) lo body s.

(** ** Segments *)

Definition qr_segment_length_bits_count (seg : qr_segment) (ver : qr_version) : Z :=
  match seg_type seg with
  | SEGMENT_BINARY => if version ver <=? 9 then 8 else 16
  | SEGMENT_NUMERIC =>
      if version ver <=? 9 then 10
      else if version ver <=? 26 then 12
      else 14
  end.

Definition qr_segment_character_count (seg : qr_segment) : Z :=
  match seg_type seg with
  | SEGMENT_BINARY => seg_length seg
  | SEGMENT_NUMERIC =>
      let data_bits := size_t (seg_length seg * 8) in
      let last_chars :=
        if data_bits mod 13 =? 0 then 0 else (data_bits mod 13 + 1) / 3 in
      size_t (4 * (data_bits / 13) + last_chars)
  end.

Definition qr_segment_total_size_bits (seg : qr_segment) (ver : qr_version) : Z :=
  let data_size :=
    match seg_type seg with
    | SEGMENT_BINARY => size_t (seg_length seg * 8)
    | SEGMENT_NUMERIC =>
        let digits := qr_segment_character_count seg in
        size_t (10 * (digits / 3) + rd NUM_CHARS_BITS (digits mod 3))
    end in
  size_t (4 + qr_segment_length_bits_count seg ver + data_size).

(** [get_next_13b]: the number read and the number of bits it stands for
    (the [*size] output). *)
Definition get_next_13b (data : list Z) (data_len : Z) (offset : Z) : Z * Z :=
  if offset >=? size_t (data_len * 8) then (0, 0)
  else
    let bit_size := Z.min 13 (size_t (size_t (data_len * 8) - offset)) in
    let byte_off := offset / 8 in
    let bit_off := offset mod 8 in
    let b := u16 (bit_off + bit_size) in
    let first_byte := Z.land (rd data byte_off) 255 in
    if b <=? 8 then
      (u16 (Z.shiftr (Z.shiftl first_byte bit_off) (8 - bit_size)), bit_size)
    else if b <=? 16 then
      let number := u16 (Z.shiftr (Z.shiftl first_byte bit_off) bit_off) in
      let number := u16 (Z.shiftl number (b - 8)) in
      if byte_off + 1 <? data_len
      then (u16 (number + Z.shiftr (rd data (byte_off + 1)) (16 - b)), bit_size)
      else (number, 8 - bit_off)
    else
      if byte_off + 2 <? data_len then
        let number :=
          u16 (Z.shiftl (Z.shiftr (Z.shiftl first_byte bit_off) bit_off) (b - 8)) in
        let number :=
          u16 (number + Z.shiftl (Z.land (rd data (byte_off + 1)) 255) (b - 16)) in
        (u16 (number + Z.shiftr (rd data (byte_off + 2)) (24 - b)), bit_size)
      else if byte_off + 1 <? data_len then
        let number :=
          u16 (Z.shiftl (Z.shiftr (Z.shiftl first_byte bit_off) bit_off) (b - 8)) in
        (u16 (number + Z.shiftr (rd data (byte_off + 1)) (16 - b)), 16 - bit_off)
      else (0, bit_size).

Definition qr_segment_get_header (seg : qr_segment) : Z * Z :=
  (match seg_type seg with
   | SEGMENT_BINARY => MODE_BINARY
   | SEGMENT_NUMERIC => MODE_NUMERIC
   end, 4).

Definition qr_segment_get_length_field (seg : qr_segment) (ver : qr_version) : Z * Z :=
  let len_bits := qr_segment_length_bits_count seg ver in
  let char_count := qr_segment_character_count seg in
  (u16 (Z.land char_count (Z.shiftl 1 len_bits - 1)), len_bits).

Record segment_iterator := mk_segment_iterator {
  it_segment : qr_segment;
  it_offset : Z;
  it_carry : Z;
  it_carry_len : Z
}.

Definition qr_segment_iterator_init (seg : qr_segment) : segment_iterator :=
  mk_segment_iterator seg 0 0 0.

(** [qr_segment_iterator_next]: [Some (bits, size)] when the C function
    returns [true], [None] when it returns [false]; the iterator after the
    call comes with it. *)
Definition qr_segment_iterator_next (iter : segment_iterator)
  : option (Z * Z) * segment_iterator :=
  let seg := it_segment iter in
  match seg_type seg with
  | SEGMENT_BINARY =>
      if it_offset iter <? seg_length seg then
        (Some (rd (seg_data seg) (it_offset iter), 8),
         mk_segment_iterator seg (size_t (it_offset iter + 1))
           (it_carry iter) (it_carry_len iter))
      else (None, iter)
  | SEGMENT_NUMERIC =>
      if it_carry_len iter =? 3 then
        (Some (it_carry iter, rd NUM_CHARS_BITS (it_carry_len iter)),
         mk_segment_iterator seg (it_offset iter) 0 0)
      else
        let '(number, bit_size) :=
          get_next_13b (seg_data seg) (seg_length seg) (it_offset iter) in
        if bit_size =? 0 then
          if it_carry_len iter >? 0 then
            (Some (it_carry iter, rd NUM_CHARS_BITS (it_carry_len iter)),
             mk_segment_iterator seg (it_offset iter) (it_carry iter) 0)
          else (None, iter)
        else
          let offset := size_t (it_offset iter + bit_size) in
          let new_chars := if bit_size =? 1 then 1 else (bit_size + 1) / 3 in
          if it_carry_len iter + new_chars >? 3 then
            let remaining := it_carry_len iter + new_chars - 3 in
            (Some (u16 (it_carry iter * rd POW10 (new_chars - remaining)
                        + number / rd POW10 remaining),
                   rd NUM_CHARS_BITS 3),
             mk_segment_iterator seg offset
               (u16 (number mod rd POW10 remaining)) remaining)
          else
            (Some (u16 (it_carry iter * rd POW10 new_chars + number),
                   rd NUM_CHARS_BITS (it_carry_len iter + new_chars)),
             mk_segment_iterator seg offset 0 0)
  end.

(** ** Encoded message *)

Record encoded_msg := mk_encoded_msg {
  em_data : list Z;
  em_ec_size : Z;
  em_g1_blocks : Z;
  em_g2_blocks : Z;
  em_g1_blk_size : Z;
  em_g2_blk_size : Z;
  em_poly : option poly_id;
  em_version : qr_version
}.

Definition with_data (em : encoded_msg) (d : list Z) : encoded_msg :=
  mk_encoded_msg d (em_ec_size em) (em_g1_blocks em) (em_g2_blocks em)
    (em_g1_blk_size em) (em_g2_blk_size em) (em_poly em) (em_version em).

(** [encoded_msg_init]: [None] is the [false] return.  [data] is the buffer
    and [data_size] the size the caller states for it. *)
Definition encoded_msg_init (segments : list qr_segment) (qr_version : Z)
    (data : list Z) (data_size : Z) : option encoded_msg :=
  let count := Z.of_nat (Datatypes.length segments) in
  if (count =? 0) || (data_size =? 0) then None
  else if (qr_version <? 1) || (qr_version >? 40) then None
  else
    let ver := mk_version qr_version in
    let total_bits :=
      fold_left (fun acc seg => size_t (acc + qr_segment_total_size_bits seg ver))
        segments 0 in
    let total_bits := size_t (total_bits + 4) in
    let max_data := qr_version_max_data ver in
    if total_bits >? size_t (max_data * 8) then None
    else
      let ec_size := qr_version_ec_size ver in
      let g1_blocks := qr_version_g1_blocks ver in
      let g2_blocks := qr_version_g2_blocks ver in
      let g1_blk_size := qr_version_g1_blk_size ver in
      let required_size := size_t (max_data + ec_size * (g1_blocks + g2_blocks)) in
      if data_size <? required_size then None
      else
        Some (mk_encoded_msg (memset0 (Z.to_nat data_size) data)
                (u8 ec_size) (u8 g1_blocks) (u8 g2_blocks) (u8 g1_blk_size)
                (u8 (g1_blk_size + 1)) (qr_version_poly ver) ver).

(** [encoded_msg_push]: the buffer and the bit offset after the push. *)
Definition encoded_msg_push (d : list Z) (offset : Z) (number : Z) (len_bits : Z)
  : list Z * Z :=
  let byte_off := offset / 8 in
  let bit_off := offset mod 8 in
  let b := size_t (bit_off + len_bits) in
  let d' :=
    if (bit_off =? 0) && (b <=? 8) then
      wr d byte_off (Z.land (Z.shiftl number (8 - b)) 255)
    else if bit_off =? 0 then
      let d1 := wr d byte_off (Z.land (Z.shiftr number (b - 8)) 255) in
      wr d1 (byte_off + 1) (Z.land (Z.shiftl number (16 - b)) 255)
    else if b <=? 8 then
      wr d byte_off (Z.lor (rd d byte_off) (Z.land (Z.shiftl number (8 - b)) 255))
    else if b <=? 16 then
      let d1 :=
        wr d byte_off (Z.lor (rd d byte_off) (Z.land (Z.shiftr number (b - 8)) 255)) in
      wr d1 (byte_off + 1) (Z.land (Z.shiftl number (16 - b)) 255)
    else
      let d1 :=
        wr d byte_off (Z.lor (rd d byte_off) (Z.land (Z.shiftr number (b - 8)) 255)) in
      let d2 := wr d1 (byte_off + 1) (Z.land (Z.shiftr number (b - 16)) 255) in
      wr d2 (byte_off + 2) (Z.land (Z.shiftl number (24 - b)) 255)
  in (d', size_t (offset + len_bits)).

(** The [while (qr_segment_iterator_next (...)) encoded_msg_push (...)] loop
    of [encoded_msg_add_segments]. *)
Fixpoint push_segment_data (fuel : nat) (iter : segment_iterator)
    (d : list Z) (offset : Z) : option (list Z * Z) :=
  match fuel with
  | O => None
  | S fuel' =>
      match qr_segment_iterator_next iter with
      | (None, _) => Some (d, offset)
      | (Some (bits, size), iter') =>
          let '(d', offset') := encoded_msg_push d offset bits size in
          push_segment_data fuel' iter' d' offset'
      end
  end.

(** A bound on the number of iterator calls for one segment: every call
    that returns [true] either consumes at least one input bit or flushes
    the carry. *)
Definition segment_fuel (seg : qr_segment) : nat :=
  S (4 * Z.to_nat (size_t (seg_length seg * 8)) + 4).

(** The body of the segment loop: header, length field, data. *)
Definition push_segment (ver : qr_version) (seg : qr_segment)
    (st : list Z * Z) : option (list Z * Z) :=
  let '(d, offset) := st in
  let '(bits, size) := qr_segment_get_header seg in
  let '(d, offset) := encoded_msg_push d offset bits size in
  let '(bits, size) := qr_segment_get_length_field seg ver in
  let '(d, offset) := encoded_msg_push d offset bits size in
  push_segment_data (segment_fuel seg) (qr_segment_iterator_init seg) d offset.

Fixpoint push_segments (ver : qr_version) (segments : list qr_segment)
    (st : list Z * Z) : option (list Z * Z) :=
  match segments with
  | [] => Some st
  | seg :: rest =>
      match push_segment ver seg st with
      | None => None
      | Some st' => push_segments ver rest st'
      end
  end.

(** The bit stream of [encoded_msg_add_segments]: segments, terminator and
    the zero bits up to the byte boundary.  The result is the buffer and the
    bit offset reached, a multiple of 8. *)
Definition encoded_msg_add_segments_bits (em : encoded_msg)
    (segments : list qr_segment) : option (list Z * Z) :=
  match push_segments (em_version em) segments (em_data em, 0) with
  | None => None
  | Some (d, offset) =>
      let '(d, offset) := encoded_msg_push d offset MODE_STOP 4 in
      if offset mod 8 =? 0 then Some (d, offset)
      else Some (encoded_msg_push d offset 0 (size_t (8 - offset mod 8)))
  end.

(** The padding loop of [encoded_msg_add_segments]. *)
Definition add_padding (ver : qr_version) (pad_offset : Z) (d : list Z) : list Z :=
  for_range pad_offset (qr_version_max_data ver)
    (fun i d => wr d i (rd PADDING (Z.lxor (Z.land i 1) (Z.land pad_offset 1)))) d.

Definition encoded_msg_add_segments (em : encoded_msg) (segments : list qr_segment)
  : option encoded_msg :=
  match encoded_msg_add_segments_bits em segments with
  | None => None
  | Some (d, offset) =>
      Some (with_data em (add_padding (em_version em) (offset / 8) d))
  end.

(** Reed-Solomon parity of one block.  [tmp] is the local array of
    [MAX_BLK_SIZE + MAX_EC_SIZE] zero bytes. *)
Definition encoded_msg_error_code_for_block (em : encoded_msg)
    (offset size ec_offset : Z) : encoded_msg :=
  let tmp := repeat 0 (Z.to_nat (MAX_BLK_SIZE + MAX_EC_SIZE)) in
  let tmp :=
    memcpy_at 0 (firstn (Z.to_nat size) (skipn (Z.to_nat offset) (em_data em))) tmp in
  let coeffs := match em_poly em with Some p => poly_coeffs p | None => [] end in
  let tmp :=
    for_range 0 size
      (fun i tmp =>
         let lead_coeff := rd tmp i in
         if lead_coeff =? 0 then tmp
         else
           let log_lead_coeff := rd LOG_TABLE lead_coeff in
           for_range 0 (em_ec_size em)
             (fun j tmp =>
                wr tmp (i + j + 1)
                  (Z.lxor (rd tmp (i + j + 1))
                     (rd EXP_TABLE ((rd coeffs j + log_lead_coeff) mod 255))))
             tmp)
      tmp in
  with_data em
    (memcpy_at (Z.to_nat ec_offset)
       (firstn (Z.to_nat (em_ec_size em)) (skipn (Z.to_nat size) tmp))
       (em_data em)).

Definition encoded_msg_compute_error_code (em : encoded_msg) : encoded_msg :=
  let offset := 0 in
  let ec_offset :=
    em_g1_blocks em * em_g1_blk_size em + em_g2_blocks em * em_g2_blk_size em in
  let '(em, offset, ec_offset) :=
    for_range 0 (em_g1_blocks em)
      (fun _ '(em, offset, ec_offset) =>
         (encoded_msg_error_code_for_block em offset (em_g1_blk_size em) ec_offset,
          offset + em_g1_blk_size em, ec_offset + em_ec_size em))
      (em, offset, ec_offset) in
  let '(em, _, _) :=
    for_range 0 (em_g2_blocks em)
      (fun _ '(em, offset, ec_offset) =>
         (encoded_msg_error_code_for_block em offset (em_g2_blk_size em) ec_offset,
          offset + em_g2_blk_size em, ec_offset + em_ec_size em))
      (em, offset, ec_offset) in
  em.

Definition encoded_msg_encode (em : encoded_msg) (segments : list qr_segment)
  : option encoded_msg :=
  match encoded_msg_add_segments em segments with
  | None => None
  | Some em => Some (encoded_msg_compute_error_code em)
  end.

(** ** Interleaved output *)

Record encoded_msg_iterator := mk_encoded_msg_iterator {
  emi_em : encoded_msg;
  emi_offset : Z
}.

Definition encoded_msg_iterator_init (em : encoded_msg) : encoded_msg_iterator :=
  mk_encoded_msg_iterator em 0.

(** The index into [em->data] that [encoded_msg_iterator_next] reads at
    iterator offset [off]; [None] when it returns [false]. *)
Definition encoded_msg_iterator_index (em : encoded_msg) (off : Z) : option Z :=
  let blocks := em_g1_blocks em + em_g2_blocks em in
  let g1_end := em_g1_blocks em * em_g1_blk_size em in
  let g2_end := g1_end + em_g2_blocks em * em_g2_blk_size em in
  let ec_end := g2_end + em_ec_size em * blocks in
  if off >=? ec_end then None
  else if off <? em_g1_blk_size em * blocks then
    let blk := off mod blocks in
    let blk_off := off / blocks in
    if blk <? em_g1_blocks em
    then Some (blk * em_g1_blk_size em + blk_off)
    else Some (g1_end + (blk - em_g1_blocks em) * em_g2_blk_size em + blk_off)
  else if off <? g2_end then
    let blk2 := off - blocks * em_g1_blk_size em in
    Some (g1_end + blk2 / em_g2_blk_size em * em_g2_blk_size em
          + em_g2_blk_size em - 1)
  else
    let ec_offset := off - g2_end in
    let blk := ec_offset mod blocks in
    let blk_off := ec_offset / blocks in
    Some (g2_end + blk * em_ec_size em + blk_off).

Definition encoded_msg_iterator_next (iter : encoded_msg_iterator)
  : option Z * encoded_msg_iterator :=
  match encoded_msg_iterator_index (emi_em iter) (emi_offset iter) with
  | None => (None, iter)
  | Some offset =>
      (Some (rd (em_data (emi_em iter)) offset),
       mk_encoded_msg_iterator (emi_em iter) (emi_offset iter + 1))
  end.

(** ** QR image *)

Record qr_image := mk_qr_image {
  qr_data : list Z;
  qr_width : Z;
  qr_stride : Z;
  qr_ver : qr_version
}.

Definition with_image (qr : qr_image) (d : list Z) : qr_image :=
  mk_qr_image d (qr_width qr) (qr_stride qr) (qr_ver qr).

(** [qr_image_init]: [None] is the [false] return. *)
Definition qr_image_init (em : encoded_msg) (data : list Z) (data_size : Z)
  : option qr_image :=
  let width := qr_version_width (em_version em) in
  let stride := u8 ((width + 8 - 1) / 8) in
  let buffer_size := stride * width in
  if data_size <? buffer_size then None
  else Some (mk_qr_image (memset0 (Z.to_nat buffer_size) data)
               width stride (em_version em)).

(** The coordinates of the pixel functions are [u8] parameters: the [int]
    expression of the caller is truncated at the call. *)
Definition qr_image_set (qr : qr_image) (x y : Z) : qr_image :=
  let x := u8 x in
  let y := u8 y in
  let offset := y * qr_stride qr + x / 8 in
  let mask := u8 (Z.shiftr 128 (x mod 8)) in
  if (x <? qr_width qr) && (y <? qr_width qr)
  then with_image qr (wr (qr_data qr) offset (Z.lor (rd (qr_data qr) offset) mask))
  else qr.

Definition qr_image_xor (qr : qr_image) (x y : Z) : qr_image :=
  let x := u8 x in
  let y := u8 y in
  let offset := y * qr_stride qr + x / 8 in
  let mask := u8 (Z.shiftr 128 (x mod 8)) in
  if (x <? qr_width qr) && (y <? qr_width qr)
  then with_image qr (wr (qr_data qr) offset (Z.lxor (rd (qr_data qr) offset) mask))
  else qr.

Definition qr_image_draw_square (qr : qr_image) (x y size : Z) : qr_image :=
  let x := u8 x in
  let y := u8 y in
  let size := u8 size in
  let qr :=
    for_range 0 (size + 1)
      (fun k qr => qr_image_set (qr_image_set qr (x + k) y) (x + k) (y + size)) qr in
  for_range 1 size
    (fun k qr => qr_image_set (qr_image_set qr x (y + k)) (x + size) (y + k)) qr.

Definition qr_image_is_finder (qr : qr_image) (x y : Z) : bool :=
  let e := u8 (qr_width qr - 8) in
  ((x <? 8) && (y <? 8)) || ((x <? 8) && (y >=? e)) || ((x >=? e) && (y <? 8)).

Definition qr_image_draw_finders (qr : qr_image) : qr_image :=
  let w := qr_width qr in
  let qr := qr_image_draw_square qr 1 1 4 in
  let qr := qr_image_draw_square qr (w - 6) 1 4 in
  let qr := qr_image_draw_square qr 1 (w - 6) 4 in
  let qr :=
    for_range 0 8
      (fun k qr =>
         qr_image_set (qr_image_set (qr_image_set qr k 7) (w - k - 1) 7) k (w - 8))
      qr in
  for_range 0 7
    (fun k qr =>
       qr_image_set (qr_image_set (qr_image_set qr 7 k) (w - 8) k) 7 (w - 1 - k))
    qr.

(** The entries of a zero-terminated row before its terminator. *)
Fixpoint until_zero (l : list Z) : list Z :=
  match l with
  | [] => []
  | a :: t => if a =? 0 then [] else a :: until_zero t
  end.

Definition alignment_positions (qr : qr_image) : list Z :=
  match qr_version_alignment_pattern (qr_ver qr) with
  | Some row => row
  | None => []
  end.

Definition qr_image_is_alignment (qr : qr_image) (x y : Z) : bool :=
  let positions := until_zero (alignment_positions qr) in
  existsb
    (fun ax =>
       existsb
         (fun ay =>
            if qr_image_is_finder qr ax ay then false
            else (x >=? ax - 2) && (x <=? ax + 2) && (y >=? ay - 2) && (y <=? ay + 2))
         positions)
    positions.

Definition qr_image_draw_alignments (qr : qr_image) : qr_image :=
  let positions := alignment_positions qr in
  let v := version (qr_ver qr) in
  if v =? 1 then qr
  else
    let len :=
      if v <=? 6 then 2
      else if v <=? 13 then 3
      else if v <=? 20 then 4
      else if v <=? 27 then 5
      else if v <=? 34 then 6
      else 7 in
    for_range 0 len
      (fun i qr =>
         let x := rd positions i in
         for_range 0 len
           (fun j qr =>
              let y := rd positions j in
              if qr_image_is_finder qr x y then qr
              else qr_image_draw_square qr (x - 1) (y - 1) 2)
           qr)
      qr.

Definition qr_image_is_timing (x y : Z) : bool := (x =? 6) || (y =? 6).

(** [for (u8 i = 9; i < end; i += 2)]: [i] takes the values [9 + 2 k]; the
    counter does not wrap, since it reaches 255 before it could. *)
Definition qr_image_draw_timing_patterns (qr : qr_image) : qr_image :=
  let e := u8 (qr_width qr - 8) in
  for_range 0 ((e - 9 + 1) / 2)
    (fun k qr =>
       let i := 9 + 2 * k in
       qr_image_set (qr_image_set qr i 6) 6 i)
    qr.

Definition qr_image_is_maskinfo (qr : qr_image) (x y : Z) : bool :=
  let e := u8 (qr_width qr - 8) in
  ((x <=? 8) && (y =? 8)) || ((y <=? 8) && (x =? 8))
  || ((x =? 8) && (y >=? e)) || ((x >=? e) && (y =? 8)).

Definition qr_image_draw_maskinfo (qr : qr_image) : qr_image :=
  let info := rd FORMAT_INFOS_QR_L 0 in
  let w := qr_width qr in
  let qr :=
    for_range 0 7
      (fun k qr =>
         let skip := if k =? 6 then 1 else 0 in
         if Z.land info (Z.shiftl 1 (14 - k)) =? 0
         then qr_image_set (qr_image_set qr (k + skip) 8) 8 (w - 1 - k)
         else qr)
      qr in
  for_range 0 8
    (fun k qr =>
       let skip := if k >=? 2 then 1 else 0 in
       if Z.land info (Z.shiftl 1 (7 - k)) =? 0
       then qr_image_set (qr_image_set qr 8 (8 - skip - k)) (w - 8 + k) 8
       else qr)
    qr.

Definition qr_image_is_version_info (qr : qr_image) (x y : Z) : bool :=
  let vinfo := qr_version_info (qr_ver qr) in
  let pos := u8 (qr_width qr - 11) in
  if vinfo =? 0 then false
  else ((x >=? pos) && (x <? pos + 3) && (y <? 6))
       || ((y >=? pos) && (y <? pos + 3) && (x <? 6)).

Definition qr_image_draw_version_info (qr : qr_image) : qr_image :=
  let vinfo := qr_version_info (qr_ver qr) in
  let pos := u8 (qr_width qr - 11) in
  if vinfo =? 0 then qr
  else
    for_range 0 3
      (fun x qr =>
         for_range 0 6
           (fun y qr =>
              if Z.land vinfo (Z.shiftl 1 (x + y * 3)) =? 0
              then qr_image_set (qr_image_set qr (x + pos) y) y (x + pos)
              else qr)
           qr)
      qr.

Definition qr_image_is_reserved (qr : qr_image) (x y : Z) : bool :=
  qr_image_is_alignment qr x y
  || qr_image_is_finder qr x y
  || qr_image_is_timing x y
  || qr_image_is_maskinfo qr x y
  || qr_image_is_version_info qr x y.

Definition qr_image_is_last (qr : qr_image) (x y : Z) : bool :=
  (x =? 0) && (y =? qr_width qr - 1).

(** [qr_image_next]: the coordinates after the step.  [%] is C's remainder,
    which truncates toward zero. *)
Definition qr_image_next (qr : qr_image) (x y : Z) : Z * Z :=
  let x_adj := u8 (if x <=? 6 then x + 1 else x) in
  let column_type := u8 (Z.rem (qr_width qr - x_adj) 4) in
  if column_type =? 2 then
    if y >? 0 then (u8 (x + 1), u8 (y - 1)) else (u8 (x - 1), y)
  else if column_type =? 0 then
    if y <? qr_width qr - 1 then (u8 (x + 1), u8 (y + 1)) else (u8 (x - 1), y)
  else
    if x =? 7 then (u8 (x - 2), y) else (u8 (x - 1), y).

(** Bound of the module walks: the zig-zag visits a module at most once. *)
Definition walk_fuel (qr : qr_image) : nat := Z.to_nat (qr_width qr * qr_width qr).

Fixpoint skip_reserved (fuel : nat) (qr : qr_image) (x y : Z) : option (Z * Z) :=
  match fuel with
  | O => None
  | S fuel' =>
      if qr_image_is_reserved qr x y && negb (qr_image_is_last qr x y)
      then let '(x, y) := qr_image_next qr x y in skip_reserved fuel' qr x y
      else Some (x, y)
  end.

Definition qr_image_next_available (qr : qr_image) (x y : Z) : option (Z * Z) :=
  let '(x, y) := qr_image_next qr x y in
  skip_reserved (walk_fuel qr) qr x y.

(** The [for (bit = 7; bit >= 0; bit--)] loop of [qr_image_draw_data], with
    its [break]; [nbits] is [bit + 1]. *)
Fixpoint draw_codeword (nbits : nat) (qr : qr_image) (byte : Z) (x y : Z)
  : option (qr_image * Z * Z) :=
  match nbits with
  | O => Some (qr, x, y)
  | S bit =>
      let qr :=
        if Z.land byte (Z.shiftl 1 (Z.of_nat bit)) =? 0
        then qr_image_set qr x y else qr in
      if negb (qr_image_is_last qr x y) then
        match qr_image_next_available qr x y with
        | None => None
        | Some (x, y) => draw_codeword bit qr byte x y
        end
      else Some (qr, x, y)
  end.

(** The [while (encoded_msg_iterator_next (...))] loop. *)
Fixpoint draw_codewords (fuel : nat) (qr : qr_image) (iter : encoded_msg_iterator)
    (x y : Z) : option (qr_image * encoded_msg_iterator * Z * Z) :=
  match fuel with
  | O => None
  | S fuel' =>
      match encoded_msg_iterator_next iter with
      | (None, iter') => Some (qr, iter', x, y)
      | (Some byte, iter') =>
          match draw_codeword 8 qr byte x y with
          | None => None
          | Some (qr, x, y) => draw_codewords fuel' qr iter' x y
          end
      end
  end.

(** The [while (!qr_image_is_last (...))] loop. *)
Fixpoint draw_remaining (fuel : nat) (qr : qr_image) (x y : Z) : option qr_image :=
  match fuel with
  | O => None
  | S fuel' =>
      if qr_image_is_last qr x y then Some qr
      else
        let qr := if qr_image_is_reserved qr x y then qr else qr_image_set qr x y in
        let '(x, y) := qr_image_next qr x y in
        draw_remaining fuel' qr x y
  end.

(** Number of bytes the iterator still holds, plus one for the call that
    returns [false]. *)
Definition iterator_fuel (iter : encoded_msg_iterator) : nat :=
  let em := emi_em iter in
  S (Z.to_nat ((em_g1_blocks em * em_g1_blk_size em
                + em_g2_blocks em * em_g2_blk_size em
                + em_ec_size em * (em_g1_blocks em + em_g2_blocks em))
               - emi_offset iter)).

Definition qr_image_draw_data (qr : qr_image) (iter : encoded_msg_iterator)
  : option (qr_image * encoded_msg_iterator) :=
  let x := u8 (qr_width qr - 1) in
  let y := u8 (qr_width qr - 1) in
  match draw_codewords (iterator_fuel iter) qr iter x y with
  | None => None
  | Some (qr, iter, x, y) =>
      match draw_remaining (S (walk_fuel qr)) qr x y with
      | None => None
      | Some qr => Some (qr, iter)
      end
  end.

Definition qr_image_apply_mask (qr : qr_image) : qr_image :=
  for_range 0 (qr_width qr)
    (fun x qr =>
       for_range 0 (qr_width qr)
         (fun y qr =>
            if (Z.lxor x y mod 2 =? 0) && negb (qr_image_is_reserved qr x y)
            then qr_image_xor qr x y else qr)
         qr)
    qr.

Definition qr_image_draw (qr : qr_image) (em : encoded_msg) : option qr_image :=
  let qr :=
    with_image qr (memset0 (Z.to_nat (qr_stride qr * qr_width qr)) (qr_data qr)) in
  let qr := qr_image_draw_finders qr in
  let qr := qr_image_draw_alignments qr in
  let qr := qr_image_draw_timing_patterns qr in
  let qr := qr_image_draw_version_info qr in
  match qr_image_draw_data qr (encoded_msg_iterator_init em) with
  | None => None
  | Some (qr, _) =>
      let qr := qr_image_draw_maskinfo qr in
      Some (qr_image_apply_mask qr)
  end.

(** ** Entry point

    [url] is [None] for a [NULL] pointer and otherwise the bytes of the
    string before its terminator.  The result is the returned width with the
    [data] and [tmp] buffers as the call leaves them; [None] only when a
    loop bound of the embedding is exceeded. *)
Definition qr_generate (url : option (list Z)) (data : list Z) (data_len : Z)
    (qr_version : Z) (data_size : Z) (tmp : list Z) (tmp_size : Z)
  : option (Z * list Z * list Z) :=
  if (data_size <? 4071) || (tmp_size <? 3706) then Some (0, data, tmp)
  else if (qr_version <? 1) || (qr_version >? 40) then Some (0, data, tmp)
  else
    let segments :=
      match url with
      | Some u =>
          [mk_segment SEGMENT_BINARY u (Z.of_nat (Datatypes.length u));
           mk_segment SEGMENT_NUMERIC data data_len]
      | None => [mk_segment SEGMENT_BINARY data data_len]
      end in
    match encoded_msg_init segments qr_version tmp tmp_size with
    | None => Some (0, data, tmp)
    | Some em =>
        match encoded_msg_encode em segments with
        | None => None
        | Some em =>
            match qr_image_init em data data_size with
            | None => Some (0, data, em_data em)
            | Some qr =>
                match qr_image_draw qr em with
                | None => None
                | Some qr => Some (qr_width qr, qr_data qr, em_data em)
                end
            end
        end
    end.

End QrGenerator.

Module Qrcon.
Import QrGenerator.

(** ** Constants of [qrcon.c] *)

Definition QRCON_RECENT_ONLY_SIZE : Z := 8096.
Definition KMSG_HISTORY_BUF_SIZE : Z := 10 * 1024 * 1024.
Definition QR_PAYLOAD_AND_IMAGE_BUF_SIZE : Z := 8192.
Definition QR_TMP_WORKSPACE_SIZE : Z := 4096.
Definition QR_COMPRESSION_MAGIC : Z := 0x5A535444.
Definition QR_COMPRESSION_HEADER_SIZE : Z := 8.
Definition QR_SKIP_SIZE : Z := 1024.

(** The four bytes of a [u32] store on the little-endian targets of the
    module. *)
Definition le32 (x : Z) : list Z :=
  [u32 x mod 256; (u32 x / 256) mod 256; (u32 x / 65536) mod 256;
   (u32 x / 16777216) mod 256].

Section Collaborators.

(** The compressor and the framebuffer are external to the module.

    [ZSTD_compressCCtx cctx dstCapacity src srcSize level] gives the context
    after the call, the bytes it wrote to the destination and its return
    code; [ZSTD_isError] tells an error code from a size.  The context is
    threaded through the calls, so that two calls on the same input need not
    agree.

    [blit fb width image] stands for the pixel loops of [qrcon_render_qr]
    (white border, one black rectangle per set module, pan display). *)
Context {CCtx : Type}.
Context (ZSTD_compressCCtx : CCtx -> Z -> list Z -> Z -> Z -> CCtx * list Z * Z).
Context (ZSTD_isError : Z -> bool).
Context {FB : Type}.
Context (blit : FB -> Z -> list Z -> FB).

(** The static variables of the module.  [fb] is [None] while
    [fb_screen_base] is [NULL]. *)
Record qrcon_state := mk_state {
  qr_version : Z;
  recent_only : Z;
  compression_level : Z;
  cctx : CCtx;
  fb : option FB;
  qr_payload_and_image_buf : list Z;
  qr_tmp_workspace : list Z;
  qr_payload_len : Z;
  qr_width : Z;
  kmsg_history_len : Z;
  kmsg_history_pos : Z;
  kmsg_history_buf : list Z
}.

(** ** Payload fitter *)

Record search_state := mk_search {
  low : Z;
  high : Z;
  best_size : Z;
  best_compressed_payload : Z;
  s_cctx : CCtx;
  s_dst : list Z
}.

(** One call of the compressor into [dst + QR_COMPRESSION_HEADER_SIZE]. *)
Definition compress_into (c : CCtx) (dst : list Z) (dst_payload_capacity : Z)
    (src : list Z) (n : Z) (level : Z) : CCtx * list Z * Z :=
  let '(c', out, code) := ZSTD_compressCCtx c dst_payload_capacity src n level in
  (c',
   memcpy_at (Z.to_nat QR_COMPRESSION_HEADER_SIZE)
     (firstn (Z.to_nat dst_payload_capacity) out) dst,
   code).

(** The [while (low <= high)] loop of [qrcon_compress_data]. *)
Fixpoint search (fuel : nat) (src : list Z) (level target_capacity : Z)
    (st : search_state) : option search_state :=
  match fuel with
  | O => None
  | S fuel' =>
      if low st <=? high st then
        let mid := size_t (low st + (high st - low st) / 2) in
        if mid =? 0 then Some st
        else
          let dst_payload_capacity := target_capacity - QR_COMPRESSION_HEADER_SIZE in
          let '(c, dst, compressed_size) :=
            compress_into (s_cctx st) (s_dst st) dst_payload_capacity src mid level in
          if ZSTD_isError compressed_size then
            search fuel' src level target_capacity
              (mk_search (low st) (size_t (mid - 1)) (best_size st)
                 (best_compressed_payload st) c dst)
          else if size_t (QR_COMPRESSION_HEADER_SIZE + compressed_size)
                  <=? target_capacity then
            search fuel' src level target_capacity
              (mk_search (size_t (mid + 1)) (high st) mid compressed_size c dst)
          else
            search fuel' src level target_capacity
              (mk_search (low st) (size_t (mid - 1)) (best_size st)
                 (best_compressed_payload st) c dst)
      else Some st
  end.

(** The search halves the interval, which is shorter than [2^64]. *)
Definition search_fuel : nat := 65.

(** The outputs of [qrcon_compress_data]: return value, [*processed_size],
    the destination buffer and the compression context. *)
Record fit_result := mk_fit {
  fit_ret : Z;
  fit_processed_size : Z;
  fit_dst : list Z;
  fit_cctx : CCtx
}.

(** The code of [qrcon_compress_data] after its search loop: the final
    compression of the candidate and the checks on its result. *)
Definition final_pass (target_capacity : Z) (src : list Z) (level : Z)
    (st : search_state) : fit_result :=
  let dst_payload_capacity := target_capacity - QR_COMPRESSION_HEADER_SIZE in
  if best_size st >? 0 then
    let dst := memcpy_at 0 (le32 QR_COMPRESSION_MAGIC) (s_dst st) in
    let dst := memcpy_at 4 (le32 (best_size st)) dst in
    let '(c, dst, compressed_size) :=
      compress_into (s_cctx st) dst dst_payload_capacity src (best_size st) level in
    if ZSTD_isError compressed_size then mk_fit 0 0 dst c
    else if negb (compressed_size =? best_compressed_payload st)
            && (size_t (QR_COMPRESSION_HEADER_SIZE + compressed_size)
                >? target_capacity)
    then mk_fit 0 0 dst c
    else
      mk_fit (size_t (QR_COMPRESSION_HEADER_SIZE + compressed_size))
        (best_size st) dst c
  else mk_fit 0 0 (s_dst st) (s_cctx st).

(** [qrcon_compress_data], with the static variables it reads ([qr_version],
    [compression_level], [cctx]) as arguments. *)
Definition qrcon_compress_data (ver level0 : Z) (c : CCtx)
    (src : list Z) (src_size : Z) (dst : list Z) (dst_capacity : Z)
  : option fit_result :=
  if (ver <? 1) || (ver >? 40) then Some (mk_fit 0 0 dst c)
  else
    let target_capacity := qr_max_data_size (u8 ver) 0 in
    if target_capacity =? 0 then Some (mk_fit 0 0 dst c)
    else
      let target_capacity :=
        if target_capacity >? dst_capacity then dst_capacity else target_capacity in
      if target_capacity <=? QR_COMPRESSION_HEADER_SIZE then Some (mk_fit 0 0 dst c)
      else
        let level :=
          if level0 <? 1 then 1 else if level0 >? 22 then 22 else level0 in
        match search search_fuel src level target_capacity
                (mk_search 1 src_size 0 0 c dst) with
        | None => None
        | Some st => Some (final_pass target_capacity src level st)
        end.

(** The clamped target capacity and the clamped level of
    [qrcon_compress_data]. *)
Definition target_capacity_of (ver dst_capacity : Z) : Z :=
  let target_capacity := qr_max_data_size (u8 ver) 0 in
  if target_capacity >? dst_capacity then dst_capacity else target_capacity.

Definition level_of (level0 : Z) : Z :=
  if level0 <? 1 then 1 else if level0 >? 22 then 22 else level0.

(** The return code of the compressor on the prefix of length [m]. *)
Definition compressed_size (c : CCtx) (ver level0 dst_capacity : Z) (src : list Z)
    (m : Z) : Z :=
  snd (ZSTD_compressCCtx c
         (target_capacity_of ver dst_capacity - QR_COMPRESSION_HEADER_SIZE)
         src m (level_of level0)).

(** [fits m], from the words of the specification: the prefix of length
    [m] compresses without error and the header with the compressed prefix
    is at most the target capacity. *)
Definition fits (c : CCtx) (ver level0 dst_capacity : Z) (src : list Z) (m : Z) : bool :=
  negb (ZSTD_isError (compressed_size c ver level0 dst_capacity src m))
  && (QR_COMPRESSION_HEADER_SIZE + compressed_size c ver level0 dst_capacity src m
      <=? target_capacity_of ver dst_capacity).

(** The binary search, from the words of the specification (4.5, step 3).
    [spec_fit_test]: the test on the return code of a probe, no error and
    the header with the compressed prefix at most the target capacity.
    [spec_search_probes]: the probes in the order in which the search makes
    them, each with the prefix length [m = lo + (hi - lo) / 2] and the
    return code of the compressor on that prefix, and the compression
    context after the last one; a probe that passes the test moves [lo] to
    [m + 1], any other moves [hi] to [m - 1].  [n] bounds the number of
    probes: the interval loses at least one length with every probe, so
    its length is enough.  [spec_candidate]: the last probe that passed the
    test, [(0, 0)] when none did. *)
Definition spec_fit_test (target code : Z) : bool :=
  negb (ZSTD_isError code) && (QR_COMPRESSION_HEADER_SIZE + code <=? target).

Fixpoint spec_search_probes (n : nat) (c : CCtx) (src : list Z)
    (level target lo hi : Z) : list (Z * Z) * CCtx :=
  match n with
  | O => ([], c)
  | S n' =>
      if lo <=? hi then
        let m := lo + (hi - lo) / 2 in
        let '(c', _, code) :=
          ZSTD_compressCCtx c (target - QR_COMPRESSION_HEADER_SIZE) src m level in
        let next :=
          if spec_fit_test target code
          then spec_search_probes n' c' src level target (m + 1) hi
          else spec_search_probes n' c' src level target lo (m - 1) in
        ((m, code) :: fst next, snd next)
      else ([], c)
  end.

Definition spec_candidate (target : Z) (probes : list (Z * Z)) : Z * Z :=
  fold_left (fun best p => if spec_fit_test target (snd p) then p else best)
    probes (0, 0).

(** The return code of the compressor is a [size_t], and one that is not an
    error is a size, which leaves room for the header below [SIZE_MAX]. *)
Definition zstd_contract : Prop :=
  forall c cap src n level,
    let code := snd (ZSTD_compressCCtx c cap src n level) in
    0 <= code <= SIZE_MAX
    /\ (ZSTD_isError code = false -> code + QR_COMPRESSION_HEADER_SIZE <= SIZE_MAX).

(** The compressor is deterministic on the prefixes of [src]: its return
    code does not depend on the context. *)
Definition zstd_deterministic (ver level0 dst_capacity : Z) (src : list Z) : Prop :=
  forall c c' m,
    compressed_size c ver level0 dst_capacity src m
    = compressed_size c' ver level0 dst_capacity src m.

(** Invariants of the search.  [recorded]: the candidate, if any,
    compressed without error and passed the capacity test.  [fit_with]: the
    capacity test of the loop on the size [size_of m].  [bracket]: the
    lengths below [low] pass the test, those above [high] fail it, and the
    candidate is the length just below [low]. *)
Definition recorded (target : Z) (st : search_state) : Prop :=
  best_size st = 0
  \/ (ZSTD_isError (best_compressed_payload st) = false
      /\ size_t (QR_COMPRESSION_HEADER_SIZE + best_compressed_payload st) <= target).

Definition fit_with (size_of : Z -> Z) (target : Z) (m : Z) : bool :=
  negb (ZSTD_isError (size_of m))
  && (size_t (QR_COMPRESSION_HEADER_SIZE + size_of m) <=? target).

Record bracket (size_of : Z -> Z) (target src_size : Z) (st : search_state)
  : Prop := mk_bracket {
  br_low : 1 <= low st <= high st + 1;
  br_high : high st <= src_size;
  br_best : best_size st = low st - 1;
  br_below : forall m, 1 <= m < low st -> fit_with size_of target m = true;
  br_above : forall m, high st < m <= src_size -> fit_with size_of target m = false;
  br_payload : 0 < best_size st -> best_compressed_payload st = size_of (best_size st)
}.

(** ** Rendering and the history driver *)

Definition set_render (g : qrcon_state) (fb' : option FB) (buf tmp : list Z) (w : Z)
  : qrcon_state :=
  mk_state (qr_version g) (recent_only g) (compression_level g) (cctx g) fb'
    buf tmp (qr_payload_len g) w (kmsg_history_len g) (kmsg_history_pos g)
    (kmsg_history_buf g).

(** [qrcon_render_qr]: the state after the call; the [int] status it
    returns is ignored by its caller.  [None] only when [qr_generate]
    exceeds a loop bound of the embedding. *)
Definition qrcon_render_qr (g : qrcon_state) : option qrcon_state :=
  match fb g with
  | None => Some g
  | Some f =>
      if qr_payload_len g =? 0 then Some g
      else
        match qr_generate None (qr_payload_and_image_buf g) (qr_payload_len g)
                (u8 (qr_version g)) QR_PAYLOAD_AND_IMAGE_BUF_SIZE
                (qr_tmp_workspace g) QR_TMP_WORKSPACE_SIZE with
        | None => None
        | Some (w, buf, tmp) =>
            if w =? 0 then Some (set_render g (Some f) buf tmp w)
            else Some (set_render g (Some (blit f w buf)) buf tmp w)
        end
  end.

Definition set_fit (g : qrcon_state) (c : CCtx) (buf : list Z) : qrcon_state :=
  mk_state (qr_version g) (recent_only g) (compression_level g) c (fb g)
    buf (qr_tmp_workspace g) (qr_payload_len g) (qr_width g)
    (kmsg_history_len g) (kmsg_history_pos g) (kmsg_history_buf g).

Definition set_payload_len (g : qrcon_state) (n : Z) : qrcon_state :=
  mk_state (qr_version g) (recent_only g) (compression_level g) (cctx g) (fb g)
    (qr_payload_and_image_buf g) (qr_tmp_workspace g) n (qr_width g)
    (kmsg_history_len g) (kmsg_history_pos g) (kmsg_history_buf g).

Definition set_history (g : qrcon_state) (len pos : Z) : qrcon_state :=
  mk_state (qr_version g) (recent_only g) (compression_level g) (cctx g) (fb g)
    (qr_payload_and_image_buf g) (qr_tmp_workspace g) (qr_payload_len g)
    (qr_width g) len pos (kmsg_history_buf g).

(** The call of the fitter in the body of the [while (kmsg_history_pos <
    kmsg_history_len)] loop of [qrcon_process_history], on the part of the
    history that remains. *)
Definition history_remaining (g : qrcon_state) : Z :=
  size_t (kmsg_history_len g - kmsg_history_pos g).

Definition history_fit (g : qrcon_state) : option fit_result :=
  qrcon_compress_data (qr_version g) (compression_level g) (cctx g)
    (skipn (Z.to_nat (kmsg_history_pos g)) (kmsg_history_buf g))
    (history_remaining g)
    (qr_payload_and_image_buf g) QR_PAYLOAD_AND_IMAGE_BUF_SIZE.

(** The bytes by which a pass moves the cursor, given the result [r] of the
    fitter: [skip_amount] after a failure, [processed_src] after a
    success. *)
Definition advance (g : qrcon_state) (r : fit_result) : Z :=
  if fit_ret r =? 0 then
    if history_remaining g <? QR_SKIP_SIZE then history_remaining g else QR_SKIP_SIZE
  else fit_processed_size r.

(** One pass through the body of the loop.  The delays between two symbols
    do not act on the state and are left out. *)
Definition history_step (g : qrcon_state) : option qrcon_state :=
  let remaining := history_remaining g in
  match history_fit g with
  | None => None
  | Some r =>
      let g := set_fit g (fit_cctx r) (fit_dst r) in
      if fit_ret r =? 0 then
        let skip_amount :=
          if remaining <? QR_SKIP_SIZE then remaining else QR_SKIP_SIZE in
        Some (set_history g (kmsg_history_len g)
                (size_t (kmsg_history_pos g + skip_amount)))
      else
        match qrcon_render_qr (set_payload_len g (fit_ret r)) with
        | None => None
        | Some g =>
            Some (set_history g (kmsg_history_len g)
                    (size_t (kmsg_history_pos g + fit_processed_size r)))
        end
  end.

(** The loop itself: [fuel] bounds the number of passes through the body. *)
Fixpoint history_loop (fuel : nat) (g : qrcon_state) : option qrcon_state :=
  if kmsg_history_pos g <? kmsg_history_len g then
    match fuel with
    | O => None
    | S fuel' =>
        match history_step g with
        | None => None
        | Some g' => history_loop fuel' g'
        end
    end
  else Some g.

(** [qrcon_process_history].  The loop is given as many passes as the
    history has bytes. *)
Definition qrcon_process_history (g : qrcon_state) : option qrcon_state :=
  if kmsg_history_len g =? 0 then Some g
  else if (qr_version g <? 1) || (qr_version g >? 40) then Some (set_history g 0 0)
  else if qr_max_data_size (u8 (qr_version g)) 0 =? 0 then Some (set_history g 0 0)
  else
    let pos :=
      if negb (recent_only g =? 0) && (kmsg_history_len g >? QRCON_RECENT_ONLY_SIZE)
      then
        let p := size_t (kmsg_history_len g - QRCON_RECENT_ONLY_SIZE) in
        if p >=? kmsg_history_len g then 0 else p
      else 0 in
    match history_loop (Z.to_nat (kmsg_history_len g))
            (set_history g (kmsg_history_len g) pos) with
    | None => None
    | Some g => Some (set_payload_len (set_history g 0 0) 0)
    end.

End Collaborators.

(** A compressor for the worked examples: it stores its input, and fails
    with the code of [dstSize_tooSmall] when the input exceeds the
    capacity.  Error codes are the top of the [size_t] range, as in the
    library. *)
Definition store_isError (code : Z) : bool := code >? SIZE_MAX - 120.

Definition store_compressCCtx (c : unit) (cap : Z) (src : list Z) (n : Z) (level : Z)
  : unit * list Z * Z :=
  if (0 <=? n) && (n <=? cap) && (n <=? SIZE_MAX - 120)
  then (c, firstn (Z.to_nat n) src, n)
  else (c, [], SIZE_MAX - 69).

(** Twenty bytes of history and a 32-byte destination, for version 1. *)
Definition sample_src : list Z := repeat 65 20.
Definition sample_dst : list Z := repeat 0 32.

(** A framebuffer for the worked examples: the widths of the symbols drawn. *)
Definition count_blit (f : list Z) (w : Z) (image : list Z) : list Z := f ++ [w].

(** The module state with the twenty bytes as history, for version 1. *)
Definition sample_state : @qrcon_state unit (list Z) :=
  mk_state 1 0 3 tt (Some [])
    (repeat 0 (Z.to_nat QR_PAYLOAD_AND_IMAGE_BUF_SIZE))
    (repeat 0 (Z.to_nat QR_TMP_WORKSPACE_SIZE)) 0 0 20 0 sample_src.

End Qrcon.

(** * Specification-side definitions *)

Module Spec.
Import QrGenerator.

(** The versions of the symbol, 1 to 40. *)
Definition versions : list Z := map Z.of_nat (seq 1 40).

(** [D v], [E v] and the block layout, from the words of the
    specification: taken from [VPARAM] at index [v - 1]. *)
Definition param_of (v : Z) : qr_version_param :=
  nth (Z.to_nat (v - 1)) VPARAM (mk_param P7 0 0 0).

Definition G1 (v : Z) : Z := vp_g1_blocks (param_of v).
Definition G2 (v : Z) : Z := vp_g2_blocks (param_of v).
Definition S1 (v : Z) : Z := vp_g1_blk_size (param_of v).
Definition D (v : Z) : Z := G1 v * S1 v + G2 v * (S1 v + 1).
Definition E (v : Z) : Z := Z.of_nat (Datatypes.length (poly_coeffs (vp_poly (param_of v)))).

(** Size of the encoded message region, [D v + E v * (g1 + g2)]. *)
Definition region (v : Z) : Z := D v + E v * (G1 v + G2 v).

(** The canonical interleaving, phase 2: the index of the last byte of the
    [i]-th block of group 2. *)
Definition last_byte_of_g2_block (v : Z) (i : Z) : Z :=
  G1 v * S1 v + (i + 1) * (S1 v + 1) - 1.

(** The bytes an iterator yields until it reports exhaustion. *)
Fixpoint drain (fuel : nat) (iter : encoded_msg_iterator) : list Z :=
  match fuel with
  | O => []
  | S fuel' =>
      match encoded_msg_iterator_next iter with
      | (None, _) => []
      | (Some b, iter') => b :: drain fuel' iter'
      end
  end.

(** A segment whose length field is the length of a buffer that exists:
    non-negative, with a bit count that fits [size_t]. *)
Definition segment_ok (seg : qr_segment) : Prop :=
  0 <= seg_length seg /\ seg_length seg * 8 <= SIZE_MAX.

(** Well-formed iterator states, and the measure that every successful call
    of [qr_segment_iterator_next] decreases. *)
Definition iterator_ok (iter : segment_iterator) : Prop :=
  segment_ok (it_segment iter) /\ 0 <= it_offset iter /\ 0 <= it_carry_len iter <= 3.

Definition iterator_measure (iter : segment_iterator) : nat :=
  match seg_type (it_segment iter) with
  | SEGMENT_BINARY => Z.to_nat (seg_length (it_segment iter) - it_offset iter)
  | SEGMENT_NUMERIC =>
      4 * Z.to_nat (seg_length (it_segment iter) * 8 - it_offset iter)
      + Z.to_nat (it_carry_len iter)
  end.

(** The module walk from [(x, y)] reaches the last module within [fuel]
    steps of [qr_image_next]. *)
Fixpoint walk_ok (fuel : nat) (qr : qr_image) (x y : Z) : bool :=
  match fuel with
  | O => false
  | S fuel' =>
      if qr_image_is_last qr x y then true
      else let '(x', y') := qr_image_next qr x y in walk_ok fuel' qr x' y'
  end.

(** The image geometry of version [v], without pixels. *)
Definition blank_image (v : Z) : qr_image :=
  let width := qr_version_width (mk_version v) in
  mk_qr_image [] width (u8 ((width + 8 - 1) / 8)) (mk_version v).

(** Per-version facts, as boolean checks. *)
Definition check_capacity (v : Z) : bool :=
  (qr_max_data_size v 0 =? D v - 3) && (qr_version_max_data (mk_version v) =? D v).

Definition check_layout (v : Z) : bool :=
  (qr_version_g1_blocks (mk_version v) =? G1 v)
  && (qr_version_g2_blocks (mk_version v) =? G2 v)
  && (qr_version_g1_blk_size (mk_version v) =? S1 v)
  && (qr_version_ec_size (mk_version v) =? E v)
  && (0 <? G1 v) && (0 <=? G2 v) && (0 <? S1 v) && (S1 v <? 255) && (0 <? E v)
  && (G1 v <? 256) && (G2 v <? 256) && (E v <? 256)
  && (G2 v <=? S1 v) && (3 <? D v) && (region v <=? 3706).

Definition check_walk (v : Z) : bool :=
  let qr := blank_image v in
  (qr_width qr =? 4 * v + 17)
  && walk_ok (Z.to_nat (qr_width qr * qr_width qr)) qr
       (u8 (qr_width qr - 1)) (u8 (qr_width qr - 1)).

(** The per-version facts, unpacked. *)
Record layout (v : Z) : Prop := mk_layout {
  lay_g1 : qr_version_g1_blocks (mk_version v) = G1 v;
  lay_g2 : qr_version_g2_blocks (mk_version v) = G2 v;
  lay_s1 : qr_version_g1_blk_size (mk_version v) = S1 v;
  lay_ec : qr_version_ec_size (mk_version v) = E v;
  lay_max : qr_version_max_data (mk_version v) = D v;
  lay_cap : qr_max_data_size v 0 = D v - 3;
  lay_g1_range : 0 < G1 v < 256;
  lay_g2_range : 0 <= G2 v < 256;
  lay_s1_range : 0 < S1 v < 255;
  lay_ec_range : 0 < E v < 256;
  lay_g2_s1 : G2 v <= S1 v;
  lay_d : 3 < D v;
  lay_region : region v <= 3706
}.

(** What [encoded_msg_init] stores for version [v]. *)
Record em_of_version (v : Z) (em : encoded_msg) : Prop := mk_em_of_version {
  emv_ec : em_ec_size em = E v;
  emv_g1 : em_g1_blocks em = G1 v;
  emv_g2 : em_g2_blocks em = G2 v;
  emv_s1 : em_g1_blk_size em = S1 v;
  emv_s2 : em_g2_blk_size em = S1 v + 1;
  emv_ver : em_version em = mk_version v
}.

(** Inputs of the worked examples. *)
Definition no_em : encoded_msg :=
  mk_encoded_msg [] 0 0 0 0 0 None (mk_version 0).

Definition encode (segs : list qr_segment) (v : Z) (tmp : list Z) (tmp_size : Z)
  : option encoded_msg :=
  match encoded_msg_init segs v tmp tmp_size with
  | Some em => encoded_msg_encode em segs
  | None => None
  end.

(** "HELLO\n" as the byte segment of a version-1 symbol. *)
Definition hello : list Z := [72; 69; 76; 76; 79; 10].
Definition hello_segments : list qr_segment := [mk_segment SEGMENT_BINARY hello 6].
Definition hello_tmp : list Z := repeat 0 26.
Definition hello_init : encoded_msg :=
  Eval vm_compute in
    match encoded_msg_init hello_segments 1 hello_tmp 26 with
    | Some em => em
    | None => no_em
    end.
Definition hello_encoded : encoded_msg :=
  Eval vm_compute in
    match encode hello_segments 1 hello_tmp 26 with
    | Some em => em
    | None => no_em
    end.

(** The buffers of the smallest call of [qr_generate]. *)
Definition hello_data : list Z := hello ++ repeat 0 4065.
Definition hello_workspace : list Z := repeat 0 3706.

(** 271 bytes 0, 1, 2, ... as the byte segment of a version-10 symbol, which
    has two blocks in each group. *)
Definition ramp (n : nat) : list Z := map (fun k => Z.of_nat k mod 256) (seq 0 n).
Definition ramp_segments : list qr_segment := [mk_segment SEGMENT_BINARY (ramp 271) 271].
Definition ramp_encoded : encoded_msg :=
  Eval vm_compute in
    match encode ramp_segments 10 (repeat 0 346) 346 with
    | Some em => em
    | None => no_em
    end.

(** Two and four bytes [0xFF] as numeric segments. *)
Definition ones2 : list Z := [255; 255].
Definition ones4 : list Z := [255; 255; 255; 255].

End Spec.

(** * The version search of [qr_generator.c] *)

Module QrVersionSearch.
Import QrGenerator.

(** The [for (v = ...; v <= 40; v++)] loop of [qr_version_from_segments],
    with [n] versions left to try; the version found, [version = 0] when
    the loop ends without one. *)
Fixpoint version_search (n : nat) (v : Z) (segments : list qr_segment) : qr_version :=
  match n with
  | O => mk_version 0
  | S n' =>
      let ver := mk_version (u8 v) in
      let total_bits :=
        fold_left (fun acc seg => size_t (acc + qr_segment_total_size_bits seg ver))
          segments 0 in
      if size_t (qr_version_max_data ver * 8) >=? size_t (total_bits + 4)
      then ver
      else version_search n' (size_t (v + 1)) segments
  end.

Definition qr_version_from_segments (segments : list qr_segment) : qr_version :=
  version_search 40 1 segments.

End QrVersionSearch.

(** * The consumers of the module's output *)

(** ** The module test of the renderer *)

Module QrconScreen.

(** The test of the module loop of [qrcon_render_qr] for column [x] of row
    [y] of the image: [byte = qr_image_ptr[y * ((qr_width + 7) / 8) + x / 8]],
    [bit = 0x80 >> (x % 8)], and a black square is drawn when [byte & bit]. *)
Definition module_set (image : list Z) (width x y : Z) : bool :=
  let byte := rd image (y * ((width + 7) / 8) + x / 8) in
  let bit := u8 (Z.shiftr 128 (x mod 8)) in
  negb (Z.land byte bit =? 0).

End QrconScreen.

(** ** Reader-side definitions *)

Module Reader.
Import QrGenerator.

(** The byte of the bit stream that starts in the low half of byte [i] of
    the buffer, as a reader of a byte segment takes it: the mode indicator
    is four bits long and the character count a whole number of bytes, so
    every byte of the payload straddles two bytes of the buffer. *)
Definition stream_byte (d : list Z) (i : Z) : Z :=
  (rd d i mod 16) * 16 + rd d (i + 1) / 16.

(** The bytes of the character count of a byte segment: 1 up to version 9,
    2 from version 10 on. *)
Definition count_bytes (v : Z) : Z := if v <=? 9 then 1 else 2.

(** The character count read from the bit stream. *)
Definition stream_count (v : Z) (d : list Z) : Z :=
  if v <=? 9 then stream_byte d 0 else stream_byte d 0 * 256 + stream_byte d 1.

(** The character count field holds every length that the capacity of the
    version admits. *)
Definition check_count_fits (v : Z) : bool :=
  Spec.D v - 1 - count_bytes v <? 2 ^ (8 * count_bytes v).

(** The parity bytes that [encoded_msg_error_code_for_block] computes for
    the block of [size] bytes at [offset], before it copies them to the
    error correction area: the same expression as in that function. *)
Definition block_parity (em : encoded_msg) (offset size : Z) : list Z :=
  let tmp := repeat 0 (Z.to_nat (MAX_BLK_SIZE + MAX_EC_SIZE)) in
  let tmp :=
    memcpy_at 0 (firstn (Z.to_nat size) (skipn (Z.to_nat offset) (em_data em))) tmp in
  let coeffs := match em_poly em with Some p => poly_coeffs p | None => [] end in
  let tmp :=
    for_range 0 size
      (fun i tmp =>
         let lead_coeff := rd tmp i in
         if lead_coeff =? 0 then tmp
         else
           let log_lead_coeff := rd LOG_TABLE lead_coeff in
           for_range 0 (em_ec_size em)
             (fun j tmp =>
                wr tmp (i + j + 1)
                  (Z.lxor (rd tmp (i + j + 1))
                     (rd EXP_TABLE ((rd coeffs j + log_lead_coeff) mod 255))))
             tmp)
      tmp in
  firstn (Z.to_nat (em_ec_size em)) (skipn (Z.to_nat size) tmp).

(** An image as [qr_image_init] makes it: its stride is the number of bytes
    of a row, and the buffer holds [stride * width] bytes. *)
Definition image_ok (qr : qr_image) : Prop :=
  0 < qr_width qr < 256
  /\ qr_stride qr = (qr_width qr + 7) / 8
  /\ qr_stride qr * qr_width qr <= Z.of_nat (Datatypes.length (qr_data qr)).

(** The blank image of a version-1 symbol, for the worked examples. *)
Definition sample_image : qr_image := mk_qr_image (repeat 0 63) 21 3 (mk_version 1).

(** [qr'] has the geometry of [qr]. *)
Definition same_geometry (qr qr' : qr_image) : Prop :=
  image_ok qr' /\ qr_width qr' = qr_width qr /\ qr_ver qr' = qr_ver qr.

(** The modules that mask pattern 0 inverts: those of the data area with
    [(x ^ y) % 2 == 0], the test of [qr_image_apply_mask]. *)
Definition mask_inverts (qr : qr_image) (x y : Z) : bool :=
  (Z.lxor x y mod 2 =? 0) && negb (qr_image_is_reserved qr x y).

(** [qr'] is [qr] with the mask applied to the modules selected by
    [done]. *)
Definition masked (qr : qr_image) (done : Z -> Z -> bool) (qr' : qr_image) : Prop :=
  same_geometry qr qr' /\
  forall x y, 0 <= x < qr_width qr -> 0 <= y < qr_width qr ->
    QrconScreen.module_set (qr_data qr') (qr_width qr) x y
    = xorb (mask_inverts qr x y && done x y)
        (QrconScreen.module_set (qr_data qr) (qr_width qr) x y).

(** The modules that the walk of [qr_image_next] visits from [(x, y)], the
    last one included. *)
Fixpoint walk (fuel : nat) (qr : qr_image) (x y : Z) : list (Z * Z) :=
  match fuel with
  | O => []
  | S fuel' =>
      (x, y) ::
      (if qr_image_is_last qr x y then []
       else let '(x', y') := qr_image_next qr x y in walk fuel' qr x' y')
  end.

(** The walk of [qr_image_draw_data], from the bottom right module. *)
Definition data_walk (qr : qr_image) : list (Z * Z) :=
  walk (walk_fuel qr) qr (u8 (qr_width qr - 1)) (u8 (qr_width qr - 1)).

(** The modules of the walk that are free for data. *)
Definition data_modules (qr : qr_image) : list (Z * Z) :=
  filter (fun p => negb (qr_image_is_reserved qr (fst p) (snd p))) (data_walk qr).

(** The tests of [qr_image_is_finder], [qr_image_is_maskinfo],
    [qr_image_is_version_info] and [qr_image_is_alignment] with the
    quantities that depend on the version alone read once: the same
    results, at a lower cost of evaluation. *)
Definition finder_by (e x y : Z) : bool :=
  ((x <? 8) && (y <? 8)) || ((x <? 8) && (y >=? e)) || ((x >=? e) && (y <? 8)).

Definition maskinfo_by (e x y : Z) : bool :=
  ((x <=? 8) && (y =? 8)) || ((y <=? 8) && (x =? 8))
  || ((x =? 8) && (y >=? e)) || ((x >=? e) && (y =? 8)).

Definition version_info_by (vinfo pos x y : Z) : bool :=
  if vinfo =? 0 then false
  else ((x >=? pos) && (x <? pos + 3) && (y <? 6))
       || ((y >=? pos) && (y <? pos + 3) && (x <? 6)).

Definition alignment_by_column (positions : list Z) (e x y : Z) : bool :=
  existsb
    (fun ax =>
       if (x >=? ax - 2) && (x <=? ax + 2) then
         existsb
           (fun ay =>
              if (y >=? ay - 2) && (y <=? ay + 2)
              then negb (finder_by e ax ay) else false)
           positions
       else false)
    positions.

Definition reserved_by (positions : list Z) (e pos vinfo x y : Z) : bool :=
  if qr_image_is_timing x y then true
  else if finder_by e x y then true
  else if maskinfo_by e x y then true
  else if version_info_by vinfo pos x y then true
  else alignment_by_column positions e x y.

(** One pass over a list of modules: whether all of them pass [inside], how
    many there are, and how many of them pass [free]. *)
Definition scan (inside free : Z * Z -> bool) (cells : list (Z * Z)) : bool * Z * Z :=
  fold_left
    (fun acc c =>
       let '(ok, n, k) := acc in
       (if inside c then ok else false, n + 1, if free c then k + 1 else k))
    cells (true, 0, 0).

(** Per-version facts about the walk, as one boolean check: it stays inside
    the symbol and enters the timing column at [(6, 0)] only; it has
    [w * (w - 1) + 1] modules; and it has one free module for every bit of
    the encoded message and fewer than eight to spare. *)
Definition check_walk_modules (v : Z) : bool :=
  let qr := Spec.blank_image v in
  let w := qr_width qr in
  let e := u8 (w - 8) in
  let pos := u8 (w - 11) in
  let vinfo := qr_version_info (qr_ver qr) in
  let positions := until_zero (alignment_positions qr) in
  let '(ok, n, k) :=
    scan
      (fun p =>
         (0 <=? fst p) && (fst p <? w) && (0 <=? snd p) && (snd p <? w)
         && (negb (fst p =? 6) || (snd p =? 0)))
      (fun p => negb (reserved_by positions e pos vinfo (fst p) (snd p)))
      (data_walk qr) in
  ok && (n =? w * (w - 1) + 1)
  && (8 * Spec.region v <=? k) && (k <? 8 * Spec.region v + 8).

(** The walk starts on a module that is free for data. *)
Definition check_start (v : Z) : bool :=
  let qr := Spec.blank_image v in
  negb (qr_image_is_reserved qr (u8 (qr_width qr - 1)) (u8 (qr_width qr - 1))).

(** The modules free for data on the walk from [(x, y)]. *)
Definition free_from (qr : qr_image) (x y : Z) : list (Z * Z) :=
  filter (fun p => negb (qr_image_is_reserved qr (fst p) (snd p)))
    (walk (walk_fuel qr) qr x y).

(** A position of [qr_image_draw_data] between two bits: the last module is
    within reach, the walk stays inside the symbol, and the position is a
    module free for data or the last module. *)
Definition on_walk (qr : qr_image) (x y : Z) : Prop :=
  Spec.walk_ok (walk_fuel qr) qr x y = true
  /\ (forall a b, In (a, b) (walk (walk_fuel qr) qr x y) ->
        0 <= a < qr_width qr /\ 0 <= b < qr_width qr)
  /\ (qr_image_is_reserved qr x y = false \/ qr_image_is_last qr x y = true).

(** [qr'] is [qr] with the modules [cells] set in addition. *)
Definition painted (qr qr' : qr_image) (cells : list (Z * Z)) : Prop :=
  same_geometry qr qr' /\
  forall x y, 0 <= x < qr_width qr -> 0 <= y < qr_width qr ->
    (QrconScreen.module_set (qr_data qr') (qr_width qr) x y = true
     <-> QrconScreen.module_set (qr_data qr) (qr_width qr) x y = true
         \/ In (x, y) cells).

(** The bits of a codeword in the order in which [qr_image_draw_data] places
    them, bit [nbits - 1] first; and the bits of the encoded message, its
    codewords in the order of the interleaving iterator. *)
Definition codeword_bits (byte : Z) (nbits : nat) : list bool :=
  map (fun bit => negb (Z.land byte (Z.shiftl 1 (Z.of_nat bit)) =? 0))
    (rev (seq 0 nbits)).

Definition codewords (em : encoded_msg) : list Z :=
  Spec.drain (iterator_fuel (encoded_msg_iterator_init em))
    (encoded_msg_iterator_init em).

Definition message_bits (em : encoded_msg) : list bool :=
  flat_map (fun byte => codeword_bits byte 8) (codewords em).

(** The modules among [cells] whose bit is 0: module [k] carries bit [k]. *)
Definition light_cells (cells : list (Z * Z)) (bits : list bool) : list (Z * Z) :=
  map fst (filter (fun cb => negb (snd cb)) (combine cells bits)).

End Reader.

(** * The Reed-Solomon code, as a decoder sees it *)

Module ReedSolomon.
Import QrGenerator.

(** The field GF(256) of the symbol, modulo [x^8 + x^4 + x^3 + x^2 + 1]
    (0x11D): multiplication of a byte by the generator [x], and by its
    [n]-th power. *)
Definition gf_double (a : Z) : Z :=
  if a <? 128 then 2 * a else Z.lxor (2 * a) 285.

Fixpoint gf_scale (a : Z) (n : nat) : Z :=
  match n with
  | O => a
  | S n' => gf_double (gf_scale a n')
  end.

(** The sum, in the field, of [f lo], ..., [f (lo + n - 1)]. *)
Fixpoint xor_sum (f : Z -> Z) (lo : Z) (n : nat) : Z :=
  match n with
  | O => 0
  | S n' => Z.lxor (f lo) (xor_sum f (lo + 1) n')
  end.

(** The [i]-th syndrome of a codeword: the codeword, read as a polynomial
    with its first byte as the leading coefficient, at the [i]-th power of
    the generator. *)
Definition syndrome (i : Z) (cw : list Z) : Z :=
  xor_sum
    (fun k =>
       gf_scale (rd cw k) (Z.to_nat (i * (Z.of_nat (Datatypes.length cw) - 1 - k))))
    0 (Datatypes.length cw).

(** Block [b] of version [v]: where its data bytes start, how many there
    are, and the codeword that its data and parity bytes make. *)
Definition block_start (v b : Z) : Z := b * Spec.S1 v + Z.max 0 (b - Spec.G1 v).

Definition block_size (v b : Z) : Z :=
  if b <? Spec.G1 v then Spec.S1 v else Spec.S1 v + 1.

Definition block_codeword (v : Z) (data : list Z) (b : Z) : list Z :=
  firstn (Z.to_nat (block_size v b)) (skipn (Z.to_nat (block_start v b)) data)
  ++ firstn (Z.to_nat (Spec.E v)) (skipn (Z.to_nat (Spec.D v + b * Spec.E v)) data).

(** Checks of the tables. *)
Definition bytes : list Z := map Z.of_nat (seq 0 256).

Definition check_gf_double_pair (a b : Z) : bool :=
  (Z.lxor a b <? 256)
  && (gf_double (Z.lxor a b) =? Z.lxor (gf_double a) (gf_double b)).

Definition check_gf_double (a : Z) : bool :=
  (0 <=? gf_double a) && (gf_double a <? 256)
  && forallb (check_gf_double_pair a) bytes.

Definition check_tables (a : Z) : bool :=
  (0 <=? rd EXP_TABLE a) && (rd EXP_TABLE a <? 256)
  && (rd EXP_TABLE ((a + 1) mod 255) =? gf_double (rd EXP_TABLE a))
  && ((a =? 0)
      || (0 <=? rd LOG_TABLE a) && (rd LOG_TABLE a <? 255)
         && (rd EXP_TABLE (rd LOG_TABLE a) =? a)).

Definition check_generator (v : Z) : bool :=
  let coeffs := poly_coeffs (vp_poly (Spec.param_of v)) in
  let e := Spec.E v in
  (Spec.S1 v + 1 <=? MAX_BLK_SIZE) && (e <=? MAX_EC_SIZE)
  && forallb (fun c => 0 <=? c) coeffs
  && forallb
       (fun i =>
          xor_sum (fun j => rd EXP_TABLE ((rd coeffs j + i * (e - 1 - j)) mod 255))
            0 (Z.to_nat e)
          =? rd EXP_TABLE ((i * e) mod 255))
       (map Z.of_nat (seq 0 (Z.to_nat e))).

(** The part of the syndrome that the bytes of [tmp] from index [s] on
    contribute, where the codeword has [n] bytes. *)
Definition weight (i n : Z) (tmp : list Z) (s : Z) : Z :=
  xor_sum (fun k => gf_scale (rd tmp k) (Z.to_nat (i * (n - 1 - k)))) s
    (Z.to_nat (n - s)).

(** The body of the outer loop of [encoded_msg_error_code_for_block]. *)
Definition rs_step (coeffs : list Z) (ec_size : Z) (i : Z) (tmp : list Z) : list Z :=
  let lead_coeff := rd tmp i in
  if lead_coeff =? 0 then tmp
  else
    let log_lead_coeff := rd LOG_TABLE lead_coeff in
    for_range 0 ec_size
      (fun j tmp =>
         wr tmp (i + j + 1)
           (Z.lxor (rd tmp (i + j + 1))
              (rd EXP_TABLE ((rd coeffs j + log_lead_coeff) mod 255))))
      tmp.

(** A buffer of [u8]. *)
Definition byte_buffer (d : list Z) : Prop := Forall (fun x => 0 <= x < 256) d.

(** What the smallest call of [qr_generate] returns: the width, the image
    and the workspace. *)
Definition hello_generated : Z * list Z * list Z :=
  Eval vm_compute in
    match qr_generate None Spec.hello_data 6 1 4071 Spec.hello_workspace 3706 with
    | Some r => r
    | None => (0, [], [])
    end.

End ReedSolomon.

(** * Properties *)

(** ** Buffers and loops *)

Module BufferFacts.

Lemma upd_length n v l : Datatypes.length (upd n v l) = Datatypes.length l.
Proof.
  revert n. induction l as [|a l IH]; intros [|n]; simpl; auto.
Qed.

Lemma nth_upd_same n v l :
  (n < Datatypes.length l)%nat -> nth n (upd n v l) 0 = v.
Proof.
  revert n. induction l as [|a l IH]; intros [|n] H; simpl in *; try lia; auto.
  apply IH. lia.
Qed.

Lemma nth_upd_other n m v l : n <> m -> nth m (upd n v l) 0 = nth m l 0.
Proof.
  revert n m. induction l as [|a l IH]; intros [|n] [|m] H; simpl; auto;
    try congruence.
Qed.

Lemma wr_length d i v : Datatypes.length (wr d i v) = Datatypes.length d.
Proof. unfold wr. destruct (i <? 0); auto using upd_length. Qed.

Lemma rd_wr_same d i v :
  0 <= i < Z.of_nat (Datatypes.length d) -> rd (wr d i v) i = v.
Proof.
  intros H. unfold rd, wr. destruct (i <? 0) eqn:E; [lia|].
  apply nth_upd_same. lia.
Qed.

Lemma rd_wr_other d i j v : 0 <= j -> i <> j -> rd (wr d i v) j = rd d j.
Proof.
  intros Hj H. unfold rd, wr. destruct (i <? 0) eqn:E; [reflexivity|].
  apply nth_upd_other. lia.
Qed.

Lemma memset0_length n d : Datatypes.length (memset0 n d) = Datatypes.length d.
Proof.
  revert d. induction n as [|n IH]; intros [|a d]; simpl; auto.
Qed.

Lemma memcpy_at_length off src dst :
  Datatypes.length (memcpy_at off src dst) = Datatypes.length dst.
Proof.
  revert off src. induction dst as [|a dst IH]; intros off src.
  - destruct off; reflexivity.
  - destruct off as [|off]; simpl.
    + destruct src; simpl; auto.
    + auto.
Qed.

(** An invariant of the state is an invariant of a [for] loop. *)
Lemma for_loop_inv {S : Type} (P : S -> Prop) (body : Z -> S -> S) :
  (forall i s, P s -> P (body i s)) ->
  forall n i s, P s -> P (QrGenerator.for_loop n i body s).
Proof.
  intros Hb. induction n as [|n IH]; intros i s Hs; simpl; auto.
Qed.

Lemma for_range_inv {S : Type} (P : S -> Prop) (body : Z -> S -> S) lo hi s :
  (forall i s, P s -> P (body i s)) -> P s -> P (QrGenerator.for_range lo hi body s).
Proof. intros Hb Hs. unfold QrGenerator.for_range. apply for_loop_inv; auto. Qed.

(** A loop that stores [f i] at index [i]. *)
Lemma for_loop_store (f : Z -> Z) : forall n lo d j,
  0 <= lo -> 0 <= j ->
  rd (QrGenerator.for_loop n lo (fun i d => wr d i (f i)) d) j =
  if (lo <=? j) && (j <? lo + Z.of_nat n) && (j <? Z.of_nat (Datatypes.length d))
  then f j else rd d j.
Proof.
  induction n as [|n IH]; intros lo d j Hlo Hj; simpl QrGenerator.for_loop.
  - replace (lo + Z.of_nat 0) with lo by lia.
    destruct (lo <=? j) eqn:E1, (j <? lo) eqn:E2; simpl; try reflexivity; lia.
  - rewrite IH by lia. rewrite wr_length.
    destruct (Z.eq_dec lo j) as [->|Hne].
    + destruct (j <? Z.of_nat (Datatypes.length d)) eqn:E3.
      * rewrite rd_wr_same by lia.
        replace (j + 1 <=? j) with false by lia.
        replace (j <=? j) with true by lia.
        replace (j <? j + Z.of_nat (S n)) with true by lia. reflexivity.
      * rewrite !andb_false_r. unfold wr, rd.
        destruct (j <? 0); [reflexivity|].
        rewrite !nth_overflow; rewrite ?upd_length; auto; lia.
    + rewrite rd_wr_other by lia.
      replace (lo + 1 <=? j) with (lo <=? j) by lia.
      replace (j <? lo + 1 + Z.of_nat n) with (j <? lo + Z.of_nat (S n)) by lia.
      reflexivity.
Qed.

End BufferFacts.

Module VersionFacts.
Import QrGenerator Spec.

(** ** Versions and tables *)

Lemma versions_forall (P : Z -> bool) :
  forallb P versions = true -> forall v, 1 <= v <= 40 -> P v = true.
Proof.
  intros H v Hv. rewrite forallb_forall in H. apply H.
  unfold versions. apply in_map_iff. exists (Z.to_nat v). split.
  - lia.
  - apply in_seq. lia.
Qed.

Lemma capacity_checked : forall v, 1 <= v <= 40 -> check_capacity v = true.
Proof. apply versions_forall. vm_compute. reflexivity. Qed.

Lemma layout_checked : forall v, 1 <= v <= 40 -> check_layout v = true.
Proof. apply versions_forall. vm_compute. reflexivity. Qed.

Lemma walk_checked : forall v, 1 <= v <= 40 -> check_walk v = true.
Proof. apply versions_forall. vm_compute. reflexivity. Qed.

Lemma layout_of_version v : 1 <= v <= 40 -> layout v.
Proof.
  intros Hv.
  pose proof (layout_checked v Hv) as H. pose proof (capacity_checked v Hv) as Hc.
  unfold check_layout in H. unfold check_capacity in Hc.
  repeat match goal with
         | H : _ && _ = true |- _ => apply andb_prop in H; destruct H
         end.
  constructor; lia.
Qed.

Ltac layout_facts v H :=
  destruct (layout_of_version v H)
    as [Lg1 Lg2 Ls1 Lec Lmax Lcap Rg1 Rg2 Rs1 Rec Rg2s1 Rd Rreg].

Lemma invalid_version_capacity v url_len :
  ~ (1 <= v <= 40) -> qr_max_data_size v url_len = 0.
Proof.
  intros H. unfold qr_max_data_size.
  destruct (v <? 1) eqn:E1; [reflexivity|].
  destruct (v >? 40) eqn:E2; [reflexivity|]. lia.
Qed.

(** C3. For every version [v] in 1..40, [qr_max_data_size v 0] is
    [D v - 3], with [D v = g1 * s1 + g2 * (s1 + 1)] read from [VPARAM]; for
    any other version it is 0. *)
Theorem qr_max_data_size_no_url : forall v,
  qr_max_data_size v 0 = if (1 <=? v) && (v <=? 40) then D v - 3 else 0.
Proof.
  intros v. destruct ((1 <=? v) && (v <=? 40)) eqn:Hv.
  - apply lay_cap, layout_of_version. lia.
  - apply invalid_version_capacity. lia.
Qed.

(** C9, as the table has it. For version 20 the data-codeword capacity is
    861 and the byte-mode capacity is 858. *)
Theorem version_20_capacity :
  qr_version_max_data (mk_version 20) = 861 /\ qr_max_data_size 20 0 = 858.
Proof. split; vm_compute; reflexivity. Qed.

(** C9, as stated: 485 and 482 are not the capacities of version 20. *)
Lemma version_20_capacity_not_485 :
  ~ (qr_version_max_data (mk_version 20) = 485 /\ qr_max_data_size 20 0 = 482).
Proof. intros [H _]. vm_compute in H. discriminate H. Qed.

End VersionFacts.

Module InterleaveFacts.
Import QrGenerator Spec BufferFacts VersionFacts.

(** ** The encoded message of a version *)

Lemma u8_small x : 0 <= x < 256 -> u8 x = x.
Proof. intros H. unfold u8. apply Z.mod_small. exact H. Qed.

Lemma size_t_small x : 0 <= x <= SIZE_MAX -> size_t x = x.
Proof. intros H. unfold size_t. apply Z.mod_small. lia. Qed.

Lemma encoded_msg_init_some segs v data data_size em :
  encoded_msg_init segs v data data_size = Some em ->
  1 <= v <= 40 /\ em_of_version v em /\ region v <= data_size /\
  em_data em = memset0 (Z.to_nat data_size) data.
Proof.
  unfold encoded_msg_init. intros H.
  destruct (_ || _) in H; [discriminate|].
  destruct ((v <? 1) || (v >? 40)) eqn:Hv in H; [discriminate|].
  assert (Hr : 1 <= v <= 40) by lia.
  destruct (_ >? _) in H; [discriminate|].
  destruct (data_size <? _) eqn:Hsz in H; [discriminate|].
  injection H as <-.
  layout_facts v Hr.
  rewrite Lg1, Lg2, Ls1, Lec, Lmax in *.
  split; [exact Hr|]. split; [|split].
  - constructor; simpl; try reflexivity; apply u8_small; lia.
  - unfold region. unfold SIZE_MAX in *.
    rewrite size_t_small in Hsz; [lia|]. unfold D, SIZE_MAX. nia.
  - reflexivity.
Qed.

Lemma with_data_of_version v em d : em_of_version v em -> em_of_version v (with_data em d).
Proof. intros []. constructor; assumption. Qed.

(** ** The interleaved iterator *)

Section Iterator.

Variable v : Z.
Variable em : encoded_msg.
Hypothesis Hv : 1 <= v <= 40.
Hypothesis Hem : em_of_version v em.

Lemma ec_end_region :
  em_g1_blocks em * em_g1_blk_size em + em_g2_blocks em * em_g2_blk_size em
  + em_ec_size em * (em_g1_blocks em + em_g2_blocks em) = region v.
Proof.
  destruct Hem as [Eec Eg1 Eg2 Es1 Es2 Ever].
  unfold region, D. rewrite Eec, Eg1, Eg2, Es1, Es2. ring.
Qed.

Lemma iterator_index_exhausted off :
  region v <= off -> encoded_msg_iterator_index em off = None.
Proof.
  intros H. unfold encoded_msg_iterator_index.
  rewrite ec_end_region. destruct (off >=? region v) eqn:E; [reflexivity|lia].
Qed.

Lemma iterator_index_in_region off :
  0 <= off < region v ->
  exists idx, encoded_msg_iterator_index em off = Some idx /\ 0 <= idx < region v.
Proof.
  intros H. unfold encoded_msg_iterator_index.
  rewrite ec_end_region. destruct (off >=? region v) eqn:E0; [lia|].
  destruct Hem as [Eec Eg1 Eg2 Es1 Es2 Ever]. layout_facts v Hv.
  rewrite Eec, Eg1, Eg2, Es1, Es2.
  unfold region, D in *.
  set (g1 := G1 v) in *. set (g2 := G2 v) in *. set (s1 := S1 v) in *.
  set (ec := E v) in *.
  destruct (off <? s1 * (g1 + g2)) eqn:E1.
  - pose proof (Z.mod_pos_bound off (g1 + g2) ltac:(lia)) as Hm.
    pose proof (Z.div_pos off (g1 + g2) ltac:(lia) ltac:(lia)) as Hq0.
    assert (Hq : off / (g1 + g2) < s1)
      by (apply Z.div_lt_upper_bound; lia).
    assert (Hec : 0 <= ec * (g1 + g2)) by (apply Z.mul_nonneg_nonneg; lia).
    assert (Hg2 : 0 <= g2 * (s1 + 1)) by (apply Z.mul_nonneg_nonneg; lia).
    destruct (off mod (g1 + g2) <? g1) eqn:E2; eexists; (split; [reflexivity|]).
    + assert (0 <= off mod (g1 + g2) * s1 <= (g1 - 1) * s1)
        by (split; [apply Z.mul_nonneg_nonneg|apply Z.mul_le_mono_nonneg_r]; lia).
      lia.
    + assert (0 <= (off mod (g1 + g2) - g1) * (s1 + 1) <= (g2 - 1) * (s1 + 1))
        by (split; [apply Z.mul_nonneg_nonneg|apply Z.mul_le_mono_nonneg_r]; lia).
      assert (0 <= g1 * s1) by (apply Z.mul_nonneg_nonneg; lia).
      lia.
  - destruct (off <? g1 * s1 + g2 * (s1 + 1)) eqn:E3.
    + assert (Hb : 0 <= off - (g1 + g2) * s1 < g2) by nia.
      rewrite (Z.div_small _ (s1 + 1)) by lia.
      eexists. split; [reflexivity|]. nia.
    + set (o := off - (g1 * s1 + g2 * (s1 + 1))).
      assert (Ho : 0 <= o < ec * (g1 + g2)) by (unfold o; lia).
      pose proof (Z.mod_pos_bound o (g1 + g2) ltac:(lia)) as Hm.
      pose proof (Z.div_pos o (g1 + g2) ltac:(lia) ltac:(lia)) as Hq0.
      assert (Hq : o / (g1 + g2) < ec)
        by (apply Z.div_lt_upper_bound; lia).
      eexists. split; [reflexivity|].
      assert (0 <= o mod (g1 + g2) * ec <= (g1 + g2 - 1) * ec)
        by (split; [apply Z.mul_nonneg_nonneg|apply Z.mul_le_mono_nonneg_r]; lia).
      assert (0 <= g1 * s1) by (apply Z.mul_nonneg_nonneg; lia).
      assert (0 <= g2 * (s1 + 1)) by (apply Z.mul_nonneg_nonneg; lia).
      lia.
Qed.

(** In phase 2 the code reads, for every column, the last byte of the
    first block of group 2. *)
Lemma iterator_index_phase2 i :
  0 <= i < G2 v ->
  encoded_msg_iterator_index em (S1 v * (G1 v + G2 v) + i)
  = Some (last_byte_of_g2_block v 0).
Proof.
  intros H. unfold encoded_msg_iterator_index, last_byte_of_g2_block.
  destruct Hem as [Eec Eg1 Eg2 Es1 Es2 Ever]. layout_facts v Hv.
  rewrite Eec, Eg1, Eg2, Es1, Es2.
  set (g1 := G1 v) in *. set (g2 := G2 v) in *. set (s1 := S1 v) in *.
  set (ec := E v) in *.
  destruct (_ >=? _) eqn:E0; [nia|].
  destruct (_ <? s1 * (g1 + g2)) eqn:E1; [lia|].
  destruct (_ <? g1 * s1 + g2 * (s1 + 1)) eqn:E3; [|nia].
  replace (s1 * (g1 + g2) + i - (g1 + g2) * s1) with i by ring.
  rewrite Z.div_small by lia. f_equal. ring.
Qed.

Lemma iterator_next_yields off :
  0 <= off < region v ->
  exists idx, 0 <= idx < region v /\
    encoded_msg_iterator_next (mk_encoded_msg_iterator em off)
    = (Some (rd (em_data em) idx), mk_encoded_msg_iterator em (off + 1)).
Proof.
  intros H. destruct (iterator_index_in_region off H) as (idx & Hi & Hr).
  exists idx. split; [exact Hr|].
  unfold encoded_msg_iterator_next. simpl. rewrite Hi. reflexivity.
Qed.

Lemma iterator_next_exhausted off :
  region v <= off ->
  encoded_msg_iterator_next (mk_encoded_msg_iterator em off)
  = (None, mk_encoded_msg_iterator em off).
Proof.
  intros H. unfold encoded_msg_iterator_next. simpl.
  rewrite iterator_index_exhausted by exact H. reflexivity.
Qed.

Lemma drain_length : forall fuel off,
  0 <= off <= region v -> region v - off <= Z.of_nat fuel ->
  Z.of_nat (Datatypes.length (drain fuel (mk_encoded_msg_iterator em off)))
  = region v - off.
Proof.
  induction fuel as [|fuel IH]; intros off Ho Hf.
  - simpl. lia.
  - simpl drain. destruct (Z.eq_dec off (region v)) as [->|Hne].
    + rewrite iterator_next_exhausted by lia. simpl. lia.
    + destruct (iterator_next_yields off ltac:(lia)) as (idx & _ & ->).
      simpl Datatypes.length. rewrite Nat2Z.inj_succ, IH by lia. lia.
Qed.

End Iterator.

End InterleaveFacts.

Module EncodeFacts.
Import QrGenerator Spec BufferFacts VersionFacts InterleaveFacts.

(** ** Termination of the segment loops *)

Lemma get_next_13b_size d len off :
  0 <= len -> len * 8 <= SIZE_MAX -> 0 <= off ->
  snd (get_next_13b d len off) =
  if off >=? len * 8 then 0 else Z.min 13 (len * 8 - off).
Proof.
  intros Hl Hm Ho. unfold get_next_13b.
  rewrite (size_t_small (len * 8)) by lia.
  destruct (off >=? len * 8) eqn:E0; [reflexivity|].
  rewrite (size_t_small (len * 8 - off)) by lia.
  set (bs := Z.min 13 (len * 8 - off)).
  assert (Hbs : 1 <= bs <= 13 /\ bs <= len * 8 - off) by (unfold bs; lia).
  pose proof (Z.mod_pos_bound off 8 ltac:(lia)) as Hmod.
  pose proof (Z.div_mod off 8 ltac:(lia)) as Hdm.
  assert (Hb : u16 (off mod 8 + bs) = off mod 8 + bs)
    by (unfold u16; apply Z.mod_small; lia).
  rewrite Hb.
  destruct (off mod 8 + bs <=? 8) eqn:E1; [reflexivity|].
  destruct (off mod 8 + bs <=? 16) eqn:E2.
  - destruct (off / 8 + 1 <? len) eqn:E3; [reflexivity|]. lia.
  - destruct (off / 8 + 2 <? len) eqn:E3; [reflexivity|]. lia.
Qed.

Lemma iterator_next_decreases iter :
  iterator_ok iter ->
  match qr_segment_iterator_next iter with
  | (None, _) => True
  | (Some _, iter') =>
      iterator_ok iter' /\ (iterator_measure iter' < iterator_measure iter)%nat
  end.
Proof.
  intros (Hseg & Ho & Hc). destruct Hseg as [Hl Hm].
  unfold qr_segment_iterator_next, iterator_measure, iterator_ok, segment_ok.
  destruct (seg_type (it_segment iter)) eqn:Ety.
  - destruct (it_offset iter <? seg_length (it_segment iter)) eqn:E; [|exact I].
    cbn [it_segment it_offset it_carry_len]. rewrite Ety.
    rewrite size_t_small by lia. repeat split; try lia.
  - destruct (it_carry_len iter =? 3) eqn:E3.
    + cbn [it_segment it_offset it_carry_len]. rewrite Ety.
      repeat split; try lia.
    + pose proof (get_next_13b_size (seg_data (it_segment iter))
                    (seg_length (it_segment iter)) (it_offset iter) Hl Hm Ho) as Hs.
      destruct (get_next_13b _ _ _) as [number bit_size]. simpl in Hs. subst bit_size.
      destruct (it_offset iter >=? seg_length (it_segment iter) * 8) eqn:E0.
      * simpl. destruct (it_carry_len iter >? 0) eqn:E4; [|exact I].
        cbn [it_segment it_offset it_carry_len]. rewrite Ety.
        repeat split; try lia.
      * set (bs := Z.min 13 (seg_length (it_segment iter) * 8 - it_offset iter)).
        assert (Hbs : 1 <= bs <= 13 /\
                      bs <= seg_length (it_segment iter) * 8 - it_offset iter)
          by (unfold bs; lia).
        destruct (bs =? 0) eqn:Eb; [lia|].
        set (nc := if bs =? 1 then 1 else (bs + 1) / 3).
        assert (Hnc : 1 <= nc <= 4).
        { unfold nc. destruct (bs =? 1) eqn:E1; [lia|].
          pose proof (Z.div_le_lower_bound (bs + 1) 3 1 ltac:(lia) ltac:(lia)).
          pose proof (Z.div_lt_upper_bound (bs + 1) 3 5 ltac:(lia) ltac:(lia)). lia. }
        rewrite size_t_small by lia.
        destruct (it_carry_len iter + nc >? 3) eqn:E5;
          cbn [it_segment it_offset it_carry_len]; rewrite Ety;
          repeat split; try lia.
Qed.

Lemma encoded_msg_push_length d off number len_bits :
  Datatypes.length (fst (encoded_msg_push d off number len_bits)) = Datatypes.length d.
Proof.
  unfold encoded_msg_push. cbn [fst].
  repeat match goal with
         | |- context [if ?c then _ else _] => destruct c
         end;
    rewrite ?wr_length; reflexivity.
Qed.

Lemma encoded_msg_push_offset d off number len_bits :
  snd (encoded_msg_push d off number len_bits) = size_t (off + len_bits).
Proof. reflexivity. Qed.

Lemma size_t_range x : 0 <= size_t x <= SIZE_MAX.
Proof.
  unfold size_t. pose proof (Z.mod_pos_bound x (SIZE_MAX + 1)).
  unfold SIZE_MAX in *. lia.
Qed.

Lemma push_segment_data_total : forall fuel iter d off,
  iterator_ok iter -> (iterator_measure iter < fuel)%nat ->
  exists d' off', push_segment_data fuel iter d off = Some (d', off')
                  /\ Datatypes.length d' = Datatypes.length d.
Proof.
  induction fuel as [|fuel IH]; intros iter d off Hok Hm; [lia|].
  cbn [push_segment_data]. pose proof (iterator_next_decreases iter Hok) as Hn.
  destruct (qr_segment_iterator_next iter) as [[[bits size]|] iter'].
  - destruct Hn as [Hok' Hm'].
    pose proof (encoded_msg_push_length d off bits size) as Hlen.
    destruct (encoded_msg_push d off bits size) as [d1 off1]. simpl in Hlen.
    destruct (IH iter' d1 off1 Hok' ltac:(lia)) as (d' & off' & He & Hl).
    exists d', off'. split; [exact He|congruence].
  - exists d, off. split; reflexivity.
Qed.

Lemma segment_fuel_enough seg :
  segment_ok seg ->
  iterator_ok (qr_segment_iterator_init seg) /\
  (iterator_measure (qr_segment_iterator_init seg) < segment_fuel seg)%nat.
Proof.
  intros [Hl Hm]. unfold iterator_ok, segment_ok, iterator_measure, segment_fuel,
    qr_segment_iterator_init. cbn [it_segment it_offset it_carry_len].
  rewrite size_t_small by lia.
  split; [repeat split; lia|]. destruct (seg_type seg); lia.
Qed.

Lemma push_segment_total ver seg d off :
  segment_ok seg ->
  exists d' off', push_segment ver seg (d, off) = Some (d', off')
                  /\ Datatypes.length d' = Datatypes.length d.
Proof.
  intros Hok. unfold push_segment.
  destruct (qr_segment_get_header seg) as [b1 s1].
  pose proof (encoded_msg_push_length d off b1 s1) as H1.
  destruct (encoded_msg_push d off b1 s1) as [d1 off1]. simpl in H1.
  destruct (qr_segment_get_length_field seg ver) as [b2 s2].
  pose proof (encoded_msg_push_length d1 off1 b2 s2) as H2.
  destruct (encoded_msg_push d1 off1 b2 s2) as [d2 off2]. simpl in H2.
  destruct (segment_fuel_enough seg Hok) as [Hi Hf].
  destruct (push_segment_data_total _ _ d2 off2 Hi Hf) as (d' & off' & He & Hl).
  exists d', off'. split; [exact He|congruence].
Qed.

Lemma push_segments_total ver : forall segs d off,
  Forall segment_ok segs ->
  exists d' off', push_segments ver segs (d, off) = Some (d', off')
                  /\ Datatypes.length d' = Datatypes.length d.
Proof.
  induction segs as [|seg segs IH]; intros d off Hall.
  - exists d, off. split; reflexivity.
  - inversion Hall as [|? ? Hs Hrest]; subst. cbn [push_segments].
    destruct (push_segment_total ver seg d off Hs) as (d1 & off1 & -> & H1).
    destruct (IH d1 off1 Hrest) as (d' & off' & He & H2).
    exists d', off'. split; [exact He|congruence].
Qed.

(** The bit stream ends on a byte boundary. *)
Lemma add_segments_bits_total em segs :
  Forall segment_ok segs ->
  exists d off, encoded_msg_add_segments_bits em segs = Some (d, off)
                /\ Datatypes.length d = Datatypes.length (em_data em)
                /\ 0 <= off /\ off mod 8 = 0.
Proof.
  intros Hall. unfold encoded_msg_add_segments_bits.
  destruct (push_segments_total (em_version em) segs (em_data em) 0 Hall)
    as (d1 & off1 & -> & H1).
  pose proof (encoded_msg_push_length d1 off1 MODE_STOP 4) as H2.
  destruct (encoded_msg_push d1 off1 MODE_STOP 4) as [d2 off2] eqn:Ep. simpl in H2.
  assert (Hoff2 : 0 <= off2 <= SIZE_MAX).
  { pose proof (encoded_msg_push_offset d1 off1 MODE_STOP 4) as Ho.
    rewrite Ep in Ho. cbn [snd] in Ho. subst off2. apply size_t_range. }
  destruct (off2 mod 8 =? 0) eqn:E8.
  - exists d2, off2. repeat split; lia.
  - pose proof (encoded_msg_push_length d2 off2 0 (size_t (8 - off2 mod 8))) as H3.
    destruct (encoded_msg_push d2 off2 0 (size_t (8 - off2 mod 8))) as [d3 off3] eqn:Ep3.
    simpl in H3. exists d3, off3. split; [reflexivity|]. split; [congruence|].
    pose proof (encoded_msg_push_offset d2 off2 0 (size_t (8 - off2 mod 8))) as Ho.
    rewrite Ep3 in Ho. cbn [snd] in Ho. subst off3.
    pose proof (Z.mod_pos_bound off2 8 ltac:(lia)) as Hm8.
    rewrite (size_t_small (8 - off2 mod 8)) by (unfold SIZE_MAX; lia).
    split; [apply size_t_range|].
    unfold size_t, SIZE_MAX in *.
    change (18446744073709551615 + 1) with 18446744073709551616.
    clear - Hm8 Hoff2. Z.div_mod_to_equations. lia.
Qed.

(** ** The encoding keeps the layout of the version *)

Lemma error_code_for_block_of_version v em offset size ec_offset :
  em_of_version v em ->
  em_of_version v (encoded_msg_error_code_for_block em offset size ec_offset).
Proof. intros H. unfold encoded_msg_error_code_for_block. apply with_data_of_version, H. Qed.

Lemma compute_error_code_of_version v em :
  em_of_version v em -> em_of_version v (encoded_msg_compute_error_code em).
Proof.
  intros H. unfold encoded_msg_compute_error_code.
  set (P := fun s : encoded_msg * Z * Z => em_of_version v (fst (fst s))).
  match goal with
  | |- context [for_range 0 (em_g1_blocks em) ?body ?s0] =>
      assert (H1 : P (for_range 0 (em_g1_blocks em) body s0))
  end.
  { apply for_range_inv; [|exact H].
    intros i [[e o] eo] He. apply error_code_for_block_of_version, He. }
  destruct (for_range 0 (em_g1_blocks em) _ _) as [[em1 o1] eo1].
  match goal with
  | |- context [for_range 0 ?n ?body ?s0] =>
      assert (H2 : P (for_range 0 n body s0))
  end.
  { apply for_range_inv; [|exact H1].
    intros i [[e o] eo] He. apply error_code_for_block_of_version, He. }
  destruct (for_range 0 _ _ _) as [[em2 o2] eo2]. exact H2.
Qed.

Lemma encode_of_version v em segs em' :
  em_of_version v em -> encoded_msg_encode em segs = Some em' -> em_of_version v em'.
Proof.
  intros H. unfold encoded_msg_encode, encoded_msg_add_segments.
  destruct (encoded_msg_add_segments_bits em segs) as [[d off]|]; [|discriminate].
  intros [= <-]. apply compute_error_code_of_version, with_data_of_version, H.
Qed.

End EncodeFacts.

Module EncodedMessageClaims.
Import QrGenerator Spec BufferFacts VersionFacts InterleaveFacts EncodeFacts.

(** ** Padding of the data area *)

Lemma padding_byte i pad :
  rd PADDING (Z.lxor (Z.land i 1) (Z.land pad 1))
  = if Z.even (i - pad) then 236 else 17.
Proof.
  change 1 with (Z.ones 1) at 1 2. rewrite !Z.land_ones by lia.
  change (2 ^ 1) with 2. rewrite !Zmod_even, Z.even_sub.
  destruct (Z.even i), (Z.even pad); reflexivity.
Qed.

Lemma add_padding_spec ver pad d i :
  0 <= pad -> qr_version_max_data ver <= Z.of_nat (Datatypes.length d) ->
  0 <= i ->
  rd (add_padding ver pad d) i =
  if (pad <=? i) && (i <? qr_version_max_data ver)
  then (if Z.even (i - pad) then 236 else 17)
  else rd d i.
Proof.
  intros Hp Hd Hi. unfold add_padding, for_range.
  rewrite (for_loop_store
             (fun i => rd PADDING (Z.lxor (Z.land i 1) (Z.land pad 1)))) by lia.
  rewrite padding_byte.
  destruct (pad <=? i) eqn:E1; [|reflexivity].
  destruct (i <? qr_version_max_data ver) eqn:E2.
  - replace (i <? pad + Z.of_nat (Z.to_nat (qr_version_max_data ver - pad)))
      with true by lia.
    replace (i <? Z.of_nat (Datatypes.length d)) with true by lia. reflexivity.
  - replace (i <? pad + Z.of_nat (Z.to_nat (qr_version_max_data ver - pad)))
      with false by lia.
    reflexivity.
Qed.

(** C8. After [encoded_msg_add_segments], for every version and every
    list of segments accepted by [encoded_msg_init], the bytes from the one
    after the terminator and its zero bits up to index [D v - 1] are the pad
    bytes 0xEC, 0x11 in alternation, 0xEC first; the bytes before them are
    those of the bit stream. *)
Theorem padding_fills_data_area segs v data data_size em :
  Forall segment_ok segs ->
  data_size <= Z.of_nat (Datatypes.length data) ->
  encoded_msg_init segs v data data_size = Some em ->
  exists d off em',
    encoded_msg_add_segments_bits em segs = Some (d, off)
    /\ off mod 8 = 0
    /\ encoded_msg_add_segments em segs = Some em'
    /\ (forall i, off / 8 <= i < D v ->
        rd (em_data em') i = if Z.even (i - off / 8) then 236 else 17)
    /\ (forall i, 0 <= i < off / 8 -> rd (em_data em') i = rd d i).
Proof.
  intros Hsegs Hsize Hinit.
  destruct (encoded_msg_init_some _ _ _ _ _ Hinit) as (Hv & Hem & Hreg & Hdata).
  destruct (add_segments_bits_total em segs Hsegs) as (d & off & Hbits & Hlen & Hoff & Hal).
  layout_facts v Hv. destruct Hem as [Eec Eg1 Eg2 Es1 Es2 Ever].
  assert (Hmax : qr_version_max_data (em_version em) = D v) by (rewrite Ever; exact Lmax).
  assert (Hd : D v <= Z.of_nat (Datatypes.length d)).
  { rewrite Hlen, Hdata, memset0_length. unfold region in Hreg. nia. }
  assert (Hpad : 0 <= off / 8) by (apply Z.div_pos; lia).
  exists d, off, (with_data em (add_padding (em_version em) (off / 8) d)).
  split; [exact Hbits|]. split; [exact Hal|].
  split; [unfold encoded_msg_add_segments; rewrite Hbits; reflexivity|].
  cbn [with_data em_data]. split; intros i Hi.
  - rewrite add_padding_spec by (rewrite ?Hmax; lia). rewrite Hmax.
    replace (off / 8 <=? i) with true by lia.
    replace (i <? D v) with true by lia. reflexivity.
  - rewrite add_padding_spec by (rewrite ?Hmax; lia).
    replace (off / 8 <=? i) with false by lia. reflexivity.
Qed.

Lemma padding_fills_data_area_witness :
  exists d off em',
    encoded_msg_add_segments_bits hello_init hello_segments = Some (d, off)
    /\ off mod 8 = 0
    /\ encoded_msg_add_segments hello_init hello_segments = Some em'
    /\ (forall i, off / 8 <= i < D 1 ->
        rd (em_data em') i = if Z.even (i - off / 8) then 236 else 17)
    /\ (forall i, 0 <= i < off / 8 -> rd (em_data em') i = rd d i).
Proof.
  apply (padding_fills_data_area hello_segments 1 hello_tmp 26 hello_init).
  - repeat constructor; vm_compute; discriminate.
  - vm_compute. discriminate.
  - vm_compute. reflexivity.
Defined.

(** ** Interleaving *)



(** What the code does in phase 2: every one of the [g2] bytes is the last
    byte of the first block of group 2. *)
Lemma interleave_phase2_reads_first_block segs v data data_size em0 em i :
  encoded_msg_init segs v data data_size = Some em0 ->
  encoded_msg_encode em0 segs = Some em ->
  0 <= i < G2 v ->
  fst (encoded_msg_iterator_next
         (mk_encoded_msg_iterator em (S1 v * (G1 v + G2 v) + i)))
  = Some (rd (em_data em) (last_byte_of_g2_block v 0)).
Proof.
  intros Hinit Henc Hi.
  destruct (encoded_msg_init_some _ _ _ _ _ Hinit) as (Hv & Hem0 & _ & _).
  pose proof (encode_of_version v em0 segs em Hem0 Henc) as Hem.
  unfold encoded_msg_iterator_next. cbn [emi_em emi_offset].
  rewrite (iterator_index_phase2 v em Hv Hem i Hi). reflexivity.
Qed.

(** That byte is not the one the canonical order asks for, from the second
    block of group 2 on. *)
Lemma interleave_phase2_misses_block v i :
  1 <= v <= 40 -> 1 <= i < G2 v ->
  last_byte_of_g2_block v 0 <> last_byte_of_g2_block v i.
Proof.
  intros Hv Hi. layout_facts v Hv. unfold last_byte_of_g2_block. nia.
Qed.

(** C1, at version 10 with the bytes 0, 1, 2, ... as payload. Phase 1 ends
    at offset 272; the byte emitted at offset 273 should be the last byte of
    the second block of group 2, at index 273 of the buffer, and is the byte
    at index 204, the last byte of the first block of group 2; the two
    differ. *)
Theorem interleave_phase2_second_block :
  encode ramp_segments 10 (repeat 0 346) 346 = Some ramp_encoded
  /\ S1 10 * (G1 10 + G2 10) + 1 = 273
  /\ last_byte_of_g2_block 10 1 = 273
  /\ encoded_msg_iterator_index ramp_encoded 273 = Some 204
  /\ fst (encoded_msg_iterator_next (mk_encoded_msg_iterator ramp_encoded 273))
     = Some (rd (em_data ramp_encoded) 204)
  /\ rd (em_data ramp_encoded) 204 = 156
  /\ rd (em_data ramp_encoded) 273 = 224.
Proof. repeat split; vm_compute; reflexivity. Qed.

(** ** The 13-bit fetch *)

(** C2, at two inputs. At bit offset 13 of the two bytes [FF FF] the fetch
    reports 3 bits and returns 255, and the second call of the iterator emits
    265 as a group of 7 bits; at bit offset 13 of four bytes [FF] it reports 13 bits and
    returns 65535. *)
Theorem get_next_13b_keeps_high_bits :
  get_next_13b ones2 2 13 = (255, 3)
  /\ 2 ^ 3 <= 255
  /\ (let seg := mk_segment SEGMENT_NUMERIC ones2 2 in
      let iter := snd (qr_segment_iterator_next (qr_segment_iterator_init seg)) in
      fst (qr_segment_iterator_next iter)) = Some (265, 7)
  /\ 2 ^ 7 <= 265
  /\ get_next_13b ones4 4 13 = (65535, 13)
  /\ 9999 < 65535.
Proof. repeat split; vm_compute; reflexivity || discriminate. Qed.

End EncodedMessageClaims.

Module FitterFacts.
Import QrGenerator Spec BufferFacts VersionFacts InterleaveFacts EncodeFacts Qrcon.

Section Fitter.

Variable CCtx : Type.
Variable compress : CCtx -> Z -> list Z -> Z -> Z -> CCtx * list Z * Z.
Variable isError : Z -> bool.

Lemma compress_into_code c dst cap src n level :
  snd (compress_into compress c dst cap src n level)
  = snd (compress c cap src n level).
Proof.
  unfold compress_into.
  destruct (compress c cap src n level) as [[c' out] code]. reflexivity.
Qed.

(** ** The binary search *)

Section Search.

Variable src : list Z.
Variable level target : Z.
Variable src_size : Z.
Hypothesis Hsrc : 0 <= src_size < SIZE_MAX.

Lemma search_unfold fuel st :
  search compress isError (S fuel) src level target st =
  if low st <=? high st then
    let mid := size_t (low st + (high st - low st) / 2) in
    if mid =? 0 then Some st
    else
      let '(c, dst, code) :=
        compress_into compress (s_cctx st) (s_dst st)
          (target - QR_COMPRESSION_HEADER_SIZE) src mid level in
      if isError code then
        search compress isError fuel src level target
          (mk_search (low st) (size_t (mid - 1)) (best_size st)
             (best_compressed_payload st) c dst)
      else if size_t (QR_COMPRESSION_HEADER_SIZE + code) <=? target then
        search compress isError fuel src level target
          (mk_search (size_t (mid + 1)) (high st) mid code c dst)
      else
        search compress isError fuel src level target
          (mk_search (low st) (size_t (mid - 1)) (best_size st)
             (best_compressed_payload st) c dst)
  else Some st.
Proof. reflexivity. Qed.

(** The search ends within [fuel] passes when the interval is shorter than
    [2 ^ fuel], and its candidate is a recorded prefix length. *)
Lemma search_total : forall fuel st,
  1 <= low st -> 0 <= high st <= src_size ->
  high st - low st + 1 < 2 ^ Z.of_nat fuel ->
  0 <= best_size st <= src_size -> recorded isError target st ->
  exists st', search compress isError (S fuel) src level target st = Some st'
              /\ 0 <= best_size st' <= src_size /\ recorded isError target st'.
Proof.
  induction fuel as [|fuel IH]; intros st Hlo Hhi Hr Hb Hrec; rewrite search_unfold.
  - change (2 ^ Z.of_nat 0) with 1 in Hr.
    destruct (low st <=? high st) eqn:E; [lia|].
    exists st. auto.
  - destruct (low st <=? high st) eqn:E; [|exists st; auto].
    rewrite Nat2Z.inj_succ, Z.pow_succ_r in Hr by lia.
    set (mid := low st + (high st - low st) / 2).
    assert (Hmid : low st <= mid <= high st)
      by (unfold mid; Z.div_mod_to_equations; lia).
    cbv zeta. fold mid. rewrite (size_t_small mid) by lia.
    destruct (mid =? 0) eqn:E0; [lia|].
    destruct (compress_into compress _ _ _ _ _ _) as [[c dst] code].
    rewrite (size_t_small (mid - 1)) by lia.
    rewrite (size_t_small (mid + 1)) by lia.
    destruct (isError code) eqn:Eerr.
    + apply IH; cbn [low high best_size best_compressed_payload]; try lia.
      * unfold mid in *. Z.div_mod_to_equations. lia.
      * exact Hrec.
    + destruct (size_t (QR_COMPRESSION_HEADER_SIZE + code) <=? target) eqn:Efit.
      * apply IH; cbn [low high best_size best_compressed_payload]; try lia.
        -- unfold mid in *. Z.div_mod_to_equations. lia.
        -- right. cbn [best_size best_compressed_payload]. split; [exact Eerr|lia].
      * apply IH; cbn [low high best_size best_compressed_payload]; try lia.
        -- unfold mid in *. Z.div_mod_to_equations. lia.
        -- exact Hrec.
Qed.

(** With a deterministic compressor and a monotone fit, the search keeps
    every length below [low] fitting and every length above [high] not
    fitting, with the candidate just below [low]. *)
Variable size_of : Z -> Z.
Hypothesis Hdet : forall c m,
  snd (compress c (target - QR_COMPRESSION_HEADER_SIZE) src m level)
  = size_of m.

Hypothesis Hmono : forall m m',
  1 <= m <= m' -> m' <= src_size ->
  fit_with isError size_of target m' = true ->
  fit_with isError size_of target m = true.

Lemma search_bracket : forall fuel st st',
  bracket isError size_of target src_size st ->
  search compress isError fuel src level target st = Some st' ->
  bracket isError size_of target src_size st' /\ low st' = high st' + 1.
Proof.
  induction fuel as [|fuel IH]; intros st st' Hbr Hs; [discriminate|].
  rewrite search_unfold in Hs. destruct Hbr as [Hlo Hhi Hbest Hbelow Habove Hpay].
  destruct (low st <=? high st) eqn:E.
  2:{ injection Hs as <-. split; [constructor; assumption|lia]. }
  set (mid := low st + (high st - low st) / 2) in *.
  assert (Hmid : low st <= mid <= high st)
    by (unfold mid; Z.div_mod_to_equations; lia).
  cbv zeta in Hs. rewrite (size_t_small mid) in Hs by lia.
  destruct (mid =? 0) eqn:E0; [lia|].
  pose proof (compress_into_code (s_cctx st) (s_dst st)
                (target - QR_COMPRESSION_HEADER_SIZE) src mid level) as Hcode.
  rewrite Hdet in Hcode.
  destruct (compress_into compress _ _ _ _ _ _) as [[c dst] code].
  cbn [snd] in Hcode. subst code.
  rewrite (size_t_small (mid - 1)), (size_t_small (mid + 1)) in Hs by lia.
  assert (Hfit : fit_with isError size_of target mid
                 = negb (isError (size_of mid))
                   && (size_t (QR_COMPRESSION_HEADER_SIZE + size_of mid) <=? target))
    by reflexivity.
  assert (Hleft : fit_with isError size_of target mid = false ->
                  bracket isError size_of target src_size
                    (mk_search (low st) (mid - 1) (best_size st)
                       (best_compressed_payload st) c dst)).
  { intros Hf.
    constructor; cbn [low high best_size best_compressed_payload]; try lia; auto.
    intros m Hm. destruct (fit_with isError size_of target m) eqn:Em; [|reflexivity].
    rewrite (Hmono mid m) in Hf; [discriminate|lia|lia|exact Em]. }
  destruct (isError (size_of mid)) eqn:Eerr.
  - apply (IH _ _ (Hleft Hfit) Hs).
  - destruct (size_t (QR_COMPRESSION_HEADER_SIZE + size_of mid) <=? target) eqn:Efit.
    + refine (IH _ _ _ Hs).
      constructor; cbn [low high best_size best_compressed_payload]; try lia; auto.
      intros m Hm. apply (Hmono m mid); [lia|lia|exact Hfit].
    + apply (IH _ _ (Hleft Hfit) Hs).
Qed.

End Search.

(** ** The fitter *)

Lemma target_capacity_valid ver dst_capacity :
  1 <= ver <= 40 ->
  qr_max_data_size (u8 ver) 0 = D ver - 3 /\ 0 < D ver - 3 <= 3706
  /\ target_capacity_of ver dst_capacity <= D ver - 3
  /\ target_capacity_of ver dst_capacity <= dst_capacity.
Proof.
  intros Hv. layout_facts ver Hv. unfold target_capacity_of.
  rewrite u8_small by lia. rewrite Lcap.
  assert (D ver <= 3706) by (unfold region in Rreg; nia).
  destruct (D ver - 3 >? dst_capacity) eqn:E; lia.
Qed.

(** Past its validation the fitter is its search followed by its final
    pass, and the search ends. *)
Lemma fitter_valid ver level0 c src src_size dst dst_capacity :
  1 <= ver <= 40 -> 0 <= src_size < SIZE_MAX ->
  QR_COMPRESSION_HEADER_SIZE < target_capacity_of ver dst_capacity ->
  exists st,
    search compress isError search_fuel src (level_of level0)
      (target_capacity_of ver dst_capacity) (mk_search 1 src_size 0 0 c dst)
    = Some st
    /\ 0 <= best_size st <= src_size
    /\ recorded isError (target_capacity_of ver dst_capacity) st
    /\ qrcon_compress_data compress isError ver level0 c src src_size dst
         dst_capacity
       = Some (final_pass compress isError (target_capacity_of ver dst_capacity)
                 src (level_of level0) st).
Proof.
  intros Hv Hs Ht.
  destruct (target_capacity_valid ver dst_capacity Hv) as (Hcap & Hd & _).
  destruct (search_total src (level_of level0) (target_capacity_of ver dst_capacity)
              src_size Hs 64 (mk_search 1 src_size 0 0 c dst))
    as (st & Hst & Hb & Hrec); cbn [low high best_size best_compressed_payload];
    try lia.
  { unfold SIZE_MAX in Hs. change (2 ^ Z.of_nat 64) with 18446744073709551616. lia. }
  { left. reflexivity. }
  exists st. split; [exact Hst|]. split; [exact Hb|]. split; [exact Hrec|].
  unfold qrcon_compress_data.
  replace ((ver <? 1) || (ver >? 40)) with false by lia.
  fold (target_capacity_of ver dst_capacity). fold (level_of level0).
  rewrite Hcap. replace (D ver - 3 =? 0) with false by lia.
  replace (target_capacity_of ver dst_capacity <=? QR_COMPRESSION_HEADER_SIZE)
    with false by lia.
  change search_fuel with 65%nat. rewrite Hst. reflexivity.
Qed.

(** Whatever the compressor does, the fitter returns, and a nonzero return
    comes with a consumed length between 1 and [src_size] and is at most the
    target capacity. *)
Lemma fitter_total ver level0 c src src_size dst dst_capacity :
  0 <= src_size < SIZE_MAX ->
  exists r,
    qrcon_compress_data compress isError ver level0 c src src_size dst dst_capacity
    = Some r
    /\ (fit_ret r <> 0 ->
        1 <= fit_processed_size r <= src_size
        /\ 0 <= fit_ret r <= 3706).
Proof.
  intros Hs. unfold qrcon_compress_data.
  destruct ((ver <? 1) || (ver >? 40)) eqn:Ev;
    [eexists; split; [reflexivity|intros H; contradiction H; reflexivity]|].
  assert (Hv : 1 <= ver <= 40) by lia.
  destruct (target_capacity_valid ver dst_capacity Hv) as (Hcap & Hd & Ht1 & Ht2).
  fold (target_capacity_of ver dst_capacity). fold (level_of level0).
  rewrite Hcap. replace (D ver - 3 =? 0) with false by lia.
  destruct (target_capacity_of ver dst_capacity <=? QR_COMPRESSION_HEADER_SIZE) eqn:Et;
    [eexists; split; [reflexivity|intros H; contradiction H; reflexivity]|].
  destruct (fitter_valid ver level0 c src src_size dst dst_capacity Hv Hs ltac:(lia))
    as (st & Hst & Hb & Hrec & _).
  rewrite Hst. eexists. split; [reflexivity|].
  unfold final_pass.
  destruct (best_size st >? 0) eqn:Eb;
    [|intros H; contradiction H; reflexivity].
  destruct (compress_into compress _ _ _ _ _ _) as [[c1 d1] code].
  destruct (isError code) eqn:Ee; [intros H; contradiction H; reflexivity|].
  destruct (negb (code =? best_compressed_payload st)
            && (size_t (QR_COMPRESSION_HEADER_SIZE + code)
                >? target_capacity_of ver dst_capacity)) eqn:Ec;
    [intros H; contradiction H; reflexivity|].
  cbn [fit_ret fit_processed_size]. intros _.
  pose proof (size_t_range (QR_COMPRESSION_HEADER_SIZE + code)) as Hr.
  split; [lia|]. split; [lia|].
  destruct (code =? best_compressed_payload st) eqn:Eq.
  - destruct Hrec as [H0|[_ Hfit]]; [lia|].
    replace code with (best_compressed_payload st) by lia. lia.
  - cbn [negb andb] in Ec. lia.
Qed.

(** A call that fails the validation returns 0 and consumes nothing. *)
Lemma fitter_invalid ver level0 c src src_size dst dst_capacity :
  ~ (1 <= ver <= 40)
  \/ target_capacity_of ver dst_capacity <= QR_COMPRESSION_HEADER_SIZE ->
  qrcon_compress_data compress isError ver level0 c src src_size dst dst_capacity
  = Some (mk_fit 0 0 dst c).
Proof.
  intros H. unfold qrcon_compress_data.
  destruct ((ver <? 1) || (ver >? 40)) eqn:Ev; [reflexivity|].
  destruct (qr_max_data_size (u8 ver) 0 =? 0) eqn:E0; [reflexivity|].
  fold (target_capacity_of ver dst_capacity).
  destruct (target_capacity_of ver dst_capacity <=? QR_COMPRESSION_HEADER_SIZE) eqn:Et;
    [reflexivity|]. lia.
Qed.

Lemma contract_code (Hc : zstd_contract compress isError) c cap src n level :
  let code := snd (compress c cap src n level) in
  0 <= code <= SIZE_MAX
  /\ (isError code = false ->
      size_t (QR_COMPRESSION_HEADER_SIZE + code) = QR_COMPRESSION_HEADER_SIZE + code).
Proof.
  intros code. destruct (Hc c cap src n level) as [Hr Hs]. fold code in Hr, Hs.
  split; [exact Hr|]. intros He. specialize (Hs He).
  apply size_t_small. unfold QR_COMPRESSION_HEADER_SIZE in *. lia.
Qed.

(** Past its validation the fitter returns 0 exactly when the search left
    no candidate, or the final compression fails, or its result with the
    header exceeds the target capacity; a return of 0 comes with
    [*processed_size = 0]; and a final size that fits is accepted and
    returned with the header, whether or not it is the size the search
    recorded. *)
Lemma fitter_zero_iff_no_candidate ver level0 c src src_size dst dst_capacity :
  zstd_contract compress isError ->
  1 <= ver <= 40 -> 0 <= src_size < SIZE_MAX ->
  QR_COMPRESSION_HEADER_SIZE < target_capacity_of ver dst_capacity ->
  exists st r,
    search compress isError search_fuel src (level_of level0)
      (target_capacity_of ver dst_capacity) (mk_search 1 src_size 0 0 c dst)
    = Some st
    /\ qrcon_compress_data compress isError ver level0 c src src_size dst
         dst_capacity = Some r
    /\ let target := target_capacity_of ver dst_capacity in
       let code :=
         snd (compress (s_cctx st)
                (target - QR_COMPRESSION_HEADER_SIZE) src (best_size st)
                (level_of level0)) in
       (fit_ret r = 0 <->
        best_size st = 0 \/ isError code = true
        \/ target < QR_COMPRESSION_HEADER_SIZE + code)
       /\ (fit_ret r = 0 -> fit_processed_size r = 0)
       /\ (0 < best_size st -> isError code = false ->
           QR_COMPRESSION_HEADER_SIZE + code <= target ->
           fit_ret r = QR_COMPRESSION_HEADER_SIZE + code
           /\ fit_processed_size r = best_size st).
Proof.
  intros Hc Hv Hs Ht.
  destruct (fitter_valid ver level0 c src src_size dst dst_capacity Hv Hs Ht)
    as (st & Hst & Hb & Hrec & Hr).
  exists st. eexists. split; [exact Hst|]. split; [exact Hr|].
  cbv zeta. unfold final_pass.
  destruct (best_size st >? 0) eqn:Eb.
  2:{ cbn [fit_ret fit_processed_size]. repeat split; auto; try lia. }
  set (dst1 := memcpy_at 4 _ _).
  pose proof (compress_into_code (s_cctx st) dst1
                (target_capacity_of ver dst_capacity - QR_COMPRESSION_HEADER_SIZE)
                src (best_size st) (level_of level0)) as Hcode.
  destruct (compress_into compress _ _ _ _ _ _) as [[c1 d1] code]. cbn [snd] in Hcode.
  rewrite <- Hcode.
  pose proof (contract_code Hc (s_cctx st)
                (target_capacity_of ver dst_capacity - QR_COMPRESSION_HEADER_SIZE)
                src (best_size st) (level_of level0)) as Hsz.
  cbv zeta in Hsz. destruct Hsz as [Hrange Hsz].
  rewrite <- Hcode in Hrange, Hsz.
  destruct (isError code) eqn:Ee.
  { cbn [fit_ret fit_processed_size]. repeat split; auto; try lia; discriminate. }
  rewrite (Hsz eq_refl).
  assert (Hh : QR_COMPRESSION_HEADER_SIZE = 8) by reflexivity.
  destruct (negb (code =? best_compressed_payload st)
            && (QR_COMPRESSION_HEADER_SIZE + code
                >? target_capacity_of ver dst_capacity)) eqn:Ec.
  { cbn [fit_ret fit_processed_size]. repeat split; auto; try lia. }
  cbn [fit_ret fit_processed_size].
  assert (Hfit : QR_COMPRESSION_HEADER_SIZE + code
                 <= target_capacity_of ver dst_capacity).
  { destruct (code =? best_compressed_payload st) eqn:Eq.
    - destruct Hrec as [H0|[He' Hfit]]; [lia|].
      replace code with (best_compressed_payload st) in * by lia.
      rewrite (Hsz eq_refl) in Hfit. exact Hfit.
    - cbn [negb andb] in Ec. lia. }
  repeat split; auto; lia.
Qed.

(** *** The search against the binary search of the specification *)

(** The test of a probe is the fit predicate, on the return code of the
    compressor in the context of the probe. *)
Lemma fits_spec_fit_test c ver level0 dst_capacity src m :
  fits compress isError c ver level0 dst_capacity src m
  = spec_fit_test isError (target_capacity_of ver dst_capacity)
      (compressed_size compress c ver level0 dst_capacity src m).
Proof. reflexivity. Qed.

Lemma spec_probes_range src level target : forall n c lo hi m s,
  In (m, s) (fst (spec_search_probes compress isError n c src level target lo hi)) ->
  lo <= m <= hi.
Proof.
  induction n as [|n IH]; intros c lo hi m s H; cbn [spec_search_probes] in H.
  - destruct H.
  - destruct (lo <=? hi) eqn:E; [|destruct H].
    assert (Hmid : lo <= lo + (hi - lo) / 2 <= hi) by (Z.div_mod_to_equations; lia).
    cbv zeta in H.
    destruct (compress c (target - QR_COMPRESSION_HEADER_SIZE) src
                (lo + (hi - lo) / 2) level) as [[c' out] code].
    cbn [fst In] in H. destruct H as [H|H].
    + assert (m = lo + (hi - lo) / 2) by congruence. lia.
    + destruct (spec_fit_test isError target code); apply IH in H; lia.
Qed.

(** The candidate of a list of probes is a probe that passed the test,
    unless none did. *)
Lemma spec_candidate_cases target : forall (probes : list (Z * Z)) (best : Z * Z),
  ((forall p, In p probes -> spec_fit_test isError target (snd p) = false)
   /\ fold_left (fun best p => if spec_fit_test isError target (snd p) then p else best)
        probes best = best)
  \/ (In (fold_left
            (fun best p => if spec_fit_test isError target (snd p) then p else best)
            probes best) probes
      /\ spec_fit_test isError target
           (snd (fold_left
                   (fun best p => if spec_fit_test isError target (snd p) then p else best)
                   probes best)) = true).
Proof.
  induction probes as [|p probes IH]; intros best; cbn [fold_left].
  - left. split; [intros p []|reflexivity].
  - destruct (IH (if spec_fit_test isError target (snd p) then p else best))
      as [[Hnone Heq]|[Hin Hfit]].
    + rewrite Heq. destruct (spec_fit_test isError target (snd p)) eqn:Ep.
      * right. split; [left; reflexivity|exact Ep].
      * left. split; [|reflexivity]. intros q [->|Hq]; [exact Ep|apply Hnone, Hq].
    + right. split; [right; exact Hin|exact Hfit].
Qed.

(** The loop of the code makes the probes of the specification: it ends
    with their candidate and in the compression context they leave. *)
Lemma search_follows_spec (Hc : zstd_contract compress isError)
    src level target src_size :
  0 <= src_size < SIZE_MAX ->
  forall fuel n st st',
    1 <= low st -> 0 <= high st <= src_size ->
    high st - low st + 1 <= Z.of_nat n ->
    search compress isError fuel src level target st = Some st' ->
    s_cctx st'
    = snd (spec_search_probes compress isError n (s_cctx st) src level target
             (low st) (high st))
    /\ (best_size st', best_compressed_payload st')
       = fold_left
           (fun best p => if spec_fit_test isError target (snd p) then p else best)
           (fst (spec_search_probes compress isError n (s_cctx st) src level target
                   (low st) (high st)))
           (best_size st, best_compressed_payload st).
Proof.
  intros Hs. induction fuel as [|fuel IH]; intros n st st' Hlo Hhi Hn H;
    [discriminate H|].
  rewrite search_unfold in H.
  destruct (low st <=? high st) eqn:E.
  2:{ assert (st' = st) by congruence. subst st'.
      destruct n as [|n]; cbn [spec_search_probes]; [|rewrite E];
        cbn [fst snd fold_left]; split; reflexivity. }
  destruct n as [|n]; [lia|]. cbn [spec_search_probes]. rewrite E.
  set (mid := low st + (high st - low st) / 2) in *.
  assert (Hmid : low st <= mid <= high st)
    by (unfold mid; Z.div_mod_to_equations; lia).
  cbv zeta in H. rewrite (size_t_small mid) in H by lia.
  destruct (mid =? 0) eqn:E0; [lia|].
  unfold compress_into in H.
  pose proof (contract_code Hc (s_cctx st) (target - QR_COMPRESSION_HEADER_SIZE)
                src mid level) as Hsz.
  cbv zeta in Hsz. destruct Hsz as [_ Hsz].
  cbv zeta.
  destruct (compress (s_cctx st) (target - QR_COMPRESSION_HEADER_SIZE) src mid level)
    as [[c1 out] code].
  cbn [snd] in Hsz.
  rewrite (size_t_small (mid - 1)), (size_t_small (mid + 1)) in H by lia.
  assert (Hfit : spec_fit_test isError target code
                 = negb (isError code)
                   && (QR_COMPRESSION_HEADER_SIZE + code <=? target))
    by reflexivity.
  assert (Hnext : forall st1 : search_state,
            low st <= low st1 -> 0 <= high st1 <= high st ->
            high st1 - low st1 + 1 <= Z.of_nat n ->
            search compress isError fuel src level target st1 = Some st' ->
            s_cctx st'
            = snd (spec_search_probes compress isError n (s_cctx st1) src level target
                     (low st1) (high st1))
            /\ (best_size st', best_compressed_payload st')
               = fold_left
                   (fun best p =>
                      if spec_fit_test isError target (snd p) then p else best)
                   (fst (spec_search_probes compress isError n (s_cctx st1) src level
                           target (low st1) (high st1)))
                   (best_size st1, best_compressed_payload st1)).
  { intros st1 H1 H2 H3 H4. apply (IH n); try lia. exact H4. }
  destruct (isError code) eqn:Ee; cbn [negb andb] in Hfit.
  - rewrite Hfit. cbn [fst snd fold_left]. rewrite Hfit.
    apply Hnext in H; cbn [low high best_size best_compressed_payload s_cctx] in *;
      try lia.
    exact H.
  - rewrite (Hsz eq_refl) in H.
    destruct (QR_COMPRESSION_HEADER_SIZE + code <=? target) eqn:Ef;
      rewrite Hfit; cbn [fst snd fold_left]; rewrite Hfit;
      apply Hnext in H; cbn [low high best_size best_compressed_payload s_cctx] in *;
      try lia; exact H.
Qed.

(** C6. Past its validation the fitter returns 0 exactly when no prefix
    fits during the search (no probe of the binary search of the
    specification compresses without error to a size that fits with the
    header), or the final compression fails, or its result with the header
    exceeds the target capacity.  The loop of the code makes these probes,
    on prefix lengths in [1..src_size], and ends with the last one that
    fits as its candidate.  A return of 0 comes with
    [*processed_size = 0]; and a final size that fits is accepted and
    returned with the header, whether or not it is the size the search
    recorded. *)
Theorem fitter_zero_iff_no_frame ver level0 c src src_size dst dst_capacity :
  zstd_contract compress isError ->
  1 <= ver <= 40 -> 0 <= src_size < SIZE_MAX ->
  QR_COMPRESSION_HEADER_SIZE < target_capacity_of ver dst_capacity ->
  exists st r,
    search compress isError search_fuel src (level_of level0)
      (target_capacity_of ver dst_capacity) (mk_search 1 src_size 0 0 c dst)
    = Some st
    /\ qrcon_compress_data compress isError ver level0 c src src_size dst
         dst_capacity = Some r
    /\ let target := target_capacity_of ver dst_capacity in
       let tried :=
         spec_search_probes compress isError (Z.to_nat src_size) c src
           (level_of level0) target 1 src_size in
       let code :=
         snd (compress (s_cctx st)
                (target - QR_COMPRESSION_HEADER_SIZE) src (best_size st)
                (level_of level0)) in
       (forall m s, In (m, s) (fst tried) -> 1 <= m <= src_size)
       /\ (best_size st, best_compressed_payload st)
          = spec_candidate isError target (fst tried)
       /\ s_cctx st = snd tried
       /\ (best_size st = 0 <->
           forall m s, In (m, s) (fst tried) -> spec_fit_test isError target s = false)
       /\ (fit_ret r = 0 <->
           (forall m s, In (m, s) (fst tried) ->
              spec_fit_test isError target s = false)
           \/ isError code = true
           \/ target < QR_COMPRESSION_HEADER_SIZE + code)
       /\ (fit_ret r = 0 -> fit_processed_size r = 0)
       /\ (0 < best_size st -> isError code = false ->
           QR_COMPRESSION_HEADER_SIZE + code <= target ->
           fit_ret r = QR_COMPRESSION_HEADER_SIZE + code
           /\ fit_processed_size r = best_size st).
Proof.
  intros Hc Hv Hs Ht.
  destruct (fitter_zero_iff_no_candidate ver level0 c src src_size dst dst_capacity
              Hc Hv Hs Ht) as (st & r & Hst & Hr & Hold).
  exists st, r. split; [exact Hst|]. split; [exact Hr|].
  cbv zeta in Hold |- *. destruct Hold as (Hzero & Hproc & Hacc).
  set (target := target_capacity_of ver dst_capacity) in *.
  set (tried := spec_search_probes compress isError (Z.to_nat src_size) c src
                  (level_of level0) target 1 src_size).
  assert (Hrange : forall m s, In (m, s) (fst tried) -> 1 <= m <= src_size)
    by (intros m s H; apply (spec_probes_range _ _ _ _ _ _ _ _ _ H)).
  destruct (search_follows_spec Hc src (level_of level0) target src_size Hs
              search_fuel (Z.to_nat src_size) (mk_search 1 src_size 0 0 c dst) st)
    as [Hctx Hcand]; cbn [low high]; try lia; [exact Hst|].
  cbn [s_cctx low high best_size best_compressed_payload] in Hctx, Hcand.
  fold tried in Hctx, Hcand.
  assert (Hbest : best_size st = 0 <->
                  forall m s, In (m, s) (fst tried) ->
                    spec_fit_test isError target s = false).
  { destruct (spec_candidate_cases target (fst tried) (0, 0)) as [[Hnone Heq]|[Hin Hfit]].
    - rewrite Heq in Hcand. split; [|intros _; congruence].
      intros _ m s H. apply (Hnone (m, s) H).
    - rewrite <- Hcand in Hin, Hfit. cbn [snd] in Hfit.
      pose proof (Hrange _ _ Hin) as Hm. split; [lia|].
      intros Hnone. rewrite (Hnone _ _ Hin) in Hfit. discriminate Hfit. }
  split; [exact Hrange|]. split; [exact Hcand|]. split; [exact Hctx|].
  split; [exact Hbest|]. split; [|split; [exact Hproc|exact Hacc]].
  rewrite Hzero, Hbest. reflexivity.
Qed.

(** C5. With a compressor that is deterministic on the source and a fit
    predicate that is monotone, the search ends and the fitter returns with
    [*processed_size] the largest length in [1..src_size] that fits, and the
    return value is 8 plus the compressed size of that prefix. *)
Theorem fitter_returns_largest_fitting_prefix
    ver level0 c src src_size dst dst_capacity k :
  zstd_contract compress isError ->
  zstd_deterministic compress ver level0 dst_capacity src ->
  1 <= ver <= 40 -> 0 <= src_size < SIZE_MAX ->
  QR_COMPRESSION_HEADER_SIZE < target_capacity_of ver dst_capacity ->
  (forall m m', 1 <= m <= m' -> m' <= src_size ->
     fits compress isError c ver level0 dst_capacity src m' = true ->
     fits compress isError c ver level0 dst_capacity src m = true) ->
  1 <= k <= src_size ->
  fits compress isError c ver level0 dst_capacity src k = true ->
  (forall m, 1 <= m <= src_size ->
     fits compress isError c ver level0 dst_capacity src m = true -> m <= k) ->
  exists r,
    qrcon_compress_data compress isError ver level0 c src src_size dst dst_capacity
    = Some r
    /\ fit_processed_size r = k
    /\ fit_ret r
       = QR_COMPRESSION_HEADER_SIZE
         + compressed_size compress c ver level0 dst_capacity src k.
Proof.
  intros Hc Hdet Hv Hs Ht Hmono Hk Hfk Hmax.
  destruct (fitter_valid ver level0 c src src_size dst dst_capacity Hv Hs Ht)
    as (st & Hst & Hb & Hrec & Hr).
  set (target := target_capacity_of ver dst_capacity) in *.
  set (size_of := compressed_size compress c ver level0 dst_capacity src).
  assert (Hdet' : forall c' m,
            snd (compress c' (target - QR_COMPRESSION_HEADER_SIZE) src m
                   (level_of level0)) = size_of m).
  { intros c' m. apply (Hdet c' c m). }
  assert (Hsame : forall m, fit_with isError size_of target m
                            = fits compress isError c ver level0 dst_capacity src m).
  { intros m. unfold fit_with, fits. fold size_of. fold target.
    destruct (isError (size_of m)) eqn:Ee; [reflexivity|].
    pose proof (contract_code Hc c (target - QR_COMPRESSION_HEADER_SIZE) src m
                  (level_of level0)) as Hsz.
    cbv zeta in Hsz. destruct Hsz as [_ Hsz].
    change (snd (compress c (target - QR_COMPRESSION_HEADER_SIZE) src m
                   (level_of level0))) with (size_of m) in Hsz.
    rewrite (Hsz Ee). reflexivity. }
  assert (Hbr0 : bracket isError size_of target src_size
                   (mk_search 1 src_size 0 0 c dst)).
  { constructor; cbn [low high best_size best_compressed_payload]; intros; lia. }
  destruct (search_bracket src (level_of level0) target src_size Hs size_of Hdet'
              ltac:(intros m m' H1 H2; rewrite !Hsame; apply Hmono; assumption)
              _ _ _ Hbr0 Hst) as [[Hlo Hhi Hbest Hbelow Habove Hpay] Hend].
  assert (Hbk : best_size st = k).
  { assert (H1 : k <= high st).
    { destruct (Z_le_gt_dec k (high st)) as [H|H]; [exact H|].
      rewrite <- Hsame, (Habove k) in Hfk by lia. discriminate. }
    assert (H2 : high st <= k).
    { apply Hmax; [lia|]. rewrite <- Hsame. apply Hbelow. lia. }
    lia. }
  eexists. split; [exact Hr|].
  unfold final_pass. replace (best_size st >? 0) with true by lia.
  set (dst1 := memcpy_at 4 _ _).
  pose proof (compress_into_code (s_cctx st) dst1
                (target - QR_COMPRESSION_HEADER_SIZE)
                src (best_size st) (level_of level0)) as Hcode.
  rewrite Hdet' in Hcode.
  destruct (compress_into compress _ _ _ _ _ _) as [[c1 d1] code]. cbn [snd] in Hcode.
  rewrite Hbk in Hcode. subst code.
  rewrite <- Hsame in Hfk. unfold fit_with in Hfk.
  apply andb_prop in Hfk. destruct Hfk as [He Hfit].
  apply negb_true_iff in He. rewrite He.
  rewrite Hpay, Hbk by lia. rewrite Z.eqb_refl.
  cbn [negb andb fit_ret fit_processed_size].
  split; [reflexivity|].
  pose proof (contract_code Hc c (target - QR_COMPRESSION_HEADER_SIZE) src k
                (level_of level0)) as Hsz.
  cbv zeta in Hsz. destruct Hsz as [_ Hsz].
  apply Hsz. exact He.
Qed.

End Fitter.

(** ** The storing compressor *)

Lemma store_contract : zstd_contract store_compressCCtx store_isError.
Proof.
  intros c cap src n level. unfold store_compressCCtx.
  destruct ((0 <=? n) && (n <=? cap) && (n <=? SIZE_MAX - 120)) eqn:E; cbn [snd].
  - unfold SIZE_MAX, QR_COMPRESSION_HEADER_SIZE in *. lia.
  - unfold store_isError, SIZE_MAX, QR_COMPRESSION_HEADER_SIZE. lia.
Qed.

Lemma store_deterministic ver level0 dst_capacity src :
  zstd_deterministic store_compressCCtx ver level0 dst_capacity src.
Proof.
  intros c c' m. unfold compressed_size, store_compressCCtx.
  destruct (_ && _); reflexivity.
Qed.

Lemma store_fits m :
  fits store_compressCCtx store_isError tt 1 3 32 sample_src m
  = (0 <=? m) && (m <=? 8).
Proof.
  unfold fits, compressed_size, store_compressCCtx.
  change (target_capacity_of 1 32) with 16. change (level_of 3) with 3.
  unfold QR_COMPRESSION_HEADER_SIZE, store_isError, SIZE_MAX.
  destruct ((0 <=? m) && (m <=? 16 - 8)
            && (m <=? 18446744073709551615 - 120)) eqn:E; cbn [snd]; lia.
Qed.

Lemma fitter_zero_iff_no_frame_witness :
  exists st r,
    search store_compressCCtx store_isError search_fuel sample_src
      (level_of 3) (target_capacity_of 1 32)
      (mk_search 1 20 0 0 tt sample_dst) = Some st
    /\ qrcon_compress_data store_compressCCtx store_isError
         1 3 tt sample_src 20 sample_dst 32 = Some r
    /\ let target := target_capacity_of 1 32 in
       let tried :=
         spec_search_probes store_compressCCtx store_isError (Z.to_nat 20) tt
           sample_src (level_of 3) target 1 20 in
       let code :=
         snd (store_compressCCtx (s_cctx st)
                (target - QR_COMPRESSION_HEADER_SIZE) sample_src (best_size st)
                (level_of 3)) in
       (forall m s, In (m, s) (fst tried) -> 1 <= m <= 20)
       /\ (best_size st, best_compressed_payload st)
          = spec_candidate store_isError target (fst tried)
       /\ s_cctx st = snd tried
       /\ (best_size st = 0 <->
           forall m s, In (m, s) (fst tried) ->
             spec_fit_test store_isError target s = false)
       /\ (fit_ret r = 0 <->
           (forall m s, In (m, s) (fst tried) ->
              spec_fit_test store_isError target s = false)
           \/ store_isError code = true
           \/ target < QR_COMPRESSION_HEADER_SIZE + code)
       /\ (fit_ret r = 0 -> fit_processed_size r = 0)
       /\ (0 < best_size st -> store_isError code = false ->
           QR_COMPRESSION_HEADER_SIZE + code <= target ->
           fit_ret r = QR_COMPRESSION_HEADER_SIZE + code
           /\ fit_processed_size r = best_size st).
Proof.
  apply (fitter_zero_iff_no_frame unit store_compressCCtx store_isError
           1 3 tt sample_src 20 sample_dst 32).
  - exact store_contract.
  - lia.
  - unfold SIZE_MAX. lia.
  - vm_compute. reflexivity.
Defined.

Lemma fitter_returns_largest_fitting_prefix_witness :
  exists r,
    qrcon_compress_data store_compressCCtx store_isError
      1 3 tt sample_src 20 sample_dst 32 = Some r
    /\ fit_processed_size r = 8
    /\ fit_ret r
       = QR_COMPRESSION_HEADER_SIZE
         + compressed_size store_compressCCtx tt 1 3 32 sample_src 8.
Proof.
  apply (fitter_returns_largest_fitting_prefix unit store_compressCCtx store_isError
           1 3 tt sample_src 20 sample_dst 32 8).
  - exact store_contract.
  - apply store_deterministic.
  - lia.
  - unfold SIZE_MAX. lia.
  - vm_compute. reflexivity.
  - intros m m' H1 H2. rewrite !store_fits. lia.
  - lia.
  - vm_compute. reflexivity.
  - intros m H1. rewrite store_fits. lia.
Defined.

(** The same call, evaluated: eight bytes are consumed and the frame is
    sixteen bytes long. *)
Example fitter_sample :
  match qrcon_compress_data store_compressCCtx store_isError
          1 3 tt sample_src 20 sample_dst 32 with
  | Some r => (fit_ret r, fit_processed_size r, firstn 17 (fit_dst r))
  | None => (0, 0, [])
  end
  = (16, 8, [68; 84; 83; 90; 8; 0; 0; 0; 65; 65; 65; 65; 65; 65; 65; 65; 0]).
Proof. vm_compute. reflexivity. Qed.

End FitterFacts.

Module PainterFacts.
Import QrGenerator Spec BufferFacts VersionFacts InterleaveFacts EncodeFacts.

(** ** The painter keeps the width of the image *)

Lemma qr_image_set_width qr x y : qr_width (qr_image_set qr x y) = qr_width qr.
Proof. unfold qr_image_set. destruct (_ && _); reflexivity. Qed.

Lemma qr_image_xor_width qr x y : qr_width (qr_image_xor qr x y) = qr_width qr.
Proof. unfold qr_image_xor. destruct (_ && _); reflexivity. Qed.

Ltac width_loop :=
  repeat first
    [ reflexivity
    | assumption
    | rewrite qr_image_set_width
    | rewrite qr_image_xor_width
    | match goal with
      | |- qr_width (for_range _ _ _ ?q) = _ =>
          apply (for_range_inv (fun q' => qr_width q' = _)); [intros ? ? ?|]
      | |- qr_width (if ?c then _ else _) = _ => destruct c
      end ].

Lemma qr_image_draw_square_width qr x y size :
  qr_width (qr_image_draw_square qr x y size) = qr_width qr.
Proof. unfold qr_image_draw_square. width_loop. Qed.

Lemma qr_image_draw_finders_width qr :
  qr_width (qr_image_draw_finders qr) = qr_width qr.
Proof.
  unfold qr_image_draw_finders. width_loop.
  rewrite !qr_image_draw_square_width. reflexivity.
Qed.

Lemma qr_image_draw_alignments_width qr :
  qr_width (qr_image_draw_alignments qr) = qr_width qr.
Proof.
  unfold qr_image_draw_alignments. destruct (_ =? 1); [reflexivity|].
  width_loop. rewrite qr_image_draw_square_width. assumption.
Qed.

Lemma qr_image_draw_timing_patterns_width qr :
  qr_width (qr_image_draw_timing_patterns qr) = qr_width qr.
Proof. unfold qr_image_draw_timing_patterns. width_loop. Qed.

Lemma qr_image_draw_version_info_width qr :
  qr_width (qr_image_draw_version_info qr) = qr_width qr.
Proof. unfold qr_image_draw_version_info. destruct (_ =? 0); width_loop. Qed.

Lemma qr_image_draw_maskinfo_width qr :
  qr_width (qr_image_draw_maskinfo qr) = qr_width qr.
Proof. unfold qr_image_draw_maskinfo. width_loop. Qed.

Lemma qr_image_apply_mask_width qr :
  qr_width (qr_image_apply_mask qr) = qr_width qr.
Proof. unfold qr_image_apply_mask. width_loop. Qed.

(** ** The module walk depends on the width alone and ends *)

Lemma qr_image_next_width qr qr' x y :
  qr_width qr' = qr_width qr -> qr_image_next qr' x y = qr_image_next qr x y.
Proof. intros H. unfold qr_image_next. rewrite H. reflexivity. Qed.

Lemma qr_image_is_last_width qr qr' x y :
  qr_width qr' = qr_width qr -> qr_image_is_last qr' x y = qr_image_is_last qr x y.
Proof. intros H. unfold qr_image_is_last. rewrite H. reflexivity. Qed.

Lemma walk_ok_width qr qr' : qr_width qr' = qr_width qr ->
  forall fuel x y, walk_ok fuel qr' x y = walk_ok fuel qr x y.
Proof.
  intros H. induction fuel as [|fuel IH]; intros x y; [reflexivity|].
  cbn [walk_ok]. rewrite (qr_image_is_last_width qr qr' x y H),
    (qr_image_next_width qr qr' x y H).
  destruct (qr_image_is_last qr x y); [reflexivity|].
  destruct (qr_image_next qr x y) as [x' y']. apply IH.
Qed.

Lemma walk_ok_mono qr : forall f f' x y,
  (f <= f')%nat -> walk_ok f qr x y = true -> walk_ok f' qr x y = true.
Proof.
  induction f as [|f IH]; intros f' x y Hle H; [discriminate|].
  destruct f' as [|f']; [lia|]. cbn [walk_ok] in *.
  destruct (qr_image_is_last qr x y); [reflexivity|].
  destruct (qr_image_next qr x y) as [x' y']. apply (IH f'); [lia|exact H].
Qed.

Lemma walk_ok_step qr f x y :
  walk_ok (S f) qr x y = true -> qr_image_is_last qr x y = false ->
  walk_ok f qr (fst (qr_image_next qr x y)) (snd (qr_image_next qr x y)) = true.
Proof.
  cbn [walk_ok]. intros H Hl. rewrite Hl in H.
  destruct (qr_image_next qr x y) as [x' y']. exact H.
Qed.

Lemma skip_reserved_total qr : forall f F x y,
  walk_ok f qr x y = true -> (f <= F)%nat ->
  exists x' y', skip_reserved F qr x y = Some (x', y')
                /\ walk_ok f qr x' y' = true.
Proof.
  induction f as [|f IH]; intros F x y H Hle; [discriminate|].
  destruct F as [|F]; [lia|]. cbn [skip_reserved].
  destruct (qr_image_is_reserved qr x y && negb (qr_image_is_last qr x y)) eqn:E.
  - assert (Hl : qr_image_is_last qr x y = false).
    { apply andb_prop in E. destruct E as [_ E]. apply negb_true_iff in E. exact E. }
    pose proof (walk_ok_step qr f x y H Hl) as Hs.
    destruct (qr_image_next qr x y) as [x1 y1]. cbn [fst snd] in Hs.
    destruct (IH F x1 y1 Hs ltac:(lia)) as (x' & y' & He & Hw).
    exists x', y'. split; [exact He|]. apply (walk_ok_mono qr f); [lia|exact Hw].
  - exists x, y. split; [reflexivity|exact H].
Qed.

(** The invariant of the walks: the last module is within reach. *)
Lemma next_available_total qr x y :
  walk_ok (walk_fuel qr) qr x y = true -> qr_image_is_last qr x y = false ->
  exists x' y', qr_image_next_available qr x y = Some (x', y')
                /\ walk_ok (walk_fuel qr) qr x' y' = true.
Proof.
  intros H Hl. unfold qr_image_next_available.
  destruct (walk_fuel qr) as [|f] eqn:Ef; [discriminate|].
  pose proof (walk_ok_step qr f x y H Hl) as Hs.
  destruct (qr_image_next qr x y) as [x1 y1]. cbn [fst snd] in Hs.
  destruct (skip_reserved_total qr f (S f) x1 y1 Hs ltac:(lia)) as (x' & y' & He & Hw).
  exists x', y'. split; [exact He|]. apply (walk_ok_mono qr f); [lia|exact Hw].
Qed.

Lemma walk_fuel_width qr qr' : qr_width qr' = qr_width qr -> walk_fuel qr' = walk_fuel qr.
Proof. intros H. unfold walk_fuel. rewrite H. reflexivity. Qed.

Lemma draw_codeword_total : forall nbits qr byte x y,
  walk_ok (walk_fuel qr) qr x y = true ->
  exists qr' x' y', draw_codeword nbits qr byte x y = Some (qr', x', y')
                    /\ qr_width qr' = qr_width qr
                    /\ walk_ok (walk_fuel qr) qr x' y' = true.
Proof.
  induction nbits as [|bit IH]; intros qr byte x y H.
  - exists qr, x, y. repeat split; auto.
  - cbn [draw_codeword].
    set (qr1 := if Z.land byte (Z.shiftl 1 (Z.of_nat bit)) =? 0
                then qr_image_set qr x y else qr).
    assert (Hw : qr_width qr1 = qr_width qr)
      by (unfold qr1; destruct (_ =? 0); [apply qr_image_set_width|reflexivity]).
    assert (H1 : walk_ok (walk_fuel qr1) qr1 x y = true)
      by (rewrite (walk_fuel_width qr qr1 Hw), (walk_ok_width qr qr1 Hw); exact H).
    destruct (qr_image_is_last qr1 x y) eqn:El; cbn [negb].
    + exists qr1, x, y. repeat split; auto.
    + destruct (next_available_total qr1 x y H1 El) as (x1 & y1 & -> & H2).
      destruct (IH qr1 byte x1 y1 H2) as (qr' & x' & y' & He & Hw' & H3).
      exists qr', x', y'. split; [exact He|]. split; [congruence|].
      rewrite <- (walk_fuel_width qr qr1 Hw), <- (walk_ok_width qr qr1 Hw). exact H3.
Qed.

(** The iterator reports exhaustion exactly from the end of the region on. *)
Lemma iterator_next_cases iter :
  (exists b, encoded_msg_iterator_next iter
             = (Some b, mk_encoded_msg_iterator (emi_em iter) (emi_offset iter + 1))
             /\ (iterator_fuel iter > 1)%nat
             /\ iterator_fuel (mk_encoded_msg_iterator (emi_em iter) (emi_offset iter + 1))
                = pred (iterator_fuel iter))
  \/ encoded_msg_iterator_next iter = (None, iter).
Proof.
  unfold encoded_msg_iterator_next, encoded_msg_iterator_index, iterator_fuel.
  cbn [emi_em emi_offset].
  set (e := em_g1_blocks (emi_em iter) * em_g1_blk_size (emi_em iter)
            + em_g2_blocks (emi_em iter) * em_g2_blk_size (emi_em iter)
            + em_ec_size (emi_em iter)
              * (em_g1_blocks (emi_em iter) + em_g2_blocks (emi_em iter))).
  destruct (emi_offset iter >=? e) eqn:E; [right; reflexivity|].
  left.
  repeat match goal with
         | |- context [if ?c then _ else _] => destruct c
         end;
    eexists; (split; [reflexivity|]); lia.
Qed.

Lemma draw_codewords_total : forall fuel qr iter x y,
  walk_ok (walk_fuel qr) qr x y = true -> (iterator_fuel iter <= fuel)%nat ->
  exists qr' iter' x' y',
    draw_codewords fuel qr iter x y = Some (qr', iter', x', y')
    /\ qr_width qr' = qr_width qr
    /\ walk_ok (walk_fuel qr) qr x' y' = true.
Proof.
  induction fuel as [|fuel IH]; intros qr iter x y H Hf.
  - unfold iterator_fuel in Hf. lia.
  - cbn [draw_codewords].
    destruct (iterator_next_cases iter) as [(b & -> & Hgt & Hnext)| ->].
    + destruct (draw_codeword_total 8 qr b x y H) as (qr1 & x1 & y1 & -> & Hw & H1).
      assert (H1' : walk_ok (walk_fuel qr1) qr1 x1 y1 = true)
        by (rewrite (walk_fuel_width qr qr1 Hw), (walk_ok_width qr qr1 Hw); exact H1).
      destruct (IH qr1 _ x1 y1 H1' ltac:(rewrite Hnext; lia))
        as (qr' & iter' & x' & y' & He & Hw' & H2).
      exists qr', iter', x', y'. split; [exact He|]. split; [congruence|].
      rewrite <- (walk_fuel_width qr qr1 Hw), <- (walk_ok_width qr qr1 Hw). exact H2.
    + exists qr, iter, x, y. repeat split; auto.
Qed.

Lemma draw_remaining_total : forall f F qr x y,
  walk_ok f qr x y = true -> (f <= F)%nat ->
  exists qr', draw_remaining F qr x y = Some qr' /\ qr_width qr' = qr_width qr.
Proof.
  induction f as [|f IH]; intros F qr x y H Hle; [discriminate|].
  destruct F as [|F]; [lia|]. cbn [draw_remaining].
  destruct (qr_image_is_last qr x y) eqn:El.
  - exists qr. split; reflexivity.
  - pose proof (walk_ok_step qr f x y H El) as Hs.
    set (qr1 := if qr_image_is_reserved qr x y then qr else qr_image_set qr x y).
    assert (Hw : qr_width qr1 = qr_width qr)
      by (unfold qr1; destruct (qr_image_is_reserved qr x y);
          [reflexivity|apply qr_image_set_width]).
    rewrite (qr_image_next_width qr qr1 x y Hw).
    destruct (qr_image_next qr x y) as [x1 y1]. cbn [fst snd] in Hs.
    rewrite <- (walk_ok_width qr qr1 Hw) in Hs.
    destruct (IH F qr1 x1 y1 Hs ltac:(lia)) as (qr' & He & Hw').
    exists qr'. split; [exact He|congruence].
Qed.

Lemma qr_image_draw_data_total qr iter :
  walk_ok (walk_fuel qr) qr (u8 (qr_width qr - 1)) (u8 (qr_width qr - 1)) = true ->
  exists qr' iter', qr_image_draw_data qr iter = Some (qr', iter')
                    /\ qr_width qr' = qr_width qr.
Proof.
  intros H. unfold qr_image_draw_data.
  destruct (draw_codewords_total (iterator_fuel iter) qr iter _ _ H (le_n _))
    as (qr1 & iter1 & x1 & y1 & -> & Hw & H1).
  rewrite <- (walk_ok_width qr qr1 Hw) in H1.
  destruct (draw_remaining_total (walk_fuel qr) (S (walk_fuel qr1)) qr1 x1 y1 H1
              ltac:(rewrite (walk_fuel_width qr qr1 Hw); lia)) as (qr' & -> & Hw').
  exists qr', iter1. split; [reflexivity|congruence].
Qed.

(** The image of a valid version is painted, whatever the message. *)
Lemma qr_image_draw_total v qr em :
  1 <= v <= 40 -> qr_width qr = 4 * v + 17 ->
  exists qr', qr_image_draw qr em = Some qr' /\ qr_width qr' = 4 * v + 17.
Proof.
  intros Hv Hw. unfold qr_image_draw.
  set (qr0 := qr_image_draw_version_info _).
  assert (Hw0 : qr_width qr0 = 4 * v + 17).
  { unfold qr0. rewrite qr_image_draw_version_info_width,
      qr_image_draw_timing_patterns_width, qr_image_draw_alignments_width,
      qr_image_draw_finders_width. exact Hw. }
  pose proof (walk_checked v Hv) as Hc. unfold check_walk in Hc.
  apply andb_prop in Hc. destruct Hc as [Hc1 Hc2].
  assert (Hwb : qr_width qr0 = qr_width (blank_image v)) by lia.
  destruct (qr_image_draw_data_total qr0 (encoded_msg_iterator_init em))
    as (qr1 & iter1 & -> & Hw1).
  { rewrite (walk_fuel_width _ _ Hwb), (walk_ok_width _ _ Hwb), Hwb. exact Hc2. }
  eexists. split; [reflexivity|].
  rewrite qr_image_apply_mask_width, qr_image_draw_maskinfo_width. congruence.
Qed.

End PainterFacts.

Module GeneratorClaims.
Import QrGenerator Spec BufferFacts VersionFacts InterleaveFacts EncodeFacts PainterFacts.

(** ** [qr_generate] returns *)

Lemma encode_total v em segs :
  em_of_version v em -> Forall segment_ok segs ->
  exists em', encoded_msg_encode em segs = Some em' /\ em_of_version v em'.
Proof.
  intros Hem Hsegs. unfold encoded_msg_encode, encoded_msg_add_segments.
  destruct (add_segments_bits_total em segs Hsegs) as (d & off & -> & _).
  eexists. split; [reflexivity|].
  apply compute_error_code_of_version, with_data_of_version, Hem.
Qed.

Lemma version_width v : 1 <= v <= 40 -> qr_version_width (mk_version v) = 4 * v + 17.
Proof. intros Hv. unfold qr_version_width. cbn [version]. rewrite u8_small; lia. Qed.

Lemma qr_image_init_some em data data_size qr :
  qr_image_init em data data_size = Some qr ->
  qr_width qr = qr_version_width (em_version em).
Proof.
  unfold qr_image_init. destruct (data_size <? _); [discriminate|].
  intros [= <-]. reflexivity.
Qed.

(** Every call with segments of addressable length returns. *)
Lemma qr_generate_segments_total segments data v data_size tmp tmp_size :
  Forall segment_ok segments ->
  match encoded_msg_init segments v tmp tmp_size with
  | None => True
  | Some em =>
      exists em', encoded_msg_encode em segments = Some em' /\
        match qr_image_init em' data data_size with
        | None => True
        | Some qr =>
            exists qr', qr_image_draw qr em' = Some qr' /\ qr_width qr' = 4 * v + 17
        end
  end.
Proof.
  intros Hsegs. destruct (encoded_msg_init segments v tmp tmp_size) as [em|] eqn:Hinit;
    [|exact I].
  destruct (encoded_msg_init_some _ _ _ _ _ Hinit) as (Hv & Hem & _ & _).
  destruct (encode_total v em segments Hem Hsegs) as (em' & Henc & Hem').
  exists em'. split; [exact Henc|].
  destruct (qr_image_init em' data data_size) as [qr|] eqn:Hqr; [|exact I].
  apply qr_image_init_some in Hqr. destruct Hem' as [_ _ _ _ _ Ever].
  rewrite Ever, version_width in Hqr by exact Hv.
  apply (qr_image_draw_total v qr em' Hv Hqr).
Qed.

Lemma qr_generate_total data data_len v data_size tmp tmp_size :
  0 <= data_len -> data_len * 8 <= SIZE_MAX ->
  exists w image tmp',
    qr_generate None data data_len v data_size tmp tmp_size = Some (w, image, tmp').
Proof.
  intros H0 H8. unfold qr_generate.
  destruct ((data_size <? 4071) || (tmp_size <? 3706)); [eauto|].
  destruct ((v <? 1) || (v >? 40)); [eauto|].
  pose proof (qr_generate_segments_total [mk_segment SEGMENT_BINARY data data_len]
                data v data_size tmp tmp_size
                ltac:(repeat constructor; assumption)) as H.
  destruct (encoded_msg_init _ v tmp tmp_size) as [em|]; [|eauto].
  destruct H as (em' & -> & H).
  destruct (qr_image_init em' data data_size) as [qr|]; [|eauto].
  destruct H as (qr' & -> & _). eauto.
Qed.

(** A byte segment within the capacity passes [encoded_msg_init]. *)
Lemma encoded_msg_init_byte_segment data data_len v tmp tmp_size :
  1 <= v <= 40 -> 0 <= data_len <= D v - 3 -> 3706 <= tmp_size ->
  exists em,
    encoded_msg_init [mk_segment SEGMENT_BINARY data data_len] v tmp tmp_size = Some em.
Proof.
  intros Hv Hl Ht. layout_facts v Hv.
  assert (HD : D v <= 3706) by (unfold region in Rreg; nia).
  unfold encoded_msg_init. cbn [Datatypes.length fold_left].
  replace ((Z.of_nat 1 =? 0) || (tmp_size =? 0)) with false by lia.
  replace ((v <? 1) || (v >? 40)) with false by lia.
  rewrite Lmax, Lec, Lg1, Lg2.
  unfold qr_segment_total_size_bits, qr_segment_length_bits_count.
  cbn [seg_type seg_length version].
  match goal with
  | |- context [if ?c >? ?d then _ else _] =>
      replace (c >? d) with false
  end.
  2:{ unfold size_t, SIZE_MAX. destruct (v <=? 9); Z.div_mod_to_equations; lia. }
  match goal with
  | |- context [if tmp_size <? ?r then _ else _] =>
      replace (tmp_size <? r) with false
  end.
  2:{ unfold region, D in *. rewrite size_t_small; unfold SIZE_MAX; nia. }
  eexists. reflexivity.
Qed.

Lemma qr_image_init_fits v em data data_size :
  1 <= v <= 40 -> em_version em = mk_version v -> 4071 <= data_size ->
  exists qr, qr_image_init em data data_size = Some qr.
Proof.
  intros Hv Hver Hd. unfold qr_image_init. rewrite Hver, version_width by exact Hv.
  assert (Hs : 0 <= (4 * v + 17 + 8 - 1) / 8 <= 23)
    by (Z.div_mod_to_equations; lia).
  rewrite u8_small by lia.
  replace (data_size <? (4 * v + 17 + 8 - 1) / 8 * (4 * v + 17)) with false by nia.
  eexists. reflexivity.
Qed.

(** C4. With [url = NULL], buffers of at least 4071 and 3706 bytes, a
    version [v] in 1..40 and at most [qr_max_data_size v 0] bytes of data,
    [qr_generate] returns the width [4 v + 17]; it returns 0 when the
    version is outside 1..40 or one of the buffers is smaller than its
    minimum. *)
Theorem qr_generate_width data data_len v data_size tmp tmp_size :
  (1 <= v <= 40 -> 4071 <= data_size -> 3706 <= tmp_size ->
   0 <= data_len <= qr_max_data_size v 0 ->
   exists image tmp',
     qr_generate None data data_len v data_size tmp tmp_size
     = Some (4 * v + 17, image, tmp'))
  /\ (forall url,
        ~ (1 <= v <= 40) \/ data_size < 4071 \/ tmp_size < 3706 ->
        qr_generate url data data_len v data_size tmp tmp_size
        = Some (0, data, tmp)).
Proof.
  split.
  - intros Hv Hd Ht Hl. layout_facts v Hv. rewrite Lcap in Hl.
    unfold qr_generate.
    replace ((data_size <? 4071) || (tmp_size <? 3706)) with false by lia.
    replace ((v <? 1) || (v >? 40)) with false by lia.
    assert (Hsegs : Forall segment_ok [mk_segment SEGMENT_BINARY data data_len]).
    { repeat constructor; cbn [seg_length]; [lia|].
      unfold SIZE_MAX, region, D in *. nia. }
    pose proof (qr_generate_segments_total _ data v data_size tmp tmp_size Hsegs) as H.
    destruct (encoded_msg_init_byte_segment data data_len v tmp tmp_size Hv Hl Ht)
      as (em & Hinit).
    rewrite Hinit in *. destruct H as (em' & Henc & H). rewrite Henc.
    destruct (encoded_msg_init_some _ _ _ _ _ Hinit) as (_ & Hem & _ & _).
    pose proof (encode_of_version v em _ em' Hem Henc) as [_ _ _ _ _ Ever].
    destruct (qr_image_init_fits v em' data data_size Hv Ever Hd) as (qr & Hqr).
    rewrite Hqr in *. destruct H as (qr' & -> & Hw). rewrite Hw. eauto.
  - intros url H. unfold qr_generate.
    destruct ((data_size <? 4071) || (tmp_size <? 3706)) eqn:E1; [reflexivity|].
    destruct ((v <? 1) || (v >? 40)) eqn:E2; [reflexivity|]. lia.
Qed.

Lemma qr_generate_width_witness :
  (exists image tmp',
     qr_generate None hello_data 6 1 4071 hello_workspace 3706
     = Some (4 * 1 + 17, image, tmp'))
  /\ qr_generate None hello_data 6 41 4071 hello_workspace 3706
     = Some (0, hello_data, hello_workspace).
Proof.
  split.
  - apply (proj1 (qr_generate_width hello_data 6 1 4071 hello_workspace 3706)).
    + lia.
    + lia.
    + lia.
    + change (qr_max_data_size 1 0) with 16. lia.
  - apply (proj2 (qr_generate_width hello_data 6 41 4071 hello_workspace 3706)).
    left. lia.
Defined.

(** The smallest symbol, evaluated: "HELLO\n" at version 1 gives width 21,
    and the first rows of the bitmap. *)
Example qr_generate_hello :
  match qr_generate None hello_data 6 1 4071 hello_workspace 3706 with
  | Some (w, image, _) => (w, firstn 9 image)
  | None => (0, [])
  end
  = (21, [1; 212; 0; 125; 245; 240; 69; 93; 16]).
Proof. vm_compute. reflexivity. Qed.

End GeneratorClaims.

Module DriverClaims.
Import QrGenerator Spec BufferFacts VersionFacts InterleaveFacts EncodeFacts
  PainterFacts GeneratorClaims Qrcon FitterFacts.

Section Driver.

Variable CCtx : Type.
Variable compress : CCtx -> Z -> list Z -> Z -> Z -> CCtx * list Z * Z.
Variable isError : Z -> bool.
Variable FB : Type.
Variable blit : FB -> Z -> list Z -> FB.

(** Rendering returns and leaves the history cursor alone. *)
Lemma qrcon_render_qr_total (g : @qrcon_state CCtx FB) :
  0 <= qr_payload_len g -> qr_payload_len g * 8 <= SIZE_MAX ->
  exists g', qrcon_render_qr blit g = Some g'
             /\ kmsg_history_len g' = kmsg_history_len g
             /\ kmsg_history_pos g' = kmsg_history_pos g.
Proof.
  intros H0 H8. unfold qrcon_render_qr.
  destruct (fb g) as [f|]; [|eauto].
  destruct (qr_payload_len g =? 0); [eauto|].
  destruct (qr_generate_total (qr_payload_and_image_buf g)
              (qr_payload_len g) (u8 (qr_version g))
              QR_PAYLOAD_AND_IMAGE_BUF_SIZE (qr_tmp_workspace g)
              QR_TMP_WORKSPACE_SIZE H0 H8) as (w & image & tmp' & ->).
  destruct (w =? 0); eexists; repeat split; reflexivity.
Qed.

(** A pass of the loop returns and moves the cursor forward, by at least
    one byte and not past the end of the history. *)
Lemma history_step_advances (g : @qrcon_state CCtx FB) :
  0 <= kmsg_history_pos g < kmsg_history_len g ->
  kmsg_history_len g <= KMSG_HISTORY_BUF_SIZE ->
  exists r g',
    history_fit compress isError g = Some r
    /\ history_step compress isError blit g = Some g'
    /\ kmsg_history_len g' = kmsg_history_len g
    /\ kmsg_history_pos g' = kmsg_history_pos g + advance g r
    /\ 1 <= advance g r <= kmsg_history_len g - kmsg_history_pos g
    /\ advance g r
       = if fit_ret r =? 0
         then Z.min QR_SKIP_SIZE (kmsg_history_len g - kmsg_history_pos g)
         else fit_processed_size r.
Proof.
  intros Hp Hl. unfold history_step.
  assert (Hk : KMSG_HISTORY_BUF_SIZE < SIZE_MAX) by reflexivity.
  assert (Hrem : history_remaining g = kmsg_history_len g - kmsg_history_pos g)
    by (unfold history_remaining; apply size_t_small; lia).
  destruct (fitter_total CCtx compress isError
              (qr_version g) (compression_level g) (cctx g)
              (skipn (Z.to_nat (kmsg_history_pos g)) (kmsg_history_buf g))
              (history_remaining g)
              (qr_payload_and_image_buf g) QR_PAYLOAD_AND_IMAGE_BUF_SIZE
              ltac:(lia)) as (r & Hr & Hnz).
  fold (history_fit compress isError g) in Hr. rewrite Hr. exists r.
  assert (Hadv : 1 <= advance g r <= kmsg_history_len g - kmsg_history_pos g
                 /\ advance g r
                    = if fit_ret r =? 0
                      then Z.min QR_SKIP_SIZE (kmsg_history_len g - kmsg_history_pos g)
                      else fit_processed_size r).
  { unfold advance. rewrite Hrem. unfold QR_SKIP_SIZE.
    destruct (fit_ret r =? 0) eqn:E0.
    - destruct (kmsg_history_len g - kmsg_history_pos g <? 1024) eqn:E1; lia.
    - destruct (Hnz ltac:(lia)) as [Hps _]. lia. }
  destruct Hadv as [Hadv Hmin]. cbv zeta.
  destruct (fit_ret r =? 0) eqn:E0.
  - eexists. split; [reflexivity|]. split; [reflexivity|].
    cbn [kmsg_history_len kmsg_history_pos set_history set_fit].
    assert (Hskip : (if history_remaining g <? QR_SKIP_SIZE
                     then history_remaining g else QR_SKIP_SIZE) = advance g r)
      by (unfold advance; rewrite E0; reflexivity).
    rewrite Hskip, size_t_small by lia. auto.
  - destruct (Hnz ltac:(lia)) as [Hps Hret].
    assert (Hproc : fit_processed_size r = advance g r)
      by (unfold advance; rewrite E0; reflexivity).
    destruct (qrcon_render_qr_total
                (set_payload_len (set_fit g (fit_cctx r) (fit_dst r)) (fit_ret r)))
      as (g1 & Hg1 & Hlen & Hpos);
      cbn [qr_payload_len set_payload_len]; [lia|unfold SIZE_MAX; lia|].
    rewrite Hg1. eexists. split; [reflexivity|]. split; [reflexivity|].
    cbn [kmsg_history_len kmsg_history_pos set_history set_fit set_payload_len] in *.
    rewrite Hlen, Hpos, Hproc. rewrite size_t_small by lia. auto.
Qed.

Lemma history_loop_total : forall n (g : @qrcon_state CCtx FB),
  0 <= kmsg_history_pos g <= kmsg_history_len g ->
  kmsg_history_len g <= KMSG_HISTORY_BUF_SIZE ->
  kmsg_history_len g - kmsg_history_pos g <= Z.of_nat n ->
  exists g', history_loop compress isError blit n g = Some g'
             /\ kmsg_history_pos g' = kmsg_history_len g
             /\ kmsg_history_len g' = kmsg_history_len g.
Proof.
  induction n as [|n IH]; intros g Hp Hl Hn.
  - exists g. cbn [history_loop].
    replace (kmsg_history_pos g <? kmsg_history_len g) with false by lia.
    repeat split; lia.
  - cbn [history_loop]. destruct (kmsg_history_pos g <? kmsg_history_len g) eqn:E.
    + destruct (history_step_advances g ltac:(lia) Hl)
        as (r & g1 & _ & -> & Hlen & Hpos & Hadv & _).
      destruct (IH g1 ltac:(lia) ltac:(lia) ltac:(lia)) as (g' & He & Hp' & Hl').
      exists g'. split; [exact He|]. split; congruence.
    + exists g. repeat split; lia.
Qed.

(** C7. From any cursor position the loop of [qrcon_process_history]
    ends within as many passes as the history has bytes, with the cursor at
    the end of the history; each pass moves the cursor forward, by
    [*processed_size >= 1] when the fitter succeeds and by
    [min (1024, remaining) >= 1] when it fails. *)
Theorem history_loop_terminates (g : @qrcon_state CCtx FB) :
  0 <= kmsg_history_pos g <= kmsg_history_len g ->
  kmsg_history_len g <= KMSG_HISTORY_BUF_SIZE ->
  (exists g',
     history_loop compress isError blit (Z.to_nat (kmsg_history_len g)) g = Some g'
     /\ kmsg_history_pos g' = kmsg_history_len g
     /\ kmsg_history_len g' = kmsg_history_len g)
  /\ (kmsg_history_pos g < kmsg_history_len g ->
      exists r g1,
        history_fit compress isError g = Some r
        /\ history_step compress isError blit g = Some g1
        /\ kmsg_history_len g1 = kmsg_history_len g
        /\ kmsg_history_pos g1
           = kmsg_history_pos g
             + (if fit_ret r =? 0
                then Z.min QR_SKIP_SIZE (kmsg_history_len g - kmsg_history_pos g)
                else fit_processed_size r)
        /\ (if fit_ret r =? 0
            then 1 <= Z.min QR_SKIP_SIZE (kmsg_history_len g - kmsg_history_pos g)
            else 1 <= fit_processed_size r)
        /\ kmsg_history_pos g < kmsg_history_pos g1 <= kmsg_history_len g).
Proof.
  intros Hp Hl. split.
  - apply history_loop_total; lia.
  - intros Hlt.
    destruct (history_step_advances g ltac:(lia) Hl)
      as (r & g1 & Hr & Hs & Hlen & Hpos & Hadv & Hmin).
    exists r, g1. rewrite Hmin in Hpos, Hadv.
    repeat split; try assumption; try lia.
    destruct (fit_ret r =? 0); lia.
Qed.

(** The whole of [qrcon_process_history] returns. *)
Lemma qrcon_process_history_total (g : @qrcon_state CCtx FB) :
  0 <= kmsg_history_len g <= KMSG_HISTORY_BUF_SIZE ->
  exists g', qrcon_process_history compress isError blit g = Some g'.
Proof.
  intros Hl. unfold qrcon_process_history.
  destruct (kmsg_history_len g =? 0); [eauto|].
  destruct (_ || _); [eauto|].
  destruct (qr_max_data_size _ 0 =? 0); [eauto|].
  match goal with
  | |- context [set_history g (kmsg_history_len g) ?p] =>
      assert (Hp : 0 <= p <= kmsg_history_len g)
  end.
  { unfold QRCON_RECENT_ONLY_SIZE, KMSG_HISTORY_BUF_SIZE in *.
    destruct (_ && _) eqn:E; [|lia].
    rewrite size_t_small by (unfold SIZE_MAX; lia).
    destruct (_ >=? _); lia. }
  match goal with
  | |- context [history_loop compress isError blit ?n ?g0] =>
      destruct (history_loop_total n g0) as (g' & -> & _)
  end; cbn [kmsg_history_len kmsg_history_pos set_history]; try lia.
  eauto.
Qed.

End Driver.

Lemma history_loop_terminates_witness :
  (exists g',
     history_loop store_compressCCtx store_isError count_blit
       (Z.to_nat (kmsg_history_len sample_state)) sample_state = Some g'
     /\ kmsg_history_pos g' = 20
     /\ kmsg_history_len g' = 20)
  /\ exists g1,
       history_step store_compressCCtx store_isError count_blit sample_state = Some g1
       /\ 0 < kmsg_history_pos g1 <= 20.
Proof.
  destruct (history_loop_terminates unit store_compressCCtx store_isError
              (list Z) count_blit sample_state) as [H1 H2].
  - cbn. lia.
  - vm_compute. discriminate.
  - split; [exact H1|].
    destruct H2 as (r & g1 & _ & Hs & _ & _ & _ & Hp); [cbn; lia|].
    exists g1. split; [exact Hs|exact Hp].
Defined.

(** The sample history, evaluated: three symbols of width 21 are drawn and
    the cursor ends at 20, after steps of eight, eight and four bytes. *)
Example history_loop_sample :
  match history_loop store_compressCCtx store_isError count_blit 3 sample_state with
  | Some g => (kmsg_history_pos g, fb g)
  | None => (0, None)
  end
  = (20, Some [21; 21; 21]).
Proof. vm_compute. reflexivity. Qed.

End DriverClaims.

(** ** Modules of the image, as the renderer reads them *)

Module PixelFacts.
Import QrGenerator QrconScreen Reader Spec BufferFacts VersionFacts InterleaveFacts
  PainterFacts.

Lemma land_pow2 b k :
  0 <= k -> Z.land b (2 ^ k) = if Z.testbit b k then 2 ^ k else 0.
Proof.
  intros Hk. apply Z.bits_inj'. intros n Hn.
  rewrite Z.land_spec, Z.pow2_bits_eqb by lia.
  destruct (Z.eqb_spec k n) as [->|Hne].
  - destruct (Z.testbit b n); [|rewrite Z.bits_0; reflexivity].
    rewrite Z.pow2_bits_eqb by lia. rewrite Z.eqb_refl. reflexivity.
  - rewrite andb_false_r. destruct (Z.testbit b k); [|rewrite Z.bits_0; reflexivity].
    rewrite Z.pow2_bits_eqb by lia. symmetry. apply Z.eqb_neq. exact Hne.
Qed.

Lemma mask_pow2 r : 0 <= r < 8 -> u8 (Z.shiftr 128 r) = 2 ^ (7 - r).
Proof.
  intros Hr.
  assert (H : r = 0 \/ r = 1 \/ r = 2 \/ r = 3 \/ r = 4 \/ r = 5 \/ r = 6 \/ r = 7)
    by lia.
  destruct H as [->|[->|[->|[->|[->|[->|[->| ->]]]]]]]; reflexivity.
Qed.

(** The renderer's test is the test of one bit of the byte. *)
Lemma module_set_testbit image w x y :
  0 <= x ->
  module_set image w x y
  = Z.testbit (rd image (y * ((w + 7) / 8) + x / 8)) (7 - x mod 8).
Proof.
  intros Hx. unfold module_set.
  pose proof (Z.mod_pos_bound x 8 ltac:(lia)) as Hr.
  rewrite mask_pow2 by lia. rewrite land_pow2 by lia.
  destruct (Z.testbit _ _).
  - assert (0 < 2 ^ (7 - x mod 8)) by (apply Z.pow_pos_nonneg; lia).
    replace (2 ^ (7 - x mod 8) =? 0) with false by lia. reflexivity.
  - reflexivity.
Qed.

(** Two modules of the image share a byte and a bit only if they are the
    same module. *)
Lemma module_index_inj w x y x' y' :
  0 <= x < w -> 0 <= y -> 0 <= x' < w -> 0 <= y' ->
  y * ((w + 7) / 8) + x / 8 = y' * ((w + 7) / 8) + x' / 8 ->
  x mod 8 = x' mod 8 -> x = x' /\ y = y'.
Proof.
  intros Hx Hy Hx' Hy' Hi Hm.
  assert (Hs : x / 8 < (w + 7) / 8 /\ x' / 8 < (w + 7) / 8 /\ 0 <= x / 8 /\ 0 <= x' / 8)
    by (repeat split; Z.div_mod_to_equations; lia).
  assert (Hyy : y = y') by nia.
  subst y'. assert (x / 8 = x' / 8) by lia.
  split; [|reflexivity].
  rewrite (Z.div_mod x 8), (Z.div_mod x' 8) by lia. lia.
Qed.

Lemma module_index_bound w x y :
  0 < w -> 0 <= x < w -> 0 <= y < w ->
  0 <= y * ((w + 7) / 8) + x / 8 < (w + 7) / 8 * w.
Proof.
  intros Hw Hx Hy.
  assert (Hs : 0 <= x / 8 < (w + 7) / 8) by (Z.div_mod_to_equations; lia).
  nia.
Qed.

Section Pixel.

Variable qr : qr_image.
Hypothesis Hok : image_ok qr.

(** The module written by [qr_image_set] and [qr_image_xor], among the
    modules of the image. *)
Lemma pixel_update (op : Z -> Z -> Z) (f : bool -> bool) x y x' y' :
  (forall b k n, 0 <= k -> 0 <= n ->
     Z.testbit (op b (2 ^ k)) n = if n =? k then f (Z.testbit b n) else Z.testbit b n) ->
  0 <= x < qr_width qr -> 0 <= y < qr_width qr ->
  0 <= x' < qr_width qr -> 0 <= y' < qr_width qr ->
  let offset := y * qr_stride qr + x / 8 in
  module_set
    (wr (qr_data qr) offset (op (rd (qr_data qr) offset) (u8 (Z.shiftr 128 (x mod 8)))))
    (qr_width qr) x' y'
  = if (x' =? x) && (y' =? y) then f (module_set (qr_data qr) (qr_width qr) x' y')
    else module_set (qr_data qr) (qr_width qr) x' y'.
Proof.
  intros Hop Hx Hy Hx' Hy' offset.
  destruct Hok as (Hw & Hstride & Hlen). set (w := qr_width qr) in *.
  pose proof (Z.mod_pos_bound x 8 ltac:(lia)) as Hr.
  pose proof (Z.mod_pos_bound x' 8 ltac:(lia)) as Hr'.
  pose proof (module_index_bound w x y ltac:(lia) Hx Hy) as Hb.
  pose proof (module_index_bound w x' y' ltac:(lia) Hx' Hy') as Hb'.
  rewrite !module_set_testbit by lia. rewrite mask_pow2 by lia.
  unfold offset. rewrite Hstride.
  destruct (Z.eq_dec (y * ((w + 7) / 8) + x / 8) (y' * ((w + 7) / 8) + x' / 8))
    as [Heq|Hne].
  - rewrite <- Heq. rewrite rd_wr_same by lia. rewrite Hop by lia.
    destruct (Z.eq_dec (x mod 8) (x' mod 8)) as [Hm|Hm].
    + destruct (module_index_inj w x y x' y' Hx ltac:(lia) Hx' ltac:(lia) Heq Hm)
        as [-> ->].
      rewrite !Z.eqb_refl. reflexivity.
    + replace (7 - x' mod 8 =? 7 - x mod 8) with false by lia.
      destruct ((x' =? x) && (y' =? y)) eqn:E; [|reflexivity].
      apply andb_prop in E. destruct E as [E _]. apply Z.eqb_eq in E. congruence.
  - rewrite rd_wr_other by lia.
    destruct ((x' =? x) && (y' =? y)) eqn:E; [|reflexivity].
    apply andb_prop in E. destruct E as [E1 E2].
    apply Z.eqb_eq in E1. apply Z.eqb_eq in E2. subst. congruence.
Qed.

Lemma lor_pow2_bit b k n :
  0 <= k -> 0 <= n ->
  Z.testbit (Z.lor b (2 ^ k)) n
  = if n =? k then (fun _ => true) (Z.testbit b n) else Z.testbit b n.
Proof.
  intros Hk Hn. rewrite Z.lor_spec, Z.pow2_bits_eqb by lia.
  rewrite (Z.eqb_sym k n). destruct (n =? k).
  - apply orb_true_r.
  - apply orb_false_r.
Qed.

Lemma lxor_pow2_bit b k n :
  0 <= k -> 0 <= n ->
  Z.testbit (Z.lxor b (2 ^ k)) n = if n =? k then negb (Z.testbit b n) else Z.testbit b n.
Proof.
  intros Hk Hn. rewrite Z.lxor_spec, Z.pow2_bits_eqb by lia.
  rewrite (Z.eqb_sym k n). destruct (n =? k).
  - apply xorb_true_r.
  - apply xorb_false_r.
Qed.

Lemma qr_image_set_ok x y : image_ok (qr_image_set qr x y).
Proof.
  destruct Hok as (Hw & Hs & Hl). unfold qr_image_set.
  destruct (_ && _); [|exact Hok].
  unfold image_ok, with_image. cbn [qr_width qr_stride qr_data].
  rewrite wr_length. auto.
Qed.

Lemma qr_image_xor_ok x y : image_ok (qr_image_xor qr x y).
Proof.
  destruct Hok as (Hw & Hs & Hl). unfold qr_image_xor.
  destruct (_ && _); [|exact Hok].
  unfold image_ok, with_image. cbn [qr_width qr_stride qr_data].
  rewrite wr_length. auto.
Qed.

Lemma set_module x y x' y' :
  0 <= x < qr_width qr -> 0 <= y < qr_width qr ->
  0 <= x' < qr_width qr -> 0 <= y' < qr_width qr ->
  module_set (qr_data (qr_image_set qr x y)) (qr_width qr) x' y'
  = ((x' =? x) && (y' =? y)) || module_set (qr_data qr) (qr_width qr) x' y'.
Proof.
  intros Hx Hy Hx' Hy'. destruct Hok as (Hw & _).
  unfold qr_image_set. rewrite !u8_small by lia.
  replace ((x <? qr_width qr) && (y <? qr_width qr)) with true by lia.
  cbn [with_image qr_data].
  rewrite (pixel_update Z.lor (fun _ => true)); auto using lor_pow2_bit.
Qed.

Lemma xor_module x y x' y' :
  0 <= x < qr_width qr -> 0 <= y < qr_width qr ->
  0 <= x' < qr_width qr -> 0 <= y' < qr_width qr ->
  module_set (qr_data (qr_image_xor qr x y)) (qr_width qr) x' y'
  = xorb ((x' =? x) && (y' =? y)) (module_set (qr_data qr) (qr_width qr) x' y').
Proof.
  intros Hx Hy Hx' Hy'. destruct Hok as (Hw & _).
  unfold qr_image_xor. rewrite !u8_small by lia.
  replace ((x <? qr_width qr) && (y <? qr_width qr)) with true by lia.
  cbn [with_image qr_data].
  rewrite (pixel_update Z.lxor negb); auto using lxor_pow2_bit.
Qed.

End Pixel.

(** An invariant that follows the index of a [for] loop. *)
Lemma for_loop_index_inv {T : Type} (P : Z -> T -> Prop) (body : Z -> T -> T) :
  forall n lo s,
    (forall i s, lo <= i < lo + Z.of_nat n -> P i s -> P (i + 1) (body i s)) ->
    P lo s -> P (lo + Z.of_nat n) (for_loop n lo body s).
Proof.
  induction n as [|n IH]; intros lo s Hb Hs.
  - replace (lo + Z.of_nat 0) with lo by lia. exact Hs.
  - cbn [for_loop]. replace (lo + Z.of_nat (S n)) with (lo + 1 + Z.of_nat n) by lia.
    apply IH.
    + intros i s' Hi. apply Hb. lia.
    + apply Hb; [lia|exact Hs].
Qed.

Lemma for_range_index_inv {T : Type} (P : Z -> T -> Prop) (body : Z -> T -> T) lo hi s :
  lo <= hi ->
  (forall i s, lo <= i < hi -> P i s -> P (i + 1) (body i s)) ->
  P lo s -> P hi (for_range lo hi body s).
Proof.
  intros Hle Hb Hs. unfold for_range.
  replace hi with (lo + Z.of_nat (Z.to_nat (hi - lo))) at 1 by lia.
  apply for_loop_index_inv; [|exact Hs].
  intros i s' Hi. apply Hb. lia.
Qed.

(** The reserved modules depend on the geometry of the image only. *)
Lemma qr_image_is_reserved_ext qr qr' x y :
  qr_width qr' = qr_width qr -> qr_ver qr' = qr_ver qr ->
  qr_image_is_reserved qr' x y = qr_image_is_reserved qr x y.
Proof.
  intros Hw Hv.
  unfold qr_image_is_reserved, qr_image_is_alignment, alignment_positions,
    qr_image_is_finder, qr_image_is_maskinfo, qr_image_is_version_info.
  rewrite Hw, Hv. reflexivity.
Qed.

Lemma qr_image_xor_ver qr x y : qr_ver (qr_image_xor qr x y) = qr_ver qr.
Proof. unfold qr_image_xor. destruct (_ && _); reflexivity. Qed.

Lemma qr_image_set_ver qr x y : qr_ver (qr_image_set qr x y) = qr_ver qr.
Proof. unfold qr_image_set. destruct (_ && _); reflexivity. Qed.

Section Mask.

Variable qr : qr_image.
Hypothesis Hok : image_ok qr.

Lemma mask_column x qr' :
  0 <= x < qr_width qr ->
  masked qr (fun x' _ => x' <? x) qr' ->
  masked qr (fun x' _ => x' <? x + 1)
    (for_range 0 (qr_width qr)
       (fun y qr =>
          if (Z.lxor x y mod 2 =? 0) && negb (qr_image_is_reserved qr x y)
          then qr_image_xor qr x y else qr)
       qr').
Proof.
  intros Hx H0. set (w := qr_width qr) in *.
  assert (Hw : 0 < w < 256) by (destruct Hok as (Hw & _); exact Hw).
  set (P := fun k qr' =>
              masked qr (fun x' y' => (x' <? x) || ((x' =? x) && (y' <? k))) qr').
  assert (HP : P w
                 (for_range 0 w
                    (fun y qr =>
                       if (Z.lxor x y mod 2 =? 0) && negb (qr_image_is_reserved qr x y)
                       then qr_image_xor qr x y else qr)
                    qr')).
  { apply for_range_index_inv; [lia| |].
    - intros y q Hy [(Hq & Hqw & Hqv) Hq']. unfold P, masked, same_geometry.
      fold w in Hqw, Hq' |- *.
      rewrite (qr_image_is_reserved_ext qr q) by assumption.
      fold (mask_inverts qr x y).
      destruct (mask_inverts qr x y) eqn:Et.
      + split.
        * split; [apply qr_image_xor_ok, Hq|].
          rewrite qr_image_xor_width, qr_image_xor_ver. auto.
        * intros x' y' Hx' Hy'.
          pose proof (xor_module q Hq x y x' y') as Hm. rewrite Hqw in Hm.
          rewrite Hm by lia. rewrite Hq' by lia.
          destruct (Z.eq_dec x' x) as [->|Hnx].
          -- destruct (Z.eq_dec y' y) as [->|Hny].
             ++ rewrite Et, !Z.eqb_refl.
                replace (x <? x) with false by lia.
                replace (y <? y) with false by lia.
                replace (y <? y + 1) with true by lia.
                destruct (module_set (qr_data qr) w x y); reflexivity.
             ++ replace (y' =? y) with false by lia.
                replace (y' <? y + 1) with (y' <? y) by lia.
                rewrite andb_false_r. reflexivity.
          -- replace (x' =? x) with false by lia. reflexivity.
      + split; [auto|].
        intros x' y' Hx' Hy'. rewrite Hq' by lia.
        destruct (Z.eq_dec x' x) as [->|Hnx].
        * destruct (Z.eq_dec y' y) as [->|Hny].
          -- rewrite Et. reflexivity.
          -- replace (y' <? y + 1) with (y' <? y) by lia. reflexivity.
        * replace (x' =? x) with false by lia. reflexivity.
    - destruct H0 as [Hs Hm]. split; [exact Hs|].
      intros x' y' Hx' Hy'. rewrite Hm by lia.
      replace (y' <? 0) with false by lia. rewrite andb_false_r, orb_false_r.
      reflexivity. }
  destruct HP as [Hs Hm]. split; [exact Hs|].
  intros x' y' Hx' Hy'. rewrite Hm by lia.
  replace (y' <? w) with true by lia. rewrite andb_true_r.
  replace ((x' <? x) || (x' =? x)) with (x' <? x + 1) by lia. reflexivity.
Qed.

Lemma apply_mask_masked : masked qr (fun _ _ => true) (qr_image_apply_mask qr).
Proof.
  assert (Hw : 0 < qr_width qr < 256) by (destruct Hok as (Hw & _); exact Hw).
  unfold qr_image_apply_mask.
  set (P := fun x qr' => masked qr (fun x' _ => x' <? x) qr').
  match goal with
  | |- masked _ _ (for_range 0 ?w ?body qr) =>
      assert (HP : P w (for_range 0 w body qr))
  end.
  { apply for_range_index_inv; [lia| |].
    - intros x q Hx Hq. unfold P in *.
      assert (Hqw : qr_width q = qr_width qr)
        by (destruct Hq as [(_ & Hqw & _) _]; exact Hqw).
      rewrite Hqw. apply mask_column; assumption.
    - split; [split; auto|].
      intros x' y' Hx' Hy'. replace (x' <? 0) with false by lia.
      rewrite andb_false_r. reflexivity. }
  destruct HP as [Hs Hm]. split; [exact Hs|].
  intros x' y' Hx' Hy'. rewrite Hm by lia.
  replace (x' <? qr_width qr) with true by lia. reflexivity.
Qed.

End Mask.

Lemma sample_image_ok : image_ok sample_image.
Proof. unfold image_ok. cbn. lia. Qed.

(** X3. The renderer reads what the generator writes: after
    [qr_image_set qr x y] the module test of [qrcon_render_qr] holds at
    [(x, y)] and is unchanged at every other module of the image, and
    [qr_image_xor qr x y] inverts the test at [(x, y)] and nowhere else. *)
Theorem renderer_reads_generator_modules qr x y x' y' :
  image_ok qr ->
  0 <= x < qr_width qr -> 0 <= y < qr_width qr ->
  0 <= x' < qr_width qr -> 0 <= y' < qr_width qr ->
  module_set (qr_data (qr_image_set qr x y)) (qr_width qr) x' y'
  = ((x' =? x) && (y' =? y)) || module_set (qr_data qr) (qr_width qr) x' y'
  /\ module_set (qr_data (qr_image_xor qr x y)) (qr_width qr) x' y'
     = xorb ((x' =? x) && (y' =? y)) (module_set (qr_data qr) (qr_width qr) x' y').
Proof.
  intros Hok Hx Hy Hx' Hy'. split.
  - apply set_module; assumption.
  - apply xor_module; assumption.
Qed.

Lemma renderer_reads_generator_modules_witness :
  module_set (qr_data (qr_image_set sample_image 9 20)) (qr_width sample_image) 9 20
  = ((9 =? 9) && (20 =? 20)) || module_set (qr_data sample_image) (qr_width sample_image) 9 20
  /\ module_set (qr_data (qr_image_xor sample_image 9 20)) (qr_width sample_image) 9 20
     = xorb ((9 =? 9) && (20 =? 20))
         (module_set (qr_data sample_image) (qr_width sample_image) 9 20).
Proof.
  apply (renderer_reads_generator_modules sample_image 9 20 9 20);
    [unfold image_ok; cbn; lia|cbn; lia|cbn; lia|cbn; lia|cbn; lia].
Defined.

(** X4. [qr_image_apply_mask] inverts exactly the modules that are not
    reserved and have [(x ^ y) % 2 == 0]; every reserved module, and every
    module with odd [x ^ y], reads as before.  The geometry of the image is
    unchanged. *)
Theorem qr_image_apply_mask_modules qr x y :
  image_ok qr -> 0 <= x < qr_width qr -> 0 <= y < qr_width qr ->
  same_geometry qr (qr_image_apply_mask qr)
  /\ module_set (qr_data (qr_image_apply_mask qr)) (qr_width qr) x y
     = xorb ((Z.lxor x y mod 2 =? 0) && negb (qr_image_is_reserved qr x y))
         (module_set (qr_data qr) (qr_width qr) x y).
Proof.
  intros Hok Hx Hy. destruct (apply_mask_masked qr Hok) as [Hg Hm].
  split; [exact Hg|]. rewrite Hm by assumption.
  unfold mask_inverts. rewrite andb_true_r. reflexivity.
Qed.

Lemma qr_image_apply_mask_modules_witness :
  same_geometry sample_image (qr_image_apply_mask sample_image)
  /\ module_set (qr_data (qr_image_apply_mask sample_image)) (qr_width sample_image) 10 12
     = xorb ((Z.lxor 10 12 mod 2 =? 0) && negb (qr_image_is_reserved sample_image 10 12))
         (module_set (qr_data sample_image) (qr_width sample_image) 10 12).
Proof.
  apply (qr_image_apply_mask_modules sample_image 10 12);
    [unfold image_ok; cbn; lia|cbn; lia|cbn; lia].
Defined.

End PixelFacts.

(** ** The module walk *)

Module WalkFacts.
Import QrGenerator QrconScreen Reader Spec BufferFacts VersionFacts InterleaveFacts
  PainterFacts PixelFacts.

Lemma walk_width qr qr' : qr_width qr' = qr_width qr ->
  forall fuel x y, walk fuel qr' x y = walk fuel qr x y.
Proof.
  intros H. induction fuel as [|fuel IH]; intros x y; [reflexivity|].
  cbn [walk]. rewrite (qr_image_is_last_width qr qr' x y H),
    (qr_image_next_width qr qr' x y H).
  destruct (qr_image_is_last qr x y); [reflexivity|].
  destruct (qr_image_next qr x y) as [x' y']. rewrite IH. reflexivity.
Qed.

Lemma data_walk_width qr qr' :
  qr_width qr' = qr_width qr -> data_walk qr' = data_walk qr.
Proof.
  intros H. unfold data_walk. rewrite (walk_fuel_width qr qr' H), H.
  apply walk_width, H.
Qed.

Lemma data_modules_ext qr qr' :
  qr_width qr' = qr_width qr -> qr_ver qr' = qr_ver qr ->
  data_modules qr' = data_modules qr.
Proof.
  intros Hw Hv. unfold data_modules. rewrite (data_walk_width qr qr' Hw).
  apply filter_ext. intros p. rewrite (qr_image_is_reserved_ext qr qr'); auto.
Qed.

(** Fuel beyond the last module changes nothing. *)
Lemma walk_fuel_irrelevant qr : forall f f' x y,
  walk_ok f qr x y = true -> (f <= f')%nat -> walk f' qr x y = walk f qr x y.
Proof.
  induction f as [|f IH]; intros f' x y H Hle; [discriminate|].
  destruct f' as [|f']; [lia|]. cbn [walk walk_ok] in *.
  destruct (qr_image_is_last qr x y); [reflexivity|].
  destruct (qr_image_next qr x y) as [x' y']. rewrite (IH f'); auto. lia.
Qed.

(** A module of the walk is at least as close to the last module as the
    start of the walk. *)
Lemma walk_In_closer qr : forall f x y a b,
  walk_ok f qr x y = true -> In (a, b) (walk f qr x y) ->
  walk_ok f qr a b = true
  /\ (Datatypes.length (walk f qr a b) <= Datatypes.length (walk f qr x y))%nat.
Proof.
  induction f as [|f IH]; intros x y a b H Hin; [discriminate|].
  pose proof H as H0. cbn [walk walk_ok] in H, Hin. destruct Hin as [[= <- <-]|Hin].
  - split; [exact H0|lia].
  - destruct (qr_image_is_last qr x y) eqn:El; [destruct Hin|].
    destruct (qr_image_next qr x y) as [x' y'] eqn:En.
    destruct (IH x' y' a b H Hin) as [Hab Hlen].
    split; [apply (walk_ok_mono qr f); [lia|exact Hab]|].
    rewrite (walk_fuel_irrelevant qr f (S f) a b Hab) by lia.
    cbn [walk]. rewrite El, En. cbn [Datatypes.length]. lia.
Qed.

(** A walk that reaches the last module visits no module twice. *)
Lemma walk_NoDup qr : forall f x y,
  walk_ok f qr x y = true -> NoDup (walk f qr x y).
Proof.
  induction f as [|f IH]; intros x y H; [discriminate|].
  pose proof H as H0. cbn [walk walk_ok] in *.
  destruct (qr_image_is_last qr x y) eqn:El.
  - constructor; [intros []|constructor].
  - destruct (qr_image_next qr x y) as [x' y'] eqn:En. constructor.
    + intros Hin. destruct (walk_In_closer qr f x' y' x y H Hin) as [Hxy Hlen].
      pose proof (walk_fuel_irrelevant qr f (S f) x y Hxy ltac:(lia)) as Hirr.
      cbn [walk] in Hirr. rewrite El, En in Hirr.
      rewrite <- Hirr in Hlen. cbn [Datatypes.length] in Hlen. lia.
    + apply IH, H.
Qed.

(** The last module of the walk is the last module of the symbol. *)
Lemma walk_last qr : forall f x y,
  walk_ok f qr x y = true ->
  exists l a b, walk f qr x y = l ++ [(a, b)] /\ qr_image_is_last qr a b = true
                /\ Forall (fun p => qr_image_is_last qr (fst p) (snd p) = false) l.
Proof.
  induction f as [|f IH]; intros x y H; [discriminate|].
  cbn [walk walk_ok] in *. destruct (qr_image_is_last qr x y) eqn:El.
  - exists [], x, y. repeat split; auto.
  - destruct (qr_image_next qr x y) as [x' y'].
    destruct (IH x' y' H) as (l & a & b & -> & Hl & Hall).
    exists ((x, y) :: l), a, b. repeat split; auto.
Qed.

Lemma walk_modules_checked : forall v, 1 <= v <= 40 -> check_walk_modules v = true.
Proof. apply versions_forall. vm_compute. reflexivity. Qed.

Lemma existsb_ext_in {A : Type} (f g : A -> bool) l :
  (forall a, In a l -> f a = g a) -> existsb f l = existsb g l.
Proof.
  induction l as [|a l IH]; intros H; cbn [existsb]; [reflexivity|].
  rewrite (H a), IH; auto using in_eq, in_cons.
Qed.

Lemma existsb_andb_l {A : Type} (c : bool) (f : A -> bool) l :
  existsb (fun a => c && f a) l = c && existsb f l.
Proof.
  induction l as [|a l IH]; cbn [existsb].
  - rewrite andb_false_r. reflexivity.
  - rewrite IH. destruct c; reflexivity.
Qed.

Lemma alignment_by_column_eq qr x y :
  alignment_by_column (until_zero (alignment_positions qr)) (u8 (qr_width qr - 8)) x y
  = qr_image_is_alignment qr x y.
Proof.
  unfold alignment_by_column, qr_image_is_alignment.
  apply existsb_ext_in. intros ax _.
  transitivity
    (existsb
       (fun ay =>
          ((x >=? ax - 2) && (x <=? ax + 2))
          && (if (y >=? ay - 2) && (y <=? ay + 2)
              then negb (qr_image_is_finder qr ax ay) else false))
       (until_zero (alignment_positions qr))).
  - rewrite existsb_andb_l. destruct ((x >=? ax - 2) && (x <=? ax + 2)); reflexivity.
  - apply existsb_ext_in. intros ay _.
    destruct (qr_image_is_finder qr ax ay), (x >=? ax - 2), (x <=? ax + 2),
      (y >=? ay - 2), (y <=? ay + 2); reflexivity.
Qed.

Lemma reserved_by_eq qr x y :
  reserved_by (until_zero (alignment_positions qr)) (u8 (qr_width qr - 8))
    (u8 (qr_width qr - 11)) (qr_version_info (qr_ver qr)) x y
  = qr_image_is_reserved qr x y.
Proof.
  unfold reserved_by, qr_image_is_reserved.
  rewrite alignment_by_column_eq.
  change (finder_by (u8 (qr_width qr - 8)) x y) with (qr_image_is_finder qr x y).
  change (maskinfo_by (u8 (qr_width qr - 8)) x y) with (qr_image_is_maskinfo qr x y).
  change (version_info_by (qr_version_info (qr_ver qr)) (u8 (qr_width qr - 11)) x y)
    with (qr_image_is_version_info qr x y).
  destruct (qr_image_is_alignment qr x y), (qr_image_is_finder qr x y),
    (qr_image_is_timing x y), (qr_image_is_maskinfo qr x y),
    (qr_image_is_version_info qr x y); reflexivity.
Qed.

Lemma scan_spec (inside free : Z * Z -> bool) : forall cells ok n k,
  fold_left
    (fun (acc : bool * Z * Z) (c : Z * Z) =>
       let '(ok, n, k) := acc in
       (if inside c then ok else false, n + 1, if free c then k + 1 else k))
    cells (ok, n, k)
  = (ok && forallb inside cells,
     n + Z.of_nat (Datatypes.length cells),
     k + Z.of_nat (Datatypes.length (filter free cells))).
Proof.
  induction cells as [|c cells IH]; intros ok n k.
  - cbn. rewrite andb_true_r, !Z.add_0_r. reflexivity.
  - cbn [fold_left forallb filter Datatypes.length]. rewrite IH.
    destruct (inside c), (free c), ok; cbn [andb Datatypes.length];
      (apply (f_equal2 pair); [apply (f_equal2 pair)|]; [reflexivity|lia|lia]).
Qed.

(** The per-version check, unpacked. *)
Lemma walk_modules_facts v :
  1 <= v <= 40 ->
  let qr := blank_image v in
  forallb
    (fun p =>
       (0 <=? fst p) && (fst p <? qr_width qr) && (0 <=? snd p) && (snd p <? qr_width qr)
       && (negb (fst p =? 6) || (snd p =? 0)))
    (data_walk qr) = true
  /\ Z.of_nat (Datatypes.length (data_walk qr)) = qr_width qr * (qr_width qr - 1) + 1
  /\ 8 * region v <= Z.of_nat (Datatypes.length (data_modules qr)) < 8 * region v + 8.
Proof.
  intros Hv qr. pose proof (walk_modules_checked v Hv) as H.
  unfold check_walk_modules, scan in H. fold qr in H. rewrite scan_spec in H.
  cbn [andb] in H. rewrite !Z.add_0_l in H.
  rewrite (filter_ext _ (fun p => negb (qr_image_is_reserved qr (fst p) (snd p)))) in H
    by (intros p; rewrite reserved_by_eq; reflexivity).
  fold (data_modules qr) in H.
  repeat match goal with
         | H : _ && _ = true |- _ => apply andb_prop in H; destruct H
         end.
  split; [assumption|]. lia.
Qed.

(** Every version has a module for each bit of its encoded message, and
    fewer than eight modules more. *)
Lemma data_modules_count v :
  1 <= v <= 40 ->
  8 * region v <= Z.of_nat (Datatypes.length (data_modules (blank_image v)))
               < 8 * region v + 8.
Proof. intros Hv. apply (walk_modules_facts v Hv). Qed.

End WalkFacts.

(** ** Coverage of the walk *)

Module WalkCoverage.
Import QrGenerator QrconScreen Reader Spec BufferFacts VersionFacts InterleaveFacts
  PainterFacts GeneratorClaims PixelFacts WalkFacts.

Lemma blank_image_width v : 1 <= v <= 40 -> qr_width (blank_image v) = 4 * v + 17.
Proof. intros Hv. unfold blank_image. cbn [qr_width]. apply version_width, Hv. Qed.

Lemma data_walk_ok v qr :
  1 <= v <= 40 -> qr_width qr = 4 * v + 17 ->
  walk_ok (walk_fuel qr) qr (u8 (qr_width qr - 1)) (u8 (qr_width qr - 1)) = true.
Proof.
  intros Hv Hw. pose proof (walk_checked v Hv) as H. unfold check_walk in H.
  apply andb_prop in H. destruct H as [_ H].
  assert (Hb : qr_width qr = qr_width (blank_image v))
    by (rewrite blank_image_width by exact Hv; exact Hw).
  rewrite (walk_ok_width (blank_image v) qr Hb). unfold walk_fuel. rewrite Hb. exact H.
Qed.

Lemma data_walk_cells v qr x y :
  1 <= v <= 40 -> qr_width qr = 4 * v + 17 -> In (x, y) (data_walk qr) ->
  0 <= x < 4 * v + 17 /\ 0 <= y < 4 * v + 17 /\ (x <> 6 \/ y = 0).
Proof.
  intros Hv Hw Hin.
  assert (Hb : qr_width qr = qr_width (blank_image v))
    by (rewrite blank_image_width by exact Hv; exact Hw).
  rewrite (data_walk_width (blank_image v) qr Hb) in Hin.
  destruct (walk_modules_facts v Hv) as (H & _).
  rewrite forallb_forall in H. specialize (H (x, y) Hin). cbn [fst snd] in H.
  rewrite blank_image_width in H by exact Hv. lia.
Qed.

Lemma data_walk_length v qr :
  1 <= v <= 40 -> qr_width qr = 4 * v + 17 ->
  Z.of_nat (Datatypes.length (data_walk qr)) = (4 * v + 17) * (4 * v + 16) + 1.
Proof.
  intros Hv Hw.
  assert (Hb : qr_width qr = qr_width (blank_image v))
    by (rewrite blank_image_width by exact Hv; exact Hw).
  rewrite (data_walk_width (blank_image v) qr Hb).
  destruct (walk_modules_facts v Hv) as (_ & H & _).
  rewrite blank_image_width in H by exact Hv. lia.
Qed.

(** X5. For every version, the walk of [qr_image_next] from the bottom
    right module visits every module outside the timing column exactly
    once, enters the timing column at [(6, 0)] only, and ends at the bottom
    left module. *)
Theorem data_walk_visits_every_module v qr :
  1 <= v <= 40 -> qr_width qr = 4 * v + 17 ->
  NoDup (data_walk qr)
  /\ (forall x y,
        In (x, y) (data_walk qr)
        <-> 0 <= x < 4 * v + 17 /\ 0 <= y < 4 * v + 17 /\ (x <> 6 \/ y = 0))
  /\ exists l, data_walk qr = l ++ [(0, 4 * v + 16)].
Proof.
  intros Hv Hw. pose proof (data_walk_ok v qr Hv Hw) as Hok.
  assert (Hnd : NoDup (data_walk qr)) by (apply walk_NoDup, Hok).
  split; [exact Hnd|]. split.
  - intros x y. split; [apply data_walk_cells; assumption|].
    intros (Hx & Hy & Hc).
    set (n := Z.to_nat (4 * v + 17)).
    set (xs := map Z.of_nat (seq 0 6 ++ seq 7 (n - 7))).
    set (ys := map Z.of_nat (seq 0 n)).
    assert (Hincl : incl ((6, 0) :: list_prod xs ys) (data_walk qr)).
    { apply NoDup_length_incl; [exact Hnd| |].
      - pose proof (data_walk_length v qr Hv Hw) as Hlen.
        cbn [Datatypes.length]. rewrite length_prod. unfold xs, ys.
        rewrite !length_map, length_app, !length_seq. unfold n. nia.
      - intros [a b] Hin.
        destruct (data_walk_cells v qr a b Hv Hw Hin) as (Ha & Hb & Hab).
        destruct (Z.eq_dec a 6) as [->|Hne].
        + left. f_equal. lia.
        + right. apply in_prod.
          * unfold xs. apply in_map_iff. exists (Z.to_nat a). split; [lia|].
            apply in_or_app. rewrite !in_seq. unfold n. lia.
          * unfold ys. apply in_map_iff. exists (Z.to_nat b). split; [lia|].
            rewrite in_seq. unfold n. lia. }
    apply Hincl. destruct (Z.eq_dec x 6) as [->|Hne].
    + left. f_equal. lia.
    + right. apply in_prod.
      * unfold xs. apply in_map_iff. exists (Z.to_nat x). split; [lia|].
        apply in_or_app. rewrite !in_seq. unfold n. lia.
      * unfold ys. apply in_map_iff. exists (Z.to_nat y). split; [lia|].
        rewrite in_seq. unfold n. lia.
  - destruct (walk_last qr _ _ _ Hok) as (l & a & b & Hl & Hlast & _).
    exists l. unfold data_walk. rewrite Hl. unfold qr_image_is_last in Hlast.
    rewrite Hw in Hlast. do 3 f_equal; lia.
Qed.

Lemma data_walk_visits_every_module_witness :
  NoDup (data_walk (blank_image 1))
  /\ (forall x y,
        In (x, y) (data_walk (blank_image 1))
        <-> 0 <= x < 4 * 1 + 17 /\ 0 <= y < 4 * 1 + 17 /\ (x <> 6 \/ y = 0))
  /\ exists l, data_walk (blank_image 1) = l ++ [(0, 4 * 1 + 16)].
Proof.
  apply (data_walk_visits_every_module 1 (blank_image 1)); [lia|reflexivity].
Defined.

(** X6. For every version, the modules of the walk that are not
    reserved are enough for the bits of the encoded message (data and error
    correction codewords), with fewer than eight modules to spare. *)
Theorem data_modules_hold_encoded_message v qr :
  1 <= v <= 40 -> qr_width qr = 4 * v + 17 -> qr_ver qr = mk_version v ->
  8 * region v <= Z.of_nat (Datatypes.length (data_modules qr)) < 8 * region v + 8.
Proof.
  intros Hv Hw Hver.
  rewrite (data_modules_ext (blank_image v) qr).
  - apply data_modules_count, Hv.
  - rewrite blank_image_width by exact Hv. exact Hw.
  - exact Hver.
Qed.

Lemma data_modules_hold_encoded_message_witness :
  8 * region 1 <= Z.of_nat (Datatypes.length (data_modules (blank_image 1)))
               < 8 * region 1 + 8.
Proof.
  apply (data_modules_hold_encoded_message 1 (blank_image 1));
    [lia|reflexivity|reflexivity].
Defined.

End WalkCoverage.

(** ** Placement of the encoded message *)

Module DrawDataFacts.
Import QrGenerator QrconScreen Reader Spec BufferFacts VersionFacts InterleaveFacts
  PainterFacts GeneratorClaims PixelFacts WalkFacts WalkCoverage.

Lemma start_checked : forall v, 1 <= v <= 40 -> check_start v = true.
Proof. apply versions_forall. vm_compute. reflexivity. Qed.

(** *** Painted images *)

Lemma painted_refl qr : image_ok qr -> painted qr qr [].
Proof.
  intros Hok. split; [split; auto|]. intros x y _ _. split; [auto|].
  intros [H|[]]. exact H.
Qed.

Lemma painted_set qr q cells x y :
  painted qr q cells -> 0 <= x < qr_width qr -> 0 <= y < qr_width qr ->
  painted qr (qr_image_set q x y) (cells ++ [(x, y)]).
Proof.
  intros [(Hq & Hqw & Hqv) Hm] Hx Hy. split.
  - split; [apply qr_image_set_ok, Hq|].
    rewrite qr_image_set_width, qr_image_set_ver. auto.
  - intros a b Ha Hb.
    pose proof (set_module q Hq x y a b) as Hs. rewrite Hqw in Hs.
    rewrite Hs by lia. rewrite orb_true_iff, Hm by lia.
    rewrite in_app_iff. cbn [In].
    split.
    + intros [H|H]; [|tauto].
      apply andb_prop in H. destruct H as [H1 H2].
      apply Z.eqb_eq in H1. apply Z.eqb_eq in H2. subst. tauto.
    + intros [H|[H|[H|[]]]]; [tauto|tauto|].
      injection H as <- <-. left. rewrite !Z.eqb_refl. reflexivity.
Qed.

Lemma painted_ext qr q cells cells' :
  painted qr q cells -> (forall p, In p cells <-> In p cells') -> painted qr q cells'.
Proof.
  intros [Hg Hm] He. split; [exact Hg|].
  intros x y Hx Hy. rewrite Hm by lia. rewrite He. reflexivity.
Qed.

(** *** Lists of modules and bits *)

Lemma codeword_bits_S byte bit :
  codeword_bits byte (S bit)
  = negb (Z.land byte (Z.shiftl 1 (Z.of_nat bit)) =? 0) :: codeword_bits byte bit.
Proof.
  unfold codeword_bits. rewrite seq_S, rev_app_distr. reflexivity.
Qed.

Lemma codeword_bits_length byte n : Datatypes.length (codeword_bits byte n) = n.
Proof. unfold codeword_bits. rewrite length_map, length_rev, length_seq. reflexivity. Qed.

Lemma light_cells_cons c cells b bits :
  light_cells (c :: cells) (b :: bits)
  = (if b then [] else [c]) ++ light_cells cells bits.
Proof. unfold light_cells. cbn. destruct b; reflexivity. Qed.

Lemma light_cells_app cells cells' bits bits' :
  Datatypes.length cells = Datatypes.length bits ->
  light_cells (cells ++ cells') (bits ++ bits')
  = light_cells cells bits ++ light_cells cells' bits'.
Proof.
  revert bits. induction cells as [|c cells IH]; intros [|b bits] Hl;
    try discriminate; [reflexivity|].
  cbn [app]. rewrite !light_cells_cons, IH by (cbn in Hl; lia).
  apply app_assoc.
Qed.

Lemma firstn_split_more {A : Type} (l l1 l2 : list A) n m :
  l = firstn n l ++ l1 -> (n <= Datatypes.length l)%nat ->
  l1 = firstn m l1 ++ l2 ->
  firstn (n + m) l = firstn n l ++ firstn m l1 /\ l = firstn (n + m) l ++ l2.
Proof.
  intros H Hn H1.
  assert (Hla : Datatypes.length (firstn n l) = n) by (rewrite length_firstn; lia).
  remember (firstn n l) as a eqn:Ea. clear Ea.
  assert (Hf : firstn (n + m) l = a ++ firstn m l1).
  { rewrite H. rewrite <- Hla at 1. apply firstn_app_2. }
  split; [exact Hf|].
  rewrite Hf, <- app_assoc, <- H1. exact H.
Qed.

Lemma skipn_of_split {A : Type} (l l1 : list A) n :
  l = firstn n l ++ l1 -> (n <= Datatypes.length l)%nat -> skipn n l = l1.
Proof.
  intros H Hn. pose proof (firstn_skipn n l) as Hs.
  rewrite H in Hs at 3. apply app_inv_head in Hs. exact Hs.
Qed.

(** *** The walk, one step at a time *)

Lemma walk_unfold_step qr f x y :
  walk_ok f qr x y = true -> qr_image_is_last qr x y = false ->
  walk f qr x y
  = (x, y) :: walk f qr (fst (qr_image_next qr x y)) (snd (qr_image_next qr x y))
  /\ walk_ok f qr (fst (qr_image_next qr x y)) (snd (qr_image_next qr x y)) = true.
Proof.
  intros H Hl. destruct f as [|f]; [discriminate|].
  pose proof (walk_ok_step qr f x y H Hl) as Hs.
  destruct (qr_image_next qr x y) as [x' y'] eqn:En. cbn [fst snd] in *.
  assert (Hu : walk (S f) qr x y = (x, y) :: walk f qr x' y')
    by (cbn [walk]; rewrite Hl, En; reflexivity).
  split.
  - rewrite Hu. f_equal. symmetry. apply walk_fuel_irrelevant; [exact Hs|lia].
  - apply (walk_ok_mono qr f); [lia|exact Hs].
Qed.

Lemma walk_last_only qr f x y :
  walk_ok f qr x y = true -> qr_image_is_last qr x y = true ->
  walk f qr x y = [(x, y)].
Proof.
  intros H Hl. destruct f as [|f]; [discriminate|]. cbn [walk]. rewrite Hl. reflexivity.
Qed.

Lemma skip_reserved_free qr : forall f F x y,
  walk_ok f qr x y = true -> (f <= F)%nat ->
  exists x' y',
    skip_reserved F qr x y = Some (x', y')
    /\ walk_ok f qr x' y' = true
    /\ (qr_image_is_reserved qr x' y' = false \/ qr_image_is_last qr x' y' = true)
    /\ filter (fun p => negb (qr_image_is_reserved qr (fst p) (snd p))) (walk f qr x y)
       = filter (fun p => negb (qr_image_is_reserved qr (fst p) (snd p)))
           (walk f qr x' y')
    /\ incl (walk f qr x' y') (walk f qr x y).
Proof.
  induction f as [|f IH]; intros F x y H Hle; [discriminate|].
  destruct F as [|F]; [lia|]. cbn [skip_reserved].
  destruct (qr_image_is_reserved qr x y && negb (qr_image_is_last qr x y)) eqn:E.
  - apply andb_prop in E. destruct E as [Er El]. apply negb_true_iff in El.
    pose proof (walk_ok_step qr f x y H El) as Hs.
    destruct (walk_unfold_step qr (S f) x y H El) as [Hu _].
    destruct (qr_image_next qr x y) as [x1 y1]. cbn [fst snd] in *.
    destruct (IH F x1 y1 Hs ltac:(lia)) as (x' & y' & He & Hw' & Hstop & Hf & Hi).
    exists x', y'. split; [exact He|].
    split; [apply (walk_ok_mono qr f); [lia|exact Hw']|].
    split; [exact Hstop|].
    rewrite Hu.
    rewrite (walk_fuel_irrelevant qr f (S f) x1 y1 Hs) by lia.
    rewrite (walk_fuel_irrelevant qr f (S f) x' y' Hw') by lia.
    split.
    + cbn [filter fst snd]. rewrite Er. cbn [negb]. exact Hf.
    + intros p Hp. right. apply Hi, Hp.
  - exists x, y. split; [reflexivity|]. split; [exact H|].
    split; [|split; [reflexivity|apply incl_refl]].
    apply andb_false_iff in E. destruct E as [E|E]; [left; exact E|].
    right. apply negb_false_iff in E. exact E.
Qed.

Lemma skip_reserved_ext qr qr' :
  qr_width qr' = qr_width qr -> qr_ver qr' = qr_ver qr ->
  forall F x y, skip_reserved F qr' x y = skip_reserved F qr x y.
Proof.
  intros Hw Hv. induction F as [|F IH]; intros x y; [reflexivity|].
  cbn [skip_reserved].
  rewrite (qr_image_is_reserved_ext qr qr' x y Hw Hv),
    (qr_image_is_last_width qr qr' x y Hw), (qr_image_next_width qr qr' x y Hw).
  destruct (_ && _); [|reflexivity].
  destruct (qr_image_next qr x y) as [x' y']. apply IH.
Qed.

Lemma next_available_ext qr qr' x y :
  qr_width qr' = qr_width qr -> qr_ver qr' = qr_ver qr ->
  qr_image_next_available qr' x y = qr_image_next_available qr x y.
Proof.
  intros Hw Hv. unfold qr_image_next_available.
  rewrite (qr_image_next_width qr qr' x y Hw), (walk_fuel_width qr qr' Hw).
  destruct (qr_image_next qr x y) as [x' y']. apply skip_reserved_ext; assumption.
Qed.

Section Placement.

Variable v : Z.
Variable qr0 : qr_image.
Hypothesis Hv : 1 <= v <= 40.
Hypothesis Hok : image_ok qr0.
Hypothesis Hw : qr_width qr0 = 4 * v + 17.
Hypothesis Hver : qr_ver qr0 = mk_version v.

Lemma last_reserved x y :
  qr_image_is_last qr0 x y = true -> qr_image_is_reserved qr0 x y = true.
Proof.
  unfold qr_image_is_last. rewrite Hw. intros H.
  assert (Hf : qr_image_is_finder qr0 x y = true).
  { unfold qr_image_is_finder. rewrite Hw. rewrite u8_small by lia.
    replace ((x <? 8) && (y >=? 4 * v + 17 - 8)) with true by lia.
    rewrite orb_true_r. reflexivity. }
  unfold qr_image_is_reserved. rewrite Hf.
  destruct (qr_image_is_alignment qr0 x y); reflexivity.
Qed.

(** From a module free for data, the step of [qr_image_draw_data] leads to
    the next such module, or to the last module. *)
Lemma next_available_free x y :
  on_walk qr0 x y -> qr_image_is_reserved qr0 x y = false ->
  exists x' y',
    qr_image_next_available qr0 x y = Some (x', y')
    /\ on_walk qr0 x' y'
    /\ free_from qr0 x y = (x, y) :: free_from qr0 x' y'.
Proof.
  intros (Hwalk & Hin & _) Hr.
  assert (Hl : qr_image_is_last qr0 x y = false).
  { destruct (qr_image_is_last qr0 x y) eqn:El; [|reflexivity].
    rewrite (last_reserved x y El) in Hr. discriminate. }
  destruct (walk_unfold_step qr0 _ x y Hwalk Hl) as [Hu Hn].
  unfold qr_image_next_available, free_from. rewrite Hu.
  destruct (qr_image_next qr0 x y) as [x1 y1]. cbn [fst snd] in *.
  destruct (skip_reserved_free qr0 _ (walk_fuel qr0) x1 y1 Hn (le_n _))
    as (x' & y' & He & Hw' & Hstop & Hf & Hi).
  exists x', y'. split; [exact He|]. split.
  - split; [exact Hw'|]. split; [|exact Hstop].
    intros a b Hab. apply Hin. rewrite Hu. right. apply Hi, Hab.
  - cbn [filter fst snd]. rewrite Hr. cbn [negb]. f_equal. exact Hf.
Qed.

Lemma free_from_last x y :
  on_walk qr0 x y -> qr_image_is_last qr0 x y = true -> free_from qr0 x y = [].
Proof.
  intros (Hwalk & _) Hl. unfold free_from.
  rewrite (walk_last_only qr0 _ x y Hwalk Hl). cbn [filter fst snd].
  rewrite (last_reserved x y Hl). reflexivity.
Qed.

(** One codeword: its bits go to the next free modules, in order. *)
Lemma draw_codeword_paints : forall nbits q byte x y cells,
  painted qr0 q cells -> on_walk qr0 x y ->
  (nbits <= Datatypes.length (free_from qr0 x y))%nat ->
  exists q' x' y',
    draw_codeword nbits q byte x y = Some (q', x', y')
    /\ on_walk qr0 x' y'
    /\ free_from qr0 x y = firstn nbits (free_from qr0 x y) ++ free_from qr0 x' y'
    /\ painted qr0 q'
         (cells ++ light_cells (firstn nbits (free_from qr0 x y))
                     (codeword_bits byte nbits)).
Proof.
  induction nbits as [|bit IH]; intros q byte x y cells Hp Hon Hlen.
  - exists q, x, y. split; [reflexivity|]. split; [exact Hon|].
    split; [reflexivity|]. cbn [firstn]. unfold light_cells. cbn.
    rewrite app_nil_r. exact Hp.
  - assert (Hr : qr_image_is_reserved qr0 x y = false).
    { pose proof Hon as (_ & _ & [Hr|Hl]); [exact Hr|].
      rewrite (free_from_last x y Hon Hl) in Hlen. cbn in Hlen. lia. }
    assert (Hl : qr_image_is_last qr0 x y = false).
    { destruct (qr_image_is_last qr0 x y) eqn:El; [|reflexivity].
      rewrite (last_reserved x y El) in Hr. discriminate. }
    destruct (next_available_free x y Hon Hr) as (x1 & y1 & Hna & Hon1 & Hfree).
    assert (Hxy : 0 <= x < qr_width qr0 /\ 0 <= y < qr_width qr0).
    { pose proof Hon as (Hwalk & Hin & _). apply Hin.
      destruct (walk_unfold_step qr0 _ x y Hwalk Hl) as [-> _]. left. reflexivity. }
    cbn [draw_codeword]. rewrite codeword_bits_S.
    set (b := Z.land byte (Z.shiftl 1 (Z.of_nat bit)) =? 0).
    set (q1 := if b then qr_image_set q x y else q).
    assert (Hp1 : painted qr0 q1 (cells ++ (if negb b then [] else [(x, y)]))).
    { unfold q1. destruct b; cbn [negb].
      - apply painted_set; [exact Hp|lia|lia].
      - rewrite app_nil_r. exact Hp. }
    destruct Hp1 as [(Hq1 & Hq1w & Hq1v) Hm1].
    rewrite (qr_image_is_last_width qr0 q1 x y Hq1w), Hl. cbn [negb].
    rewrite (next_available_ext qr0 q1 x y Hq1w Hq1v), Hna.
    rewrite Hfree in Hlen. cbn [Datatypes.length] in Hlen.
    destruct (IH q1 byte x1 y1 (cells ++ (if negb b then [] else [(x, y)]))
                (conj (conj Hq1 (conj Hq1w Hq1v)) Hm1) Hon1 ltac:(lia))
      as (q' & x' & y' & He & Hon' & Hsplit & Hp').
    exists q', x', y'. split; [exact He|]. split; [exact Hon'|].
    rewrite Hfree. cbn [firstn]. split.
    + cbn [app]. f_equal. exact Hsplit.
    + rewrite light_cells_cons, app_assoc. exact Hp'.
Qed.

(** The codewords of the iterator, eight modules each. *)
Lemma draw_codewords_paints : forall fuel q iter x y cells,
  painted qr0 q cells -> on_walk qr0 x y ->
  (iterator_fuel iter <= fuel)%nat ->
  (8 * Datatypes.length (drain fuel iter) <= Datatypes.length (free_from qr0 x y))%nat ->
  exists q' iter' x' y',
    draw_codewords fuel q iter x y = Some (q', iter', x', y')
    /\ on_walk qr0 x' y'
    /\ free_from qr0 x y
       = firstn (8 * Datatypes.length (drain fuel iter)) (free_from qr0 x y)
         ++ free_from qr0 x' y'
    /\ painted qr0 q'
         (cells
          ++ light_cells
               (firstn (8 * Datatypes.length (drain fuel iter)) (free_from qr0 x y))
               (flat_map (fun byte => codeword_bits byte 8) (drain fuel iter))).
Proof.
  induction fuel as [|fuel IH]; intros q iter x y cells Hp Hon Hf Hlen.
  - unfold iterator_fuel in Hf. lia.
  - cbn [draw_codewords drain] in *.
    destruct (iterator_next_cases iter) as [(b & Hnext & Hgt & Hfuel)|Hnext];
      rewrite Hnext in *.
    + cbn [Datatypes.length flat_map] in *.
      set (n := Datatypes.length (drain fuel _)) in *.
      destruct (draw_codeword_paints 8 q b x y cells Hp Hon ltac:(lia))
        as (q1 & x1 & y1 & -> & Hon1 & Hsplit1 & Hp1).
      assert (Hl1 : Datatypes.length (free_from qr0 x y)
                    = (8 + Datatypes.length (free_from qr0 x1 y1))%nat).
      { rewrite Hsplit1 at 1. rewrite length_app, length_firstn. lia. }
      destruct (IH q1 _ x1 y1 _ Hp1 Hon1 ltac:(rewrite Hfuel; lia) ltac:(fold n; lia))
        as (q' & iter' & x' & y' & He & Hon' & Hsplit & Hp').
      fold n in Hsplit, Hp'.
      destruct (firstn_split_more _ _ _ 8 (8 * n) Hsplit1 ltac:(lia) Hsplit)
        as [Hfirst Hall].
      exists q', iter', x', y'. split; [exact He|]. split; [exact Hon'|].
      replace (8 * S n)%nat with (8 + 8 * n)%nat by lia.
      split; [exact Hall|].
      rewrite Hfirst, light_cells_app, app_assoc; [exact Hp'|].
      rewrite length_firstn, codeword_bits_length. lia.
    + exists q, iter, x, y. split; [reflexivity|]. split; [exact Hon|].
      cbn. split; [reflexivity|]. rewrite app_nil_r. exact Hp.
Qed.

(** The modules that remain are set. *)
Lemma draw_remaining_paints : forall f F q x y cells,
  painted qr0 q cells -> walk_ok f qr0 x y = true ->
  (forall a b, In (a, b) (walk f qr0 x y) ->
               0 <= a < qr_width qr0 /\ 0 <= b < qr_width qr0) ->
  (f <= F)%nat ->
  exists q',
    draw_remaining F q x y = Some q'
    /\ painted qr0 q'
         (cells ++ filter (fun p => negb (qr_image_is_reserved qr0 (fst p) (snd p)))
                     (walk f qr0 x y)).
Proof.
  induction f as [|f IH]; intros F q x y cells Hp H Hin Hle; [discriminate|].
  destruct F as [|F]; [lia|]. cbn [draw_remaining].
  pose proof Hp as [(Hq & Hqw & Hqv) Hm].
  rewrite (qr_image_is_last_width qr0 q x y Hqw).
  rewrite (qr_image_is_reserved_ext qr0 q x y Hqw Hqv).
  destruct (qr_image_is_last qr0 x y) eqn:El.
  - exists q. split; [reflexivity|].
    rewrite (walk_last_only qr0 _ x y H El). cbn [filter fst snd].
    rewrite (last_reserved x y El). cbn [negb]. rewrite app_nil_r. exact Hp.
  - pose proof (walk_ok_step qr0 f x y H El) as Hs.
    assert (Hu : walk (S f) qr0 x y
                 = (x, y) :: walk f qr0 (fst (qr_image_next qr0 x y))
                               (snd (qr_image_next qr0 x y))).
    { cbn [walk]. rewrite El. destruct (qr_image_next qr0 x y). reflexivity. }
    rewrite Hu in *.
    set (q1 := if qr_image_is_reserved qr0 x y then q else qr_image_set q x y).
    assert (Hp1 : painted qr0 q1
                    (cells ++ (if qr_image_is_reserved qr0 x y then [] else [(x, y)]))).
    { unfold q1. destruct (qr_image_is_reserved qr0 x y).
      - rewrite app_nil_r. exact Hp.
      - destruct (Hin x y (or_introl eq_refl)). apply painted_set; [exact Hp|lia|lia]. }
    pose proof Hp1 as [(Hq1 & Hq1w & Hq1v) _].
    rewrite (qr_image_next_width qr0 q1 x y Hq1w).
    destruct (qr_image_next qr0 x y) as [x1 y1]. cbn [fst snd] in *.
    destruct (IH F q1 x1 y1 _ Hp1 Hs ltac:(intros a b Hab; apply Hin; right; exact Hab)
                ltac:(lia)) as (q' & He & Hp').
    exists q'. split; [exact He|].
    cbn [filter fst snd].
    destruct (qr_image_is_reserved qr0 x y); cbn [negb].
    + rewrite app_nil_r in Hp'. exact Hp'.
    + rewrite <- app_assoc in Hp'. exact Hp'.
Qed.

End Placement.

Lemma codewords_length v em :
  1 <= v <= 40 -> em_of_version v em ->
  Datatypes.length (codewords em) = Z.to_nat (region v)
  /\ iterator_fuel (encoded_msg_iterator_init em) = S (Z.to_nat (region v)).
Proof.
  intros Hv Hem. layout_facts v Hv.
  assert (Hfuel : iterator_fuel (encoded_msg_iterator_init em) = S (Z.to_nat (region v))).
  { destruct Hem as [Eec Eg1 Eg2 Es1 Es2 Ever].
    unfold iterator_fuel, encoded_msg_iterator_init. cbn [emi_em emi_offset].
    rewrite Eec, Eg1, Eg2, Es1, Es2. unfold region, D. f_equal. f_equal. lia. }
  split; [|exact Hfuel].
  unfold codewords. rewrite Hfuel.
  pose proof (drain_length v em Hv Hem (S (Z.to_nat (region v))) 0) as Hd.
  unfold encoded_msg_iterator_init.
  assert (0 <= region v) by (unfold region, D; nia).
  lia.
Qed.

Lemma message_bits_length v em :
  1 <= v <= 40 -> em_of_version v em ->
  Datatypes.length (message_bits em) = (8 * Z.to_nat (region v))%nat.
Proof.
  intros Hv Hem. destruct (codewords_length v em Hv Hem) as [<- _].
  unfold message_bits. induction (codewords em) as [|b l IH]; [reflexivity|].
  cbn [flat_map Datatypes.length]. rewrite length_app, codeword_bits_length, IH. lia.
Qed.

Lemma light_cells_incl cells bits : incl (light_cells cells bits) cells.
Proof.
  revert bits. induction cells as [|c cells IH]; intros [|b bits] p Hp;
    try (cbn in Hp; contradiction).
  rewrite light_cells_cons in Hp. apply in_app_or in Hp. destruct Hp as [Hp|Hp].
  - destruct b; [destruct Hp|]. destruct Hp as [<-|[]]. left. reflexivity.
  - right. apply (IH bits), Hp.
Qed.

(** X7. [qr_image_draw_data] sets the [k]-th free module of the walk
    when bit [k] of the encoded message is 0, for every bit of the message
    (codewords in the order of the interleaving iterator, most significant
    bit first), sets the free modules that remain after the last bit, and
    leaves every other module, the reserved ones among them, as it was. *)
Theorem qr_image_draw_data_places_message v qr em :
  1 <= v <= 40 -> image_ok qr -> qr_width qr = 4 * v + 17 ->
  qr_ver qr = mk_version v -> em_of_version v em ->
  let n := (8 * Z.to_nat (region v))%nat in
  exists qr' iter',
    qr_image_draw_data qr (encoded_msg_iterator_init em) = Some (qr', iter')
    /\ Datatypes.length (message_bits em) = n
    /\ (n <= Datatypes.length (data_modules qr))%nat
    /\ painted qr qr'
         (light_cells (firstn n (data_modules qr)) (message_bits em)
          ++ skipn n (data_modules qr))
    /\ (forall x y, 0 <= x < qr_width qr -> 0 <= y < qr_width qr ->
        qr_image_is_reserved qr x y = true ->
        module_set (qr_data qr') (qr_width qr) x y
        = module_set (qr_data qr) (qr_width qr) x y).
Proof.
  intros Hv Hok Hw Hver Hem n.
  destruct (codewords_length v em Hv Hem) as [Hcw Hfuel].
  pose proof (message_bits_length v em Hv Hem) as Hbits.
  pose proof (data_modules_hold_encoded_message v qr Hv Hw Hver) as Hcap.
  assert (Hreg : 0 <= region v) by (layout_facts v Hv; unfold region, D; nia).
  assert (Hn : (n <= Datatypes.length (data_modules qr))%nat) by (unfold n; lia).
  set (s := u8 (qr_width qr - 1)).
  assert (Hon : on_walk qr s s).
  { split; [apply (data_walk_ok v qr Hv Hw)|]. split.
    - intros a b Hab. rewrite Hw.
      destruct (data_walk_cells v qr a b Hv Hw Hab) as (Ha & Hb & _). lia.
    - left. pose proof (start_checked v Hv) as Hs. unfold check_start in Hs.
      apply negb_true_iff in Hs.
      rewrite <- (qr_image_is_reserved_ext (blank_image v) qr) in Hs.
      + unfold s. rewrite Hw. rewrite blank_image_width in Hs by exact Hv. exact Hs.
      + rewrite blank_image_width by exact Hv. exact Hw.
      + exact Hver. }
  unfold qr_image_draw_data. fold s.
  destruct (draw_codewords_paints v qr Hv Hw
              (iterator_fuel (encoded_msg_iterator_init em)) qr
              (encoded_msg_iterator_init em) s s [] (painted_refl qr Hok) Hon (le_n _))
    as (q1 & iter1 & x1 & y1 & -> & Hon1 & Hsplit & Hp1).
  { fold (codewords em). rewrite Hcw. exact Hn. }
  fold (codewords em) in Hsplit, Hp1. rewrite Hcw in Hsplit, Hp1.
  fold n in Hsplit, Hp1. fold (message_bits em) in Hp1.
  change (free_from qr s s) with (data_modules qr) in Hsplit, Hp1.
  pose proof Hp1 as [(_ & Hq1w & _) _].
  destruct Hon1 as (Hwalk1 & Hin1 & _).
  destruct (draw_remaining_paints v qr Hv Hw (walk_fuel qr) (S (walk_fuel q1))
              q1 x1 y1 _ Hp1 Hwalk1 Hin1
              ltac:(rewrite (walk_fuel_width qr q1 Hq1w); lia)) as (q' & -> & Hp').
  fold (free_from qr x1 y1) in Hp'.
  rewrite <- (skipn_of_split _ _ n Hsplit Hn) in Hp'. cbn [app] in Hp'.
  exists q', iter1. split; [reflexivity|]. split; [exact Hbits|].
  split; [exact Hn|]. split; [exact Hp'|].
  intros x y Hx Hy Hr. destruct Hp' as [_ Hm]. specialize (Hm x y Hx Hy).
  assert (Hnot : ~ In (x, y)
                     (light_cells (firstn n (data_modules qr)) (message_bits em)
                      ++ skipn n (data_modules qr))).
  { intros Hin. assert (Hdm : In (x, y) (data_modules qr)).
    { apply in_app_or in Hin. destruct Hin as [Hin|Hin].
      - apply light_cells_incl in Hin.
        rewrite <- (firstn_skipn n (data_modules qr)). apply in_or_app. left. exact Hin.
      - rewrite <- (firstn_skipn n (data_modules qr)). apply in_or_app. right. exact Hin. }
    unfold data_modules in Hdm. apply filter_In in Hdm. destruct Hdm as [_ Hdm].
    cbn [fst snd] in Hdm. rewrite Hr in Hdm. discriminate. }
  destruct (module_set (qr_data q') (qr_width qr) x y),
    (module_set (qr_data qr) (qr_width qr) x y); try reflexivity.
  - destruct Hm as [Hm _]. destruct (Hm eq_refl) as [H|H]; [discriminate|tauto].
  - destruct Hm as [_ Hm]. apply Hm. left. reflexivity.
Qed.

Lemma hello_encoded_of_version : em_of_version 1 hello_encoded.
Proof. constructor; reflexivity. Qed.

Lemma qr_image_draw_data_places_message_witness :
  let n := (8 * Z.to_nat (region 1))%nat in
  exists qr' iter',
    qr_image_draw_data sample_image (encoded_msg_iterator_init hello_encoded)
    = Some (qr', iter')
    /\ Datatypes.length (message_bits hello_encoded) = n
    /\ (n <= Datatypes.length (data_modules sample_image))%nat
    /\ painted sample_image qr'
         (light_cells (firstn n (data_modules sample_image)) (message_bits hello_encoded)
          ++ skipn n (data_modules sample_image))
    /\ (forall x y, 0 <= x < qr_width sample_image -> 0 <= y < qr_width sample_image ->
        qr_image_is_reserved sample_image x y = true ->
        module_set (qr_data qr') (qr_width sample_image) x y
        = module_set (qr_data sample_image) (qr_width sample_image) x y).
Proof.
  apply (qr_image_draw_data_places_message 1 sample_image hello_encoded);
    [lia|unfold image_ok; cbn; lia|reflexivity|reflexivity|constructor; reflexivity].
Defined.

End DrawDataFacts.

(** ** The bit stream of a byte segment *)

Module StreamFacts.
Import QrGenerator Reader Spec BufferFacts VersionFacts InterleaveFacts EncodeFacts
  EncodedMessageClaims PainterFacts GeneratorClaims.

(** *** Bytes and nibbles *)

Lemma land_255 x : Z.land x 255 = x mod 256.
Proof. change 255 with (Z.ones 8). rewrite Z.land_ones by lia. reflexivity. Qed.

Lemma lor_disjoint h l k :
  0 <= k -> 0 <= l < 2 ^ k -> Z.lor (h * 2 ^ k) l = h * 2 ^ k + l.
Proof.
  intros Hk Hl. rewrite <- Z.lxor_lor, <- Z.add_nocarry_lxor; try reflexivity;
    apply Z.bits_inj'; intros n Hn; rewrite Z.land_spec, Z.bits_0;
    destruct (Z.ltb_spec n k) as [Hlt|Hge];
    try (rewrite Z.mul_pow2_bits_low by lia; reflexivity);
    rewrite <- (Z.mod_small l (2 ^ k)) by lia;
    rewrite Z.mod_pow2_bits_high by lia; apply andb_false_r.
Qed.

Lemma lor_nibble x n :
  0 <= x < 256 -> x mod 16 = 0 -> 0 <= n < 16 -> Z.lor x n = x + n.
Proof.
  intros Hx Hm Hn.
  replace x with (x / 16 * 2 ^ 4)
    by (change (2 ^ 4) with 16; pose proof (Z.div_mod x 16 ltac:(lia)); lia).
  apply lor_disjoint; [lia|]. change (2 ^ 4) with 16. lia.
Qed.

Lemma rd_memset0 : forall n d i,
  0 <= i < Z.of_nat n -> rd (memset0 n d) i = 0.
Proof.
  unfold rd. induction n as [|n IH]; intros d i Hi; [lia|].
  destruct d as [|a d]; cbn [memset0].
  - destruct (Z.to_nat i); reflexivity.
  - destruct (Z.to_nat i) as [|m] eqn:Em; [reflexivity|]. cbn [nth].
    specialize (IH d (Z.of_nat m) ltac:(lia)). rewrite Nat2Z.id in IH. exact IH.
Qed.

Lemma rd_memcpy_at_other : forall off src dst i,
  0 <= i -> (i < Z.of_nat off \/ Z.of_nat off + Z.of_nat (Datatypes.length src) <= i) ->
  rd (memcpy_at off src dst) i = rd dst i.
Proof.
  unfold rd. intros off src dst. revert off src.
  induction dst as [|a dst IH]; intros off src i Hi Hr.
  - destruct off; reflexivity.
  - destruct off as [|off]; cbn [memcpy_at].
    + destruct src as [|s src]; [reflexivity|].
      destruct (Z.to_nat i) as [|m] eqn:Em.
      * cbn [Datatypes.length] in Hr. lia.
      * cbn [nth]. specialize (IH O src (Z.of_nat m) ltac:(lia)).
        rewrite Nat2Z.id in IH. apply IH. cbn [Datatypes.length] in Hr. lia.
    + destruct (Z.to_nat i) as [|m] eqn:Em; [reflexivity|]. cbn [nth].
      specialize (IH off src (Z.of_nat m) ltac:(lia)).
      rewrite Nat2Z.id in IH. apply IH. lia.
Qed.

Lemma rd_memcpy_at_same : forall off src dst j,
  (j < Datatypes.length src)%nat -> (off + j < Datatypes.length dst)%nat ->
  rd (memcpy_at off src dst) (Z.of_nat (off + j)) = nth j src 0.
Proof.
  unfold rd. intros off src dst j. rewrite Nat2Z.id. revert off src j.
  induction dst as [|a dst IH]; intros off src j Hj Hd; [cbn in Hd; lia|].
  destruct off as [|off]; cbn [memcpy_at].
  - destruct src as [|s src]; [cbn in Hj; lia|].
    destruct j as [|j]; [reflexivity|]. cbn [plus nth].
    apply (IH O src j); cbn in *; lia.
  - cbn [plus nth]. apply IH; cbn in *; lia.
Qed.

(** *** Pushes at the nibble boundary *)

Lemma push_byte_at_nibble d q n :
  0 <= q -> 8 * q + 12 <= SIZE_MAX ->
  encoded_msg_push d (8 * q + 4) n 8
  = (wr (wr d q (Z.lor (rd d q) (Z.land (Z.shiftr n 4) 255))) (q + 1)
       (Z.land (Z.shiftl n 4) 255),
     8 * q + 12).
Proof.
  intros Hq Hm. unfold encoded_msg_push.
  replace ((8 * q + 4) / 8) with q by (Z.div_mod_to_equations; lia).
  replace ((8 * q + 4) mod 8) with 4 by (Z.div_mod_to_equations; lia).
  rewrite (size_t_small (8 * q + 4 + 8)) by lia.
  change (size_t (4 + 8)) with 12.
  change (4 =? 0) with false. change (12 <=? 8) with false.
  change (12 <=? 16) with true. cbn [andb].
  change (12 - 8) with 4. change (16 - 12) with 4.
  f_equal. lia.
Qed.

Lemma push_stop_at_nibble d q :
  0 <= q -> 8 * q + 8 <= SIZE_MAX ->
  encoded_msg_push d (8 * q + 4) MODE_STOP 4 = (wr d q (rd d q), 8 * q + 8).
Proof.
  intros Hq Hm. unfold encoded_msg_push, MODE_STOP.
  replace ((8 * q + 4) / 8) with q by (Z.div_mod_to_equations; lia).
  replace ((8 * q + 4) mod 8) with 4 by (Z.div_mod_to_equations; lia).
  rewrite (size_t_small (8 * q + 4 + 4)) by lia.
  change (size_t (4 + 4)) with 8.
  change (4 =? 0) with false. change (8 <=? 8) with true. cbn [andb].
  change (Z.land (Z.shiftl 0 (8 - 8)) 255) with 0. rewrite Z.lor_0_r.
  f_equal. lia.
Qed.

(** A byte pushed at a nibble boundary fills the low half of one byte of the
    buffer and the high half of the next. *)
Lemma byte_at_nibble d q n :
  0 <= q -> q + 1 < Z.of_nat (Datatypes.length d) ->
  0 <= n < 256 -> 0 <= rd d q < 256 -> rd d q mod 16 = 0 ->
  let d' := wr (wr d q (Z.lor (rd d q) (Z.land (Z.shiftr n 4) 255))) (q + 1)
              (Z.land (Z.shiftl n 4) 255) in
  rd d' q = rd d q + n / 16
  /\ rd d' (q + 1) = n mod 16 * 16
  /\ (forall i, 0 <= i -> i <> q -> i <> q + 1 -> rd d' i = rd d i)
  /\ Datatypes.length d' = Datatypes.length d.
Proof.
  intros Hq Hlen Hn Hx Hm d'. unfold d'.
  rewrite !land_255, Z.shiftr_div_pow2, Z.shiftl_mul_pow2 by lia.
  change (2 ^ 4) with 16.
  assert (Hh : 0 <= n / 16 < 16) by (Z.div_mod_to_equations; lia).
  rewrite (Z.mod_small (n / 16) 256) by lia.
  rewrite lor_nibble by assumption.
  split; [|split; [|split]].
  - rewrite rd_wr_other by lia. rewrite rd_wr_same by lia. reflexivity.
  - rewrite rd_wr_same by (rewrite wr_length; lia).
    Z.div_mod_to_equations. lia.
  - intros i Hi H1 H2. rewrite !rd_wr_other by lia. reflexivity.
  - rewrite !wr_length. reflexivity.
Qed.

Lemma binary_next seg k c cl :
  seg_type seg = SEGMENT_BINARY ->
  qr_segment_iterator_next (mk_segment_iterator seg k c cl)
  = if k <? seg_length seg
    then (Some (rd (seg_data seg) k, 8), mk_segment_iterator seg (size_t (k + 1)) c cl)
    else (None, mk_segment_iterator seg k c cl).
Proof.
  intros H. unfold qr_segment_iterator_next.
  cbn [it_segment it_offset it_carry it_carry_len]. rewrite H. reflexivity.
Qed.

(** The bytes of a byte segment, pushed from a nibble boundary on. *)
Lemma push_binary_data seg : forall (r : nat) fuel k c cl d q,
  seg_type seg = SEGMENT_BINARY ->
  0 <= k -> Z.of_nat r = seg_length seg - k -> (r < fuel)%nat ->
  seg_length seg < 2 ^ 32 ->
  (forall j, 0 <= j < seg_length seg -> 0 <= rd (seg_data seg) j < 256) ->
  0 <= q -> q + Z.of_nat r < 2 ^ 32 ->
  q + Z.of_nat r < Z.of_nat (Datatypes.length d) ->
  0 <= rd d q < 256 -> rd d q mod 16 = 0 ->
  exists d',
    push_segment_data fuel (mk_segment_iterator seg k c cl) d (8 * q + 4)
    = Some (d', 8 * (q + Z.of_nat r) + 4)
    /\ Datatypes.length d' = Datatypes.length d
    /\ (forall i, 0 <= i < q -> rd d' i = rd d i)
    /\ rd d' q / 16 = rd d q / 16
    /\ (forall j, 0 <= j < Z.of_nat r ->
        stream_byte d' (q + j) = rd (seg_data seg) (k + j))
    /\ 0 <= rd d' (q + Z.of_nat r) < 256
    /\ rd d' (q + Z.of_nat r) mod 16 = 0
    /\ (forall i, q + Z.of_nat r < i -> rd d' i = rd d i).
Proof.
  induction r as [|r IH]; intros fuel k c cl d q Hty Hk Hr Hf Hlen Hbytes Hq Hq32 Hd Hx Hm;
    (destruct fuel as [|fuel]; [lia|]); cbn [push_segment_data];
    rewrite binary_next by exact Hty.
  - replace (k <? seg_length seg) with false by lia.
    exists d. replace (q + Z.of_nat 0) with q by lia.
    repeat split; auto; try lia.
  - replace (k <? seg_length seg) with true by lia.
    assert (H32 : 2 ^ 32 = 4294967296) by reflexivity.
    rewrite push_byte_at_nibble by (unfold SIZE_MAX; lia).
    rewrite (size_t_small (k + 1)) by (unfold SIZE_MAX; lia).
    pose proof (Hbytes k ltac:(lia)) as Hn.
    destruct (byte_at_nibble d q (rd (seg_data seg) k) ltac:(lia) ltac:(lia) Hn Hx Hm)
      as (H1 & H2 & H3 & H4).
    set (d1 := wr (wr d q _) (q + 1) _) in *.
    replace (8 * q + 12) with (8 * (q + 1) + 4) by lia.
    destruct (IH fuel (k + 1) c cl d1 (q + 1) Hty ltac:(lia) ltac:(lia) ltac:(lia)
                Hlen Hbytes ltac:(lia) ltac:(lia) ltac:(lia))
      as (d' & He & Hl' & Hlow & Hhigh & Hdata & Hr1 & Hr2 & Hrest).
    { rewrite H2. Z.div_mod_to_equations. lia. }
    { rewrite H2. Z.div_mod_to_equations. lia. }
    exists d'. replace (q + Z.of_nat (S r)) with (q + 1 + Z.of_nat r) by lia.
    split; [exact He|]. split; [congruence|].
    assert (Hq' : rd d' q = rd d q + rd (seg_data seg) k / 16)
      by (rewrite Hlow by lia; exact H1).
    split; [|split; [|split; [|split; [exact Hr1|split; [exact Hr2|]]]]].
    + intros i Hi. rewrite Hlow by lia. apply H3; lia.
    + rewrite Hq'. Z.div_mod_to_equations. lia.
    + intros j Hj. destruct (Z.eq_dec j 0) as [->|Hne].
      * rewrite !Z.add_0_r. unfold stream_byte. rewrite Hq'.
        rewrite H2 in Hhigh. Z.div_mod_to_equations. lia.
      * replace (q + j) with (q + 1 + (j - 1)) by lia.
        replace (k + j) with (k + 1 + (j - 1)) by lia. apply Hdata. lia.
    + intros i Hi. rewrite Hrest by lia. apply H3; lia.
Qed.

(** *** Header, character count and terminator *)

Lemma count_fits_checked : forall v, 1 <= v <= 40 -> check_count_fits v = true.
Proof. apply versions_forall. vm_compute. reflexivity. Qed.

Lemma push_header d : encoded_msg_push d 0 MODE_BINARY 4 = (wr d 0 64, 4).
Proof. reflexivity. Qed.

Lemma push_count16 d n :
  encoded_msg_push d 4 n 16
  = (wr (wr (wr d 0 (Z.lor (rd d 0) (Z.land (Z.shiftr n 12) 255))) 1
           (Z.land (Z.shiftr n 4) 255)) 2 (Z.land (Z.shiftl n 4) 255),
     20).
Proof. reflexivity. Qed.

Lemma binary_length_field data len v :
  1 <= v <= 40 -> 0 <= len -> len + count_bytes v + 1 <= D v ->
  qr_segment_get_length_field (mk_segment SEGMENT_BINARY data len) (mk_version v)
  = (len, 8 * count_bytes v).
Proof.
  intros Hv Hl0 Hl. pose proof (count_fits_checked v Hv) as Hc.
  unfold check_count_fits in Hc.
  unfold qr_segment_get_length_field, qr_segment_length_bits_count,
    qr_segment_character_count, count_bytes in *.
  cbn [seg_type seg_length version]. destruct (v <=? 9).
  - change (Z.shiftl 1 8 - 1) with 255. rewrite land_255.
    change (2 ^ (8 * 1)) with 256 in Hc.
    rewrite Z.mod_small by lia. unfold u16. rewrite Z.mod_small by lia. reflexivity.
  - change (Z.shiftl 1 16 - 1) with (Z.ones 16). rewrite Z.land_ones by lia.
    change (2 ^ (8 * 2)) with 65536 in Hc. change (2 ^ 16) with 65536.
    rewrite Z.mod_small by lia. unfold u16. rewrite Z.mod_small by lia. reflexivity.
Qed.

(** The bit stream of one byte segment in a zeroed buffer. *)
Lemma byte_segment_bits v em data len :
  1 <= v <= 40 -> 0 <= len -> len + count_bytes v + 1 <= D v ->
  em_version em = mk_version v ->
  (forall j, 0 <= j < len -> 0 <= rd data j < 256) ->
  D v <= Z.of_nat (Datatypes.length (em_data em)) ->
  exists d,
    encoded_msg_add_segments_bits em [mk_segment SEGMENT_BINARY data len]
    = Some (d, 8 * (count_bytes v + len + 1))
    /\ Datatypes.length d = Datatypes.length (em_data em)
    /\ rd d 0 / 16 = MODE_BINARY
    /\ stream_count v d = len
    /\ (forall k, 0 <= k < len -> stream_byte d (count_bytes v + k) = rd data k)
    /\ rd d (count_bytes v + len) mod 16 = MODE_STOP.
Proof.
  intros Hv Hl0 Hl Hver Hbytes Hlen.
  layout_facts v Hv.
  assert (Hh : 1 <= count_bytes v <= 2) by (unfold count_bytes; destruct (v <=? 9); lia).
  assert (HD : D v <= 3706) by (unfold region in Rreg; nia).
  set (seg := mk_segment SEGMENT_BINARY data len).
  set (d0 := em_data em) in *.
  unfold encoded_msg_add_segments_bits. rewrite Hver. fold d0.
  cbn [push_segments]. unfold push_segment.
  change (qr_segment_get_header seg) with (MODE_BINARY, 4). cbv beta iota zeta.
  rewrite push_header. cbv beta iota zeta.
  replace (qr_segment_get_length_field seg (mk_version v))
    with (len, 8 * count_bytes v)
    by (symmetry; apply binary_length_field; assumption).
  cbv beta iota zeta.
  assert (Hd0 : rd (wr d0 0 64) 0 = 64) by (apply rd_wr_same; lia).
  (* the character count, and the buffer when the data begins *)
  assert (Hcount :
    exists d1,
      encoded_msg_push (wr d0 0 64) 4 len (8 * count_bytes v)
      = (d1, 8 * count_bytes v + 4)
      /\ Datatypes.length d1 = Datatypes.length d0
      /\ rd d1 0 / 16 = 4
      /\ (forall d', (forall i, 0 <= i < count_bytes v -> rd d' i = rd d1 i) ->
                     rd d' (count_bytes v) / 16 = rd d1 (count_bytes v) / 16 ->
                     stream_count v d' = len)
      /\ 0 <= rd d1 (count_bytes v) < 256
      /\ rd d1 (count_bytes v) mod 16 = 0).
  { pose proof (count_fits_checked v Hv) as Hc. unfold check_count_fits in Hc.
    unfold count_bytes, stream_count in *. destruct (v <=? 9).
    - change (2 ^ (8 * 1)) with 256 in Hc.
      change (8 * 1 + 4) with 12. change 4 with (8 * 0 + 4) at 1.
      change (8 * 1) with 8.
      rewrite push_byte_at_nibble by (unfold SIZE_MAX; lia).
      destruct (byte_at_nibble (wr d0 0 64) 0 len ltac:(lia)
                  ltac:(rewrite wr_length; lia) ltac:(lia)
                  ltac:(rewrite Hd0; lia)
                  ltac:(rewrite Hd0; reflexivity))
        as (H1 & H2 & H3 & H4).
      set (d1 := wr (wr (wr d0 0 64) 0 _) (0 + 1) _) in *.
      rewrite Hd0 in H1.
      exists d1. split; [reflexivity|]. change (0 + 1) with 1 in *.
      split; [rewrite H4, wr_length; reflexivity|].
      split; [rewrite H1; Z.div_mod_to_equations; lia|].
      split; [|split].
      + intros d' Hlow Hhigh. unfold stream_byte. change (0 + 1) with 1.
        rewrite Hlow by lia. rewrite Hhigh, H1, H2. Z.div_mod_to_equations. lia.
      + rewrite H2. Z.div_mod_to_equations. lia.
      + rewrite H2. Z.div_mod_to_equations. lia.
    - change (2 ^ (8 * 2)) with 65536 in Hc.
      change (8 * 2 + 4) with 20. change (8 * 2) with 16.
      rewrite push_count16.
      rewrite Hd0.
      rewrite !land_255, !Z.shiftr_div_pow2, Z.shiftl_mul_pow2 by lia.
      change (2 ^ 12) with 4096. change (2 ^ 4) with 16.
      assert (Hq16 : 0 <= len / 4096 < 16) by (Z.div_mod_to_equations; lia).
      rewrite (Z.mod_small (len / 4096) 256) by lia.
      rewrite (lor_nibble 64) by (try reflexivity; lia).
      set (d1 := wr (wr (wr _ 0 _) 1 _) 2 _).
      assert (H0 : rd d1 0 = 64 + len / 4096).
      { unfold d1. rewrite !rd_wr_other by lia. apply rd_wr_same.
        rewrite wr_length. lia. }
      assert (H1 : rd d1 1 = (len / 16) mod 256).
      { unfold d1. rewrite rd_wr_other by lia. apply rd_wr_same.
        rewrite !wr_length. lia. }
      assert (H2 : rd d1 2 = (len * 16) mod 256).
      { unfold d1. apply rd_wr_same. rewrite !wr_length. lia. }
      exists d1. split; [reflexivity|].
      split; [unfold d1; rewrite !wr_length; reflexivity|].
      split; [rewrite H0; Z.div_mod_to_equations; lia|].
      split; [|split].
      + intros d' Hlow Hhigh. unfold stream_byte.
        change (0 + 1) with 1. change (1 + 1) with 2.
        rewrite (Hlow 0), (Hlow 1) by lia. rewrite Hhigh, H0, H1, H2.
        Z.div_mod_to_equations. lia.
      + rewrite H2. Z.div_mod_to_equations. lia.
      + rewrite H2. Z.div_mod_to_equations. lia. }
  destruct Hcount as (d1 & -> & Hl1 & Hmode & Hcnt & Hx & Hm).
  cbv beta iota zeta.
  replace (8 * count_bytes v + 4) with (8 * count_bytes v + 4) by reflexivity.
  destruct (push_binary_data seg (Z.to_nat len) (segment_fuel seg) 0 0 0 d1
              (count_bytes v) eq_refl ltac:(lia))
    as (d2 & He & Hl2 & Hlow & Hhigh & Hdata & Hr1 & Hr2 & Hrest);
    try assumption; cbn [seg seg_length seg_data]; try lia.
  { unfold segment_fuel. cbn [seg seg_length].
    rewrite size_t_small by (unfold SIZE_MAX; lia). lia. }
  unfold qr_segment_iterator_init. rewrite He.
  rewrite Z2Nat.id in * by lia. cbv beta iota zeta.
  replace (8 * (count_bytes v + len) + 4) with (8 * (count_bytes v + len) + 4)
    by reflexivity.
  rewrite push_stop_at_nibble by (unfold SIZE_MAX; lia). cbv beta iota zeta.
  replace ((8 * (count_bytes v + len) + 8) mod 8 =? 0) with true
    by (symmetry; apply Z.eqb_eq; Z.div_mod_to_equations; lia).
  set (q := count_bytes v + len) in *.
  assert (Hsame : forall i, 0 <= i -> rd (wr d2 q (rd d2 q)) i = rd d2 i).
  { intros i Hi. destruct (Z.eq_dec i q) as [->|Hne].
    - apply rd_wr_same. lia.
    - apply rd_wr_other; lia. }
  exists (wr d2 q (rd d2 q)).
  split; [f_equal; f_equal; lia|].
  split; [rewrite wr_length; congruence|].
  split; [rewrite Hsame by lia|].
  { destruct (Z.eq_dec len 0) as [->|Hne].
    - destruct (Z.eq_dec (count_bytes v) 0); [lia|].
      rewrite Hlow by lia. exact Hmode.
    - rewrite Hlow by lia. exact Hmode. }
  split.
  { apply Hcnt.
    - intros i Hi. rewrite Hsame by lia. apply Hlow. lia.
    - rewrite Hsame by lia. exact Hhigh. }
  split.
  { intros k Hk. unfold stream_byte. rewrite !Hsame by lia. apply (Hdata k). lia. }
  rewrite Hsame by lia. exact Hr2.
Qed.

(** *** The error correction step leaves the data codewords alone *)

Lemma error_code_for_block_data em offset size ec_offset :
  em_data (encoded_msg_error_code_for_block em offset size ec_offset)
  = memcpy_at (Z.to_nat ec_offset) (block_parity em offset size) (em_data em).
Proof. reflexivity. Qed.

Lemma error_code_for_block_frame em offset size ec_offset i :
  0 <= i < ec_offset ->
  rd (em_data (encoded_msg_error_code_for_block em offset size ec_offset)) i
  = rd (em_data em) i.
Proof.
  intros Hi. rewrite error_code_for_block_data.
  apply rd_memcpy_at_other; lia.
Qed.

Lemma error_code_for_block_length em offset size ec_offset :
  Datatypes.length (em_data (encoded_msg_error_code_for_block em offset size ec_offset))
  = Datatypes.length (em_data em).
Proof. rewrite error_code_for_block_data. apply memcpy_at_length. Qed.

Lemma compute_error_code_frame v em :
  1 <= v <= 40 -> em_of_version v em ->
  Datatypes.length (em_data (encoded_msg_compute_error_code em))
  = Datatypes.length (em_data em)
  /\ forall i, 0 <= i < D v ->
       rd (em_data (encoded_msg_compute_error_code em)) i = rd (em_data em) i.
Proof.
  intros Hv Hem. layout_facts v Hv.
  set (P := fun s : encoded_msg * Z * Z =>
              em_of_version v (fst (fst s)) /\ D v <= snd s
              /\ Datatypes.length (em_data (fst (fst s))) = Datatypes.length (em_data em)
              /\ forall i, 0 <= i < D v ->
                   rd (em_data (fst (fst s))) i = rd (em_data em) i).
  assert (Hstep : forall (size : encoded_msg -> Z) (s : encoded_msg * Z * Z),
             P s ->
             P (let '(e, o, eo) := s in
                (encoded_msg_error_code_for_block e o (size e) eo,
                 o + size e, eo + em_ec_size e))).
  { intros size [[e o] eo] (He & Heo & Hl & Hd). unfold P. cbn [fst snd] in *.
    split; [apply error_code_for_block_of_version, He|].
    destruct He as [Eec _ _ _ _ _].
    split; [lia|]. split.
    - rewrite error_code_for_block_length. exact Hl.
    - intros i Hi. rewrite error_code_for_block_frame by lia. apply Hd, Hi. }
  unfold encoded_msg_compute_error_code.
  match goal with
  | |- context [for_range 0 (em_g1_blocks em) ?body ?s0] =>
      assert (H1 : P (for_range 0 (em_g1_blocks em) body s0))
  end.
  { apply for_range_inv.
    - intros i s Hs. apply (Hstep em_g1_blk_size s Hs).
    - destruct Hem as [Eec Eg1 Eg2 Es1 Es2 Ever].
      split; [constructor; assumption|]. cbn [fst snd].
      split; [rewrite Eg1, Eg2, Es1, Es2; unfold D; lia|]. split; auto. }
  destruct (for_range 0 (em_g1_blocks em) _ _) as [[em1 o1] eo1].
  match goal with
  | |- context [for_range 0 ?n ?body ?s0] =>
      assert (H2 : P (for_range 0 n body s0))
  end.
  { apply for_range_inv; [|exact H1].
    intros i s Hs. apply (Hstep em_g2_blk_size s Hs). }
  destruct (for_range 0 _ _ _) as [[em2 o2] eo2].
  destruct H2 as (_ & _ & Hl & Hd). cbn [fst snd] in *. split; assumption.
Qed.

(** *** A byte segment through [qr_generate] *)

(** [encoded_msg_init] accepts a byte segment exactly when the mode
    indicator, the character count, the payload and the terminator fit the
    data codewords, and the buffer the whole message. *)
Lemma encoded_msg_init_byte_exact data len v tmp tmp_size :
  1 <= v <= 40 -> 0 <= len -> 8 * len + 24 <= SIZE_MAX -> 0 < tmp_size ->
  (len + count_bytes v + 1 <= D v -> region v <= tmp_size ->
   exists em,
     encoded_msg_init [mk_segment SEGMENT_BINARY data len] v tmp tmp_size = Some em)
  /\ (D v < len + count_bytes v + 1 \/ tmp_size < region v ->
      encoded_msg_init [mk_segment SEGMENT_BINARY data len] v tmp tmp_size = None).
Proof.
  intros Hv Hl Hm Ht. layout_facts v Hv.
  assert (HD : D v <= 3706) by (unfold region in Rreg; nia).
  assert (Hh : 8 * count_bytes v
               = qr_segment_length_bits_count (mk_segment SEGMENT_BINARY data len)
                   (mk_version v)).
  { unfold count_bytes, qr_segment_length_bits_count. cbn [seg_type version].
    destruct (v <=? 9); reflexivity. }
  assert (Hc : 1 <= count_bytes v <= 2)
    by (unfold count_bytes; destruct (v <=? 9); lia).
  unfold encoded_msg_init. cbn [Datatypes.length fold_left].
  replace ((Z.of_nat 1 =? 0) || (tmp_size =? 0)) with false by lia.
  replace ((v <? 1) || (v >? 40)) with false by lia.
  rewrite Lmax, Lec, Lg1, Lg2.
  unfold qr_segment_total_size_bits. rewrite <- Hh. cbn [seg_type seg_length].
  unfold SIZE_MAX in *.
  rewrite (size_t_small (len * 8)) by (unfold SIZE_MAX; lia).
  rewrite (size_t_small (4 + 8 * count_bytes v + len * 8)) by (unfold SIZE_MAX; lia).
  rewrite (size_t_small (0 + _)) by (unfold SIZE_MAX; lia).
  rewrite (size_t_small (0 + _ + 4)) by (unfold SIZE_MAX; lia).
  rewrite (size_t_small (D v * 8)) by (unfold SIZE_MAX; lia).
  rewrite (size_t_small (D v + _)) by (unfold SIZE_MAX, region, D in *; nia).
  fold (region v).
  split.
  - intros Hfit Hbuf.
    replace (0 + (4 + 8 * count_bytes v + len * 8) + 4 >? D v * 8) with false by lia.
    replace (tmp_size <? region v) with false by lia.
    eexists. reflexivity.
  - intros [Hbig|Hsmall].
    + replace (0 + (4 + 8 * count_bytes v + len * 8) + 4 >? D v * 8) with true by lia.
      reflexivity.
    + destruct (_ >? _); [reflexivity|].
      replace (tmp_size <? region v) with true by lia. reflexivity.
Qed.

Lemma qr_generate_byte_success data len v data_size tmp tmp_size :
  1 <= v <= 40 -> 4071 <= data_size -> 3706 <= tmp_size ->
  0 <= len -> len + count_bytes v + 1 <= D v ->
  exists em em' image,
    encoded_msg_init [mk_segment SEGMENT_BINARY data len] v tmp tmp_size = Some em
    /\ encoded_msg_encode em [mk_segment SEGMENT_BINARY data len] = Some em'
    /\ qr_generate None data len v data_size tmp tmp_size
       = Some (4 * v + 17, image, em_data em').
Proof.
  intros Hv Hd Ht Hl Hfit. layout_facts v Hv.
  assert (HD : D v <= 3706) by (unfold region in Rreg; nia).
  assert (Hc : 1 <= count_bytes v <= 2)
    by (unfold count_bytes; destruct (v <=? 9); lia).
  destruct (encoded_msg_init_byte_exact data len v tmp tmp_size Hv Hl
              ltac:(unfold SIZE_MAX; lia) ltac:(lia)) as [Hyes _].
  destruct (Hyes Hfit ltac:(lia)) as (em & Hinit).
  assert (Hsegs : Forall segment_ok [mk_segment SEGMENT_BINARY data len]).
  { repeat constructor; cbn [seg_length]; unfold SIZE_MAX; lia. }
  pose proof (qr_generate_segments_total _ data v data_size tmp tmp_size Hsegs) as H.
  rewrite Hinit in H. destruct H as (em' & Henc & H).
  destruct (encoded_msg_init_some _ _ _ _ _ Hinit) as (_ & Hem & _ & _).
  pose proof (encode_of_version v em _ em' Hem Henc) as [_ _ _ _ _ Ever].
  destruct (qr_image_init_fits v em' data data_size Hv Ever Hd) as (qr & Hqr).
  rewrite Hqr in H. destruct H as (qr' & Hdraw & Hw).
  exists em, em', (qr_data qr'). split; [exact Hinit|]. split; [exact Henc|].
  unfold qr_generate.
  replace ((data_size <? 4071) || (tmp_size <? 3706)) with false by lia.
  replace ((v <? 1) || (v >? 40)) with false by lia.
  rewrite Hinit, Henc, Hqr, Hdraw, Hw. reflexivity.
Qed.

(** X1. With [url = NULL], a valid version and buffers of the minimum
    sizes, [qr_generate] draws a symbol exactly when the payload with its
    mode indicator, character count and terminator fits the data codewords
    of the version; a longer payload is refused with 0 and both buffers are
    left as they were. *)
Theorem qr_generate_payload_limit data data_len v data_size tmp tmp_size :
  1 <= v <= 40 -> 4071 <= data_size -> 3706 <= tmp_size ->
  0 <= data_len -> 8 * data_len + 24 <= SIZE_MAX ->
  (data_len + count_bytes v + 1 <= D v ->
   exists image tmp',
     qr_generate None data data_len v data_size tmp tmp_size
     = Some (4 * v + 17, image, tmp'))
  /\ (D v < data_len + count_bytes v + 1 ->
      qr_generate None data data_len v data_size tmp tmp_size = Some (0, data, tmp)).
Proof.
  intros Hv Hd Ht Hl Hm. split.
  - intros Hfit.
    destruct (qr_generate_byte_success data data_len v data_size tmp tmp_size
                Hv Hd Ht Hl Hfit) as (em & em' & image & _ & _ & H).
    eauto.
  - intros Hbig.
    destruct (encoded_msg_init_byte_exact data data_len v tmp tmp_size Hv Hl Hm
                ltac:(lia)) as [_ Hno].
    unfold qr_generate.
    replace ((data_size <? 4071) || (tmp_size <? 3706)) with false by lia.
    replace ((v <? 1) || (v >? 40)) with false by lia.
    rewrite Hno by (left; exact Hbig). reflexivity.
Qed.

Lemma qr_generate_payload_limit_witness :
  (6 + count_bytes 1 + 1 <= D 1 ->
   exists image tmp',
     qr_generate None hello_data 6 1 4071 hello_workspace 3706
     = Some (4 * 1 + 17, image, tmp'))
  /\ (D 1 < 6 + count_bytes 1 + 1 ->
      qr_generate None hello_data 6 1 4071 hello_workspace 3706
      = Some (0, hello_data, hello_workspace)).
Proof.
  apply (qr_generate_payload_limit hello_data 6 1 4071 hello_workspace 3706);
    unfold SIZE_MAX; lia.
Defined.

(** X2. After [qr_generate] with [url = NULL], the workspace holds the
    bit stream of the byte segment: the mode indicator 0100, the character
    count, every byte of the payload in order, each one across two bytes of
    the buffer, the terminator 0000, and the pad bytes 0xEC, 0x11 up to the
    end of the data codewords.  The error correction step has not changed
    them. *)
Theorem qr_generate_workspace_holds_payload data data_len v data_size tmp tmp_size :
  1 <= v <= 40 -> 4071 <= data_size -> 3706 <= tmp_size ->
  tmp_size <= Z.of_nat (Datatypes.length tmp) ->
  0 <= data_len -> data_len + count_bytes v + 1 <= D v ->
  (forall j, 0 <= j < data_len -> 0 <= rd data j < 256) ->
  exists image tmp',
    qr_generate None data data_len v data_size tmp tmp_size
    = Some (4 * v + 17, image, tmp')
    /\ rd tmp' 0 / 16 = MODE_BINARY
    /\ stream_count v tmp' = data_len
    /\ (forall k, 0 <= k < data_len ->
        stream_byte tmp' (count_bytes v + k) = rd data k)
    /\ rd tmp' (count_bytes v + data_len) mod 16 = MODE_STOP
    /\ (forall i, count_bytes v + data_len + 1 <= i < D v ->
        rd tmp' i = if Z.even (i - (count_bytes v + data_len + 1)) then 236 else 17).
Proof.
  intros Hv Hd Ht Htmp Hl Hfit Hbytes. layout_facts v Hv.
  assert (HD : D v <= 3706) by (unfold region in Rreg; nia).
  assert (Hc : 1 <= count_bytes v <= 2)
    by (unfold count_bytes; destruct (v <=? 9); lia).
  destruct (qr_generate_byte_success data data_len v data_size tmp tmp_size
              Hv Hd Ht Hl Hfit) as (em & em' & image & Hinit & Henc & Hgen).
  destruct (encoded_msg_init_some _ _ _ _ _ Hinit) as (_ & Hem & Hreg & Hdata).
  pose proof Hem as [_ _ _ _ _ Ever].
  assert (Hlen : D v <= Z.of_nat (Datatypes.length (em_data em)))
    by (rewrite Hdata, memset0_length; lia).
  destruct (byte_segment_bits v em data data_len Hv Hl Hfit Ever Hbytes Hlen)
    as (d & Hbits & Hld & Hmode & Hcount & Hpayload & Hstop).
  unfold encoded_msg_encode, encoded_msg_add_segments in Henc.
  rewrite Hbits in Henc.
  replace (8 * (count_bytes v + data_len + 1) / 8) with (count_bytes v + data_len + 1)
    in Henc by (Z.div_mod_to_equations; lia).
  set (pad := count_bytes v + data_len + 1) in *.
  set (padded := with_data em (add_padding (em_version em) pad d)) in *.
  assert (Hem' : em' = encoded_msg_compute_error_code padded) by congruence.
  subst em'. clear Henc.
  assert (Hemp : em_of_version v padded) by (apply with_data_of_version, Hem).
  destruct (compute_error_code_frame v padded Hv Hemp) as [_ Hframe].
  assert (Hmax : qr_version_max_data (em_version em) = D v)
    by (rewrite Ever; exact Lmax).
  assert (Hrd : forall i, 0 <= i < D v ->
            rd (em_data (encoded_msg_compute_error_code padded)) i
            = if (pad <=? i) then (if Z.even (i - pad) then 236 else 17) else rd d i).
  { intros i Hi. rewrite Hframe by lia. unfold padded. cbn [with_data em_data].
    rewrite add_padding_spec by (rewrite ?Hmax; lia). rewrite Hmax.
    replace (i <? D v) with true by lia. rewrite andb_true_r. reflexivity. }
  exists image, (em_data (encoded_msg_compute_error_code padded)).
  split; [exact Hgen|].
  split; [rewrite Hrd by lia; replace (pad <=? 0) with false by lia; exact Hmode|].
  split.
  { rewrite <- Hcount. unfold stream_count, stream_byte.
    change (0 + 1) with 1. change (1 + 1) with 2.
    unfold count_bytes in *. destruct (v <=? 9).
    - rewrite (Hrd 0), (Hrd 1) by lia.
      replace (pad <=? 0) with false by lia. replace (pad <=? 1) with false by lia.
      reflexivity.
    - rewrite (Hrd 0), (Hrd 1), (Hrd 2) by lia.
      replace (pad <=? 0) with false by lia. replace (pad <=? 1) with false by lia.
      replace (pad <=? 2) with false by lia. reflexivity. }
  split.
  { intros k Hk. rewrite <- (Hpayload k Hk). unfold stream_byte.
    rewrite !Hrd by lia.
    replace (pad <=? count_bytes v + k) with false by lia.
    replace (pad <=? count_bytes v + k + 1) with false by lia. reflexivity. }
  split.
  { rewrite Hrd by lia. replace (pad <=? count_bytes v + data_len) with false by lia.
    exact Hstop. }
  intros i Hi. rewrite Hrd by lia. replace (pad <=? i) with true by lia. reflexivity.
Qed.

Lemma qr_generate_workspace_holds_payload_witness :
  exists image tmp',
    qr_generate None hello_data 6 1 4071 hello_workspace 3706
    = Some (4 * 1 + 17, image, tmp')
    /\ rd tmp' 0 / 16 = MODE_BINARY
    /\ stream_count 1 tmp' = 6
    /\ (forall k, 0 <= k < 6 -> stream_byte tmp' (count_bytes 1 + k) = rd hello_data k)
    /\ rd tmp' (count_bytes 1 + 6) mod 16 = MODE_STOP
    /\ (forall i, count_bytes 1 + 6 + 1 <= i < D 1 ->
        rd tmp' i = if Z.even (i - (count_bytes 1 + 6 + 1)) then 236 else 17).
Proof.
  apply (qr_generate_workspace_holds_payload hello_data 6 1 4071 hello_workspace 3706);
    try lia.
  - vm_compute. intros H. discriminate H.
  - vm_compute. intros H. discriminate H.
  - intros j Hj.
    assert (H : j = 0 \/ j = 1 \/ j = 2 \/ j = 3 \/ j = 4 \/ j = 5) by lia.
    destruct H as [->|[->|[->|[->|[->| ->]]]]]; vm_compute;
      (split; [intros H; discriminate H|reflexivity]).
Defined.

End StreamFacts.

(** ** The frame of the fitter and its way to the screen *)

Module DriverFacts.
Import QrGenerator Reader Spec BufferFacts VersionFacts InterleaveFacts EncodeFacts
  PainterFacts GeneratorClaims StreamFacts Qrcon FitterFacts DriverClaims.

Section Frame.

Variable CCtx : Type.
Variable compress : CCtx -> Z -> list Z -> Z -> Z -> CCtx * list Z * Z.
Variable isError : Z -> bool.

Lemma compress_into_dst c dst cap src n level :
  let dst' := snd (fst (compress_into compress c dst cap src n level)) in
  Datatypes.length dst' = Datatypes.length dst
  /\ forall i, 0 <= i < QR_COMPRESSION_HEADER_SIZE -> rd dst' i = rd dst i.
Proof.
  unfold compress_into.
  destruct (compress c cap src n level) as [[c' out] code]. cbn [fst snd].
  split; [apply memcpy_at_length|].
  intros i Hi. apply rd_memcpy_at_other; [lia|]. left.
  unfold QR_COMPRESSION_HEADER_SIZE in *. lia.
Qed.

Lemma search_dst_length src level target : forall fuel st st',
  search compress isError fuel src level target st = Some st' ->
  Datatypes.length (s_dst st') = Datatypes.length (s_dst st).
Proof.
  induction fuel as [|fuel IH]; intros st st' H; [discriminate|].
  rewrite search_unfold in H.
  destruct (low st <=? high st); [|injection H as <-; reflexivity].
  cbv zeta in H.
  destruct (_ =? 0); [injection H as <-; reflexivity|].
  match type of H with
  | context [compress_into compress ?c ?d ?cap ?s ?n ?l] =>
      pose proof (compress_into_dst c d cap s n l) as [Hl _];
      destruct (compress_into compress c d cap s n l) as [[c1 d1] code]
  end.
  cbn [fst snd] in Hl.
  destruct (isError code); [|destruct (_ <=? target)];
    apply IH in H; cbn [s_dst] in H; congruence.
Qed.

(** A nonzero return of the fitter is within the capacity of the version. *)
Lemma fitter_bounds ver level0 c src src_size dst dst_capacity :
  0 <= src_size < SIZE_MAX ->
  exists r,
    qrcon_compress_data compress isError ver level0 c src src_size dst dst_capacity
    = Some r
    /\ (fit_ret r <> 0 ->
        1 <= ver <= 40
        /\ 1 <= fit_processed_size r <= src_size
        /\ 0 <= fit_ret r <= qr_max_data_size ver 0
        /\ fit_ret r <= dst_capacity).
Proof.
  intros Hs.
  destruct (Z_le_gt_dec 1 ver) as [H1|H1]; [destruct (Z_le_gt_dec ver 40) as [H2|H2]|].
  2,3: rewrite fitter_invalid by lia; eexists; split; [reflexivity|];
       intros H; contradiction H; reflexivity.
  assert (Hv : 1 <= ver <= 40) by lia.
  destruct (target_capacity_valid ver dst_capacity Hv) as (Hcap & Hd & Ht1 & Ht2).
  layout_facts ver Hv.
  destruct (Z_le_gt_dec (target_capacity_of ver dst_capacity) QR_COMPRESSION_HEADER_SIZE)
    as [Ht|Ht].
  { rewrite fitter_invalid by lia. eexists. split; [reflexivity|].
    intros H. contradiction H. reflexivity. }
  destruct (fitter_valid CCtx compress isError ver level0 c src src_size dst dst_capacity
              Hv Hs ltac:(lia))
    as (st & Hst & Hb & Hrec & ->).
  eexists. split; [reflexivity|]. unfold final_pass.
  destruct (best_size st >? 0) eqn:Eb;
    [|intros H; contradiction H; reflexivity].
  destruct (compress_into compress _ _ _ _ _ _) as [[c1 d1] code].
  destruct (isError code) eqn:Ee; [intros H; contradiction H; reflexivity|].
  destruct (negb (code =? best_compressed_payload st)
            && (size_t (QR_COMPRESSION_HEADER_SIZE + code)
                >? target_capacity_of ver dst_capacity)) eqn:Ec;
    [intros H; contradiction H; reflexivity|].
  cbn [fit_ret fit_processed_size]. intros _.
  pose proof (size_t_range (QR_COMPRESSION_HEADER_SIZE + code)) as Hr.
  assert (Hfit : size_t (QR_COMPRESSION_HEADER_SIZE + code)
                 <= target_capacity_of ver dst_capacity).
  { destruct (code =? best_compressed_payload st) eqn:Eq.
    - destruct Hrec as [H0|[_ Hfit]]; [lia|].
      replace code with (best_compressed_payload st) by lia. exact Hfit.
    - cbn [negb andb] in Ec. lia. }
  repeat split; lia.
Qed.

(** The bytes of a [u32] store, read back. *)
Lemma le32_value x :
  0 <= x < 2 ^ 32 ->
  nth 0 (le32 x) 0 + 2 ^ 8 * nth 1 (le32 x) 0 + 2 ^ 16 * nth 2 (le32 x) 0
  + 2 ^ 24 * nth 3 (le32 x) 0 = x.
Proof.
  intros Hx. unfold le32, u32. cbn [nth].
  change (2 ^ 32) with 4294967296 in Hx.
  rewrite (Z.mod_small x 4294967296) by lia.
  change (2 ^ 8) with 256. change (2 ^ 16) with 65536. change (2 ^ 24) with 16777216.
  Z.div_mod_to_equations. lia.
Qed.

Lemma header_bytes dst magic size :
  8 <= Z.of_nat (Datatypes.length dst) ->
  let dst' := memcpy_at 4 (le32 size) (memcpy_at 0 (le32 magic) dst) in
  Datatypes.length dst' = Datatypes.length dst
  /\ (forall j, 0 <= j < 4 -> rd dst' j = nth (Z.to_nat j) (le32 magic) 0)
  /\ (forall j, 0 <= j < 4 -> rd dst' (4 + j) = nth (Z.to_nat j) (le32 size) 0).
Proof.
  intros Hl dst'. unfold dst'. split; [rewrite !memcpy_at_length; reflexivity|]. split.
  - intros j Hj. rewrite rd_memcpy_at_other by (cbn [Datatypes.length le32]; lia).
    replace j with (Z.of_nat (0 + Z.to_nat j)) at 1 by lia.
    apply rd_memcpy_at_same; cbn [Datatypes.length le32]; lia.
  - intros j Hj. replace (4 + j) with (Z.of_nat (4 + Z.to_nat j)) by lia.
    apply rd_memcpy_at_same; rewrite ?memcpy_at_length; cbn [Datatypes.length le32]; lia.
Qed.

(** X8. The fitter always returns, and a nonzero return comes with a
    frame in the destination: the magic bytes "DTSZ" (the little-endian
    store of 0x5A535444), then the consumed length as a little-endian
    [u32]; the consumed length is between 1 and [src_size], and the
    returned size exceeds neither the byte capacity of the configured
    version nor the capacity of the destination. *)
Theorem fitter_writes_frame ver level0 c src src_size dst dst_capacity :
  0 <= src_size < 2 ^ 32 -> 8 <= Z.of_nat (Datatypes.length dst) ->
  exists r,
    qrcon_compress_data compress isError ver level0 c src src_size dst dst_capacity
    = Some r
    /\ Datatypes.length (fit_dst r) = Datatypes.length dst
    /\ (fit_ret r <> 0 ->
        map (rd (fit_dst r)) [0; 1; 2; 3] = [68; 84; 83; 90]
        /\ rd (fit_dst r) 4 + 2 ^ 8 * rd (fit_dst r) 5 + 2 ^ 16 * rd (fit_dst r) 6
           + 2 ^ 24 * rd (fit_dst r) 7 = fit_processed_size r
        /\ 1 <= fit_processed_size r <= src_size
        /\ 1 <= ver <= 40
        /\ 0 <= fit_ret r <= qr_max_data_size ver 0
        /\ fit_ret r <= dst_capacity).
Proof.
  intros Hs Hl. change (2 ^ 32) with 4294967296 in Hs.
  destruct (Z_le_gt_dec 1 ver) as [H1|H1]; [destruct (Z_le_gt_dec ver 40) as [H2|H2]|].
  2,3: rewrite fitter_invalid by lia; eexists; split; [reflexivity|];
       split; [reflexivity|]; intros H; contradiction H; reflexivity.
  assert (Hv : 1 <= ver <= 40) by lia.
  destruct (target_capacity_valid ver dst_capacity Hv) as (Hcap & Hd & Ht1 & Ht2).
  layout_facts ver Hv.
  destruct (Z_le_gt_dec (target_capacity_of ver dst_capacity) QR_COMPRESSION_HEADER_SIZE)
    as [Ht|Ht].
  { rewrite fitter_invalid by lia. eexists. split; [reflexivity|].
    split; [reflexivity|]. intros H. contradiction H. reflexivity. }
  destruct (fitter_valid CCtx compress isError ver level0 c src src_size dst dst_capacity
              Hv ltac:(unfold SIZE_MAX; lia) ltac:(lia))
    as (st & Hst & Hb & Hrec & ->).
  pose proof (search_dst_length _ _ _ _ _ _ Hst) as Hsl. cbn [s_dst] in Hsl.
  eexists. split; [reflexivity|]. unfold final_pass.
  destruct (best_size st >? 0) eqn:Eb.
  2:{ cbn [fit_dst fit_ret]. split; [exact Hsl|]. intros H. contradiction H. reflexivity. }
  destruct (header_bytes (s_dst st) QR_COMPRESSION_MAGIC (best_size st) ltac:(lia))
    as (Hhl & Hmagic & Hsize).
  set (hdr := memcpy_at 4 (le32 (best_size st))
                (memcpy_at 0 (le32 QR_COMPRESSION_MAGIC) (s_dst st))) in *.
  match goal with
  | |- context [compress_into compress ?c0 hdr ?cap ?s ?n ?l] =>
      pose proof (compress_into_dst c0 hdr cap s n l) as [Hcl Hcf];
      destruct (compress_into compress c0 hdr cap s n l) as [[c1 d1] code]
  end.
  cbn [fst snd] in Hcl, Hcf. unfold QR_COMPRESSION_HEADER_SIZE in Hcf.
  destruct (isError code) eqn:Ee.
  { cbn [fit_dst fit_ret]. split; [congruence|]. intros H. contradiction H. reflexivity. }
  destruct (negb (code =? best_compressed_payload st)
            && (size_t (QR_COMPRESSION_HEADER_SIZE + code)
                >? target_capacity_of ver dst_capacity)) eqn:Ec.
  { cbn [fit_dst fit_ret]. split; [congruence|]. intros H. contradiction H. reflexivity. }
  cbn [fit_dst fit_ret fit_processed_size]. split; [congruence|]. intros _.
  pose proof (size_t_range (QR_COMPRESSION_HEADER_SIZE + code)) as Hr.
  assert (Hfit : size_t (QR_COMPRESSION_HEADER_SIZE + code)
                 <= target_capacity_of ver dst_capacity).
  { destruct (code =? best_compressed_payload st) eqn:Eq.
    - destruct Hrec as [H0|[_ Hfit]]; [lia|].
      replace code with (best_compressed_payload st) by lia. exact Hfit.
    - cbn [negb andb] in Ec. lia. }
  split.
  { cbn [map]. rewrite !Hcf by lia.
    rewrite (Hmagic 0), (Hmagic 1), (Hmagic 2), (Hmagic 3) by lia.
    reflexivity. }
  split.
  { rewrite !Hcf by lia.
    pose proof (Hsize 0 ltac:(lia)) as Hs0. pose proof (Hsize 1 ltac:(lia)) as Hs1.
    pose proof (Hsize 2 ltac:(lia)) as Hs2. pose proof (Hsize 3 ltac:(lia)) as Hs3.
    change (4 + 0) with 4 in Hs0. change (4 + 1) with 5 in Hs1.
    change (4 + 2) with 6 in Hs2. change (4 + 3) with 7 in Hs3.
    rewrite Hs0, Hs1, Hs2, Hs3.
    apply le32_value. change (2 ^ 32) with 4294967296. lia. }
  repeat split; try lia.
Qed.

End Frame.

Lemma fitter_writes_frame_witness :
  exists r,
    qrcon_compress_data store_compressCCtx store_isError 1 3 tt sample_src 20
      sample_dst 32 = Some r
    /\ Datatypes.length (fit_dst r) = Datatypes.length sample_dst
    /\ (fit_ret r <> 0 ->
        map (rd (fit_dst r)) [0; 1; 2; 3] = [68; 84; 83; 90]
        /\ rd (fit_dst r) 4 + 2 ^ 8 * rd (fit_dst r) 5 + 2 ^ 16 * rd (fit_dst r) 6
           + 2 ^ 24 * rd (fit_dst r) 7 = fit_processed_size r
        /\ 1 <= fit_processed_size r <= 20
        /\ 1 <= 1 <= 40
        /\ 0 <= fit_ret r <= qr_max_data_size 1 0
        /\ fit_ret r <= 32).
Proof.
  apply (fitter_writes_frame unit store_compressCCtx store_isError
           1 3 tt sample_src 20 sample_dst 32).
  - change (2 ^ 32) with 4294967296. lia.
  - cbn. lia.
Defined.

Section Screen.

Variable CCtx : Type.
Variable compress : CCtx -> Z -> list Z -> Z -> Z -> CCtx * list Z * Z.
Variable isError : Z -> bool.
Variable FB : Type.
Variable blit : FB -> Z -> list Z -> FB.

(** X9. With a framebuffer, a pass of the history loop draws one
    symbol of the configured version for every frame that the fitter
    accepts, [qr_generate] never refusing it, and draws nothing when the
    fitter fails. *)
Theorem accepted_frame_is_drawn (g : @qrcon_state CCtx FB) (f : FB) :
  0 <= kmsg_history_pos g < kmsg_history_len g ->
  kmsg_history_len g <= KMSG_HISTORY_BUF_SIZE ->
  fb g = Some f ->
  exists r g',
    history_fit compress isError g = Some r
    /\ history_step compress isError blit g = Some g'
    /\ if fit_ret r =? 0 then fb g' = Some f
       else 1 <= qr_version g <= 40
            /\ Qrcon.qr_width g' = 4 * qr_version g + 17
            /\ exists image, fb g' = Some (blit f (4 * qr_version g + 17) image).
Proof.
  intros Hp Hl Hfb. unfold history_step.
  assert (Hk : KMSG_HISTORY_BUF_SIZE < SIZE_MAX) by reflexivity.
  assert (Hrem : history_remaining g = kmsg_history_len g - kmsg_history_pos g)
    by (unfold history_remaining; apply size_t_small; lia).
  destruct (fitter_bounds CCtx compress isError
              (qr_version g) (compression_level g) (cctx g)
              (skipn (Z.to_nat (kmsg_history_pos g)) (kmsg_history_buf g))
              (history_remaining g)
              (qr_payload_and_image_buf g) QR_PAYLOAD_AND_IMAGE_BUF_SIZE
              ltac:(lia)) as (r & Hr & Hnz).
  fold (history_fit compress isError g) in Hr. rewrite Hr. exists r. cbv zeta.
  destruct (fit_ret r =? 0) eqn:E0.
  - eexists. split; [reflexivity|]. split; [reflexivity|]. exact Hfb.
  - destruct (Hnz ltac:(lia)) as (Hv & Hps & Hret & _).
    layout_facts (qr_version g) Hv. rewrite Lcap in Hret.
    unfold qrcon_render_qr.
    cbn [fb set_payload_len set_fit qr_payload_len qr_payload_and_image_buf
         qr_tmp_workspace Qrcon.qr_version].
    rewrite Hfb, E0. rewrite u8_small by lia.
    assert (Hc : 1 <= count_bytes (qr_version g) <= 2)
      by (unfold count_bytes; destruct (qr_version g <=? 9); lia).
    destruct (qr_generate_byte_success (fit_dst r) (fit_ret r) (qr_version g)
                QR_PAYLOAD_AND_IMAGE_BUF_SIZE (qr_tmp_workspace g)
                QR_TMP_WORKSPACE_SIZE Hv)
      as (em & em' & image & _ & _ & ->);
      try (unfold QR_PAYLOAD_AND_IMAGE_BUF_SIZE, QR_TMP_WORKSPACE_SIZE; lia).
    replace (4 * qr_version g + 17 =? 0) with false by lia.
    eexists. split; [reflexivity|]. split; [reflexivity|].
    cbn [fb Qrcon.qr_width set_history set_render].
    split; [exact Hv|]. split; [reflexivity|]. exists image. reflexivity.
Qed.

(** X10. [qrcon_process_history] returns for every history that the
    buffer can hold.  An empty history leaves the state as it is; otherwise
    the history is discarded on return ([kmsg_history_len] and
    [kmsg_history_pos] are 0), after the loop with [qr_payload_len] reset
    for a valid version, and at once, without any other change of state,
    for a version outside 1..40. *)
Theorem qrcon_process_history_discards (g : @qrcon_state CCtx FB) :
  0 <= kmsg_history_len g <= KMSG_HISTORY_BUF_SIZE ->
  exists g',
    qrcon_process_history compress isError blit g = Some g'
    /\ (kmsg_history_len g = 0 -> g' = g)
    /\ (0 < kmsg_history_len g ->
        kmsg_history_len g' = 0 /\ kmsg_history_pos g' = 0
        /\ (1 <= qr_version g <= 40 -> qr_payload_len g' = 0)
        /\ (~ 1 <= qr_version g <= 40 -> g' = set_history g 0 0)).
Proof.
  intros Hl. unfold qrcon_process_history.
  destruct (kmsg_history_len g =? 0) eqn:E0.
  { exists g. split; [reflexivity|]. split; [reflexivity|]. lia. }
  destruct ((qr_version g <? 1) || (qr_version g >? 40)) eqn:Ev.
  { eexists. split; [reflexivity|]. split; [lia|]. intros _.
    cbn [kmsg_history_len kmsg_history_pos set_history].
    repeat split; try reflexivity. lia. }
  assert (Hv : 1 <= qr_version g <= 40) by lia.
  destruct (qr_max_data_size _ 0 =? 0) eqn:Ec.
  { layout_facts (qr_version g) Hv. rewrite u8_small in Ec by lia. lia. }
  match goal with
  | |- context [set_history g (kmsg_history_len g) ?p] =>
      assert (Hp : 0 <= p <= kmsg_history_len g)
  end.
  { unfold QRCON_RECENT_ONLY_SIZE, KMSG_HISTORY_BUF_SIZE in *.
    destruct (_ && _) eqn:E; [|lia].
    rewrite size_t_small by (unfold SIZE_MAX; lia).
    destruct (_ >=? _); lia. }
  match goal with
  | |- context [history_loop compress isError blit ?n ?g0] =>
      destruct (history_loop_total CCtx compress isError FB blit n g0)
        as (g' & -> & _)
  end; cbn [kmsg_history_len kmsg_history_pos set_history]; try lia.
  eexists. split; [reflexivity|]. split; [lia|]. intros _.
  cbn [kmsg_history_len kmsg_history_pos qr_payload_len set_history set_payload_len].
  repeat split; try reflexivity. intros Hn. lia.
Qed.

End Screen.

Lemma qrcon_process_history_discards_witness :
  exists g',
    qrcon_process_history store_compressCCtx store_isError count_blit sample_state
    = Some g'
    /\ (kmsg_history_len sample_state = 0 -> g' = sample_state)
    /\ (0 < kmsg_history_len sample_state ->
        kmsg_history_len g' = 0 /\ kmsg_history_pos g' = 0
        /\ (1 <= qr_version sample_state <= 40 -> qr_payload_len g' = 0)
        /\ (~ 1 <= qr_version sample_state <= 40 -> g' = set_history sample_state 0 0)).
Proof.
  apply (qrcon_process_history_discards unit store_compressCCtx store_isError (list Z)
           count_blit sample_state).
  split; [cbn; lia|vm_compute; intros H; discriminate H].
Defined.

Lemma accepted_frame_is_drawn_witness :
  exists r g',
    history_fit store_compressCCtx store_isError sample_state = Some r
    /\ history_step store_compressCCtx store_isError count_blit sample_state = Some g'
    /\ if fit_ret r =? 0 then fb g' = Some []
       else 1 <= qr_version sample_state <= 40
            /\ Qrcon.qr_width g' = 4 * qr_version sample_state + 17
            /\ exists image,
                 fb g' = Some (count_blit [] (4 * qr_version sample_state + 17) image).
Proof.
  apply (accepted_frame_is_drawn unit store_compressCCtx store_isError (list Z)
           count_blit sample_state []).
  - cbn. lia.
  - vm_compute. intros H. discriminate H.
  - reflexivity.
Defined.

End DriverFacts.

(** ** The version search *)

Module VersionSearchFacts.
Import QrGenerator QrVersionSearch Reader Spec BufferFacts VersionFacts InterleaveFacts
  EncodeFacts.

(** For a valid version and a buffer that holds the whole message,
    [encoded_msg_init] refuses the segments exactly when the capacity test
    of the version search fails. *)
Lemma encoded_msg_init_capacity_test segs v tmp tmp_size :
  1 <= v <= 40 -> segs <> [] -> region v <= tmp_size ->
  let total_bits :=
    fold_left (fun acc seg => size_t (acc + qr_segment_total_size_bits seg (mk_version v)))
      segs 0 in
  encoded_msg_init segs v tmp tmp_size = None
  <-> (size_t (qr_version_max_data (mk_version v) * 8) >=? size_t (total_bits + 4)) = false.
Proof.
  intros Hv Hne Ht total_bits. layout_facts v Hv.
  assert (HD : 0 < D v <= 3706) by (unfold region in Rreg; nia).
  assert (Hreg : 0 < region v) by (unfold region; nia).
  unfold encoded_msg_init. fold total_bits.
  replace ((Z.of_nat (Datatypes.length segs) =? 0) || (tmp_size =? 0)) with false.
  2:{ destruct segs; [contradiction Hne; reflexivity|]. cbn [Datatypes.length]. lia. }
  replace ((v <? 1) || (v >? 40)) with false by lia.
  rewrite Lmax, Lec, Lg1, Lg2.
  rewrite (size_t_small (D v + _)) by (unfold SIZE_MAX, region, D in *; nia).
  fold (region v). replace (tmp_size <? region v) with false by lia.
  destruct (size_t (total_bits + 4) >? size_t (D v * 8)) eqn:E.
  - split; [intros _; lia|reflexivity].
  - split; [discriminate|intros H; lia].
Qed.

Lemma version_search_spec segs : forall n v,
  1 <= v -> v + Z.of_nat n = 41 ->
  let found := version (version_search n v segs) in
  let fits := fun v' =>
    size_t (qr_version_max_data (mk_version v') * 8)
    >=? size_t (fold_left
                  (fun acc seg =>
                     size_t (acc + qr_segment_total_size_bits seg (mk_version v')))
                  segs 0 + 4) in
  (found = 0 /\ forall v', v <= v' <= 40 -> fits v' = false)
  \/ (v <= found <= 40 /\ fits found = true
      /\ forall v', v <= v' < found -> fits v' = false).
Proof.
  induction n as [|n IH]; intros v Hv Hn found fits.
  - left. split; [reflexivity|]. intros v' Hv'. lia.
  - unfold found. cbn [version_search]. rewrite u8_small by lia.
    fold (fits v). destruct (fits v) eqn:Ef.
    + right. cbn [version]. split; [lia|]. split; [exact Ef|]. intros v' Hv'. lia.
    + rewrite size_t_small by (unfold SIZE_MAX; lia).
      destruct (IH (v + 1) ltac:(lia) ltac:(lia)) as [[H0 Hnone]|(Hr & Hfit & Hnone)].
      * left. split; [exact H0|]. intros v' Hv'.
        destruct (Z.eq_dec v' v) as [->|Hne]; [exact Ef|]. apply Hnone. lia.
      * right. split; [lia|]. split; [exact Hfit|]. intros v' Hv'.
        destruct (Z.eq_dec v' v) as [->|Hne]; [exact Ef|]. apply Hnone. lia.
Qed.

(** X11. [qr_version_from_segments] returns the smallest version in
    1..40 whose data codewords hold the bits of the segments and the
    terminator, and version 0 when no version does.  For a segment list
    that is not empty this is the test of [encoded_msg_init]: given a
    buffer that holds the encoded message, [encoded_msg_init] accepts the
    segments for the version returned and refuses them for every smaller
    version, and it refuses them for every version when 0 is returned.
    For the empty list the search returns version 1, although
    [encoded_msg_init] refuses an empty list for every version. *)
Theorem qr_version_from_segments_smallest segs :
  let found := version (qr_version_from_segments segs) in
  let fits := fun v =>
    size_t (qr_version_max_data (mk_version v) * 8)
    >=? size_t (fold_left
                  (fun acc seg =>
                     size_t (acc + qr_segment_total_size_bits seg (mk_version v)))
                  segs 0 + 4) in
  ((found = 0 /\ forall v, 1 <= v <= 40 -> fits v = false)
   \/ (1 <= found <= 40 /\ fits found = true
       /\ forall v, 1 <= v < found -> fits v = false))
  /\ (segs <> [] ->
      (found = 0
       /\ forall v tmp tmp_size, 1 <= v <= 40 -> region v <= tmp_size ->
            encoded_msg_init segs v tmp tmp_size = None)
      \/ (1 <= found <= 40
          /\ (forall tmp tmp_size, region found <= tmp_size ->
                encoded_msg_init segs found tmp tmp_size <> None)
          /\ forall v tmp tmp_size, 1 <= v < found -> region v <= tmp_size ->
               encoded_msg_init segs v tmp tmp_size = None))
  /\ (segs = [] ->
      found = 1
      /\ forall v tmp tmp_size, encoded_msg_init segs v tmp tmp_size = None).
Proof.
  intros found fits.
  pose proof (version_search_spec segs 40 1 ltac:(lia) ltac:(lia)) as H.
  cbv zeta in H.
  change (version (version_search 40 1 segs)) with found in H.
  split; [exact H|]. split.
  - intros Hne. destruct H as [[H0 Hnone]|(Hr & Hfit & Hnone)].
    + left. split; [exact H0|]. intros v tmp tmp_size Hv Ht.
      apply encoded_msg_init_capacity_test; try assumption. apply Hnone. lia.
    + right. split; [exact Hr|]. split.
      * intros tmp tmp_size Ht H.
        apply encoded_msg_init_capacity_test in H; try assumption; try lia.
      * intros v tmp tmp_size Hv Ht.
        apply encoded_msg_init_capacity_test; try assumption; try lia.
        apply Hnone. lia.
  - intros He. unfold found. rewrite He. split; [vm_compute; reflexivity|].
    intros v tmp tmp_size. reflexivity.
Qed.

Lemma qr_version_from_segments_smallest_witness :
  version (qr_version_from_segments hello_segments) = 1
  /\ (forall tmp tmp_size, region 1 <= tmp_size ->
        encoded_msg_init hello_segments 1 tmp tmp_size <> None)
  /\ version (qr_version_from_segments []) = 1
  /\ encoded_msg_init [] 1 hello_tmp 26 = None.
Proof.
  pose proof (qr_version_from_segments_smallest hello_segments) as H.
  pose proof (qr_version_from_segments_smallest []) as H0.
  cbv zeta in H, H0.
  destruct H as (_ & H & _). destruct H0 as (_ & _ & H0).
  specialize (H ltac:(discriminate)). destruct (H0 eq_refl) as [H1 H2].
  assert (Hf : version (qr_version_from_segments hello_segments) = 1)
    by (vm_compute; reflexivity).
  rewrite Hf in H.
  destruct H as [[H _]|(_ & H & _)]; [discriminate H|].
  split; [exact Hf|]. split; [exact H|]. split; [exact H1|apply H2].
Defined.

End VersionSearchFacts.

(** ** The Reed-Solomon parity of the blocks *)

Module ReedSolomonFacts.
Import QrGenerator Reader ReedSolomon Spec BufferFacts VersionFacts EncodeFacts
  PixelFacts StreamFacts.

(** *** The field *)

Lemma bytes_forall (P : Z -> bool) :
  forallb P bytes = true -> forall a, 0 <= a < 256 -> P a = true.
Proof.
  intros H a Ha. rewrite forallb_forall in H. apply H.
  unfold bytes. apply in_map_iff. exists (Z.to_nat a). split; [lia|].
  apply in_seq. lia.
Qed.

Lemma gf_double_checked : forall a, 0 <= a < 256 -> check_gf_double a = true.
Proof. apply bytes_forall. vm_compute. reflexivity. Qed.

Lemma tables_checked : forall a, 0 <= a < 256 -> check_tables a = true.
Proof. apply bytes_forall. vm_compute. reflexivity. Qed.

Lemma generator_checked : forall v, 1 <= v <= 40 -> check_generator v = true.
Proof. apply versions_forall. vm_compute. reflexivity. Qed.

Lemma gf_double_facts a b :
  0 <= a < 256 -> 0 <= b < 256 ->
  0 <= gf_double a < 256 /\ 0 <= Z.lxor a b < 256
  /\ gf_double (Z.lxor a b) = Z.lxor (gf_double a) (gf_double b).
Proof.
  intros Ha Hb.
  pose proof (gf_double_checked a Ha) as H. unfold check_gf_double in H.
  apply andb_prop in H. destruct H as [H1 H2].
  pose proof (bytes_forall (check_gf_double_pair a) H2 b Hb) as H3.
  unfold check_gf_double_pair in H3.
  assert (0 <= Z.lxor a b) by (apply Z.lxor_nonneg; lia).
  lia.
Qed.

Lemma gf_double_byte a : 0 <= a < 256 -> 0 <= gf_double a < 256.
Proof. intros Ha. apply (gf_double_facts a a Ha Ha). Qed.

Lemma lxor_byte a b : 0 <= a < 256 -> 0 <= b < 256 -> 0 <= Z.lxor a b < 256.
Proof. intros Ha Hb. apply (gf_double_facts a b Ha Hb). Qed.

Lemma gf_double_lxor a b :
  0 <= a < 256 -> 0 <= b < 256 ->
  gf_double (Z.lxor a b) = Z.lxor (gf_double a) (gf_double b).
Proof. intros Ha Hb. apply (gf_double_facts a b Ha Hb). Qed.

Lemma gf_scale_byte a n : 0 <= a < 256 -> 0 <= gf_scale a n < 256.
Proof.
  intros Ha. induction n as [|n IH]; cbn [gf_scale]; [exact Ha|].
  apply gf_double_byte, IH.
Qed.

Lemma gf_scale_lxor a b n :
  0 <= a < 256 -> 0 <= b < 256 ->
  gf_scale (Z.lxor a b) n = Z.lxor (gf_scale a n) (gf_scale b n).
Proof.
  intros Ha Hb. induction n as [|n IH]; cbn [gf_scale]; [reflexivity|].
  rewrite IH. apply gf_double_lxor; apply gf_scale_byte; assumption.
Qed.

Lemma gf_scale_0 n : gf_scale 0 n = 0.
Proof. induction n as [|n IH]; cbn [gf_scale]; [reflexivity|]. rewrite IH. reflexivity. Qed.

Lemma gf_scale_add a m n : gf_scale (gf_scale a m) n = gf_scale a (n + m).
Proof.
  induction n as [|n IH]; cbn [gf_scale plus]; [reflexivity|]. rewrite IH. reflexivity.
Qed.

(** *** The tables *)

Lemma tables_facts a :
  0 <= a < 256 ->
  0 <= rd EXP_TABLE a < 256
  /\ rd EXP_TABLE ((a + 1) mod 255) = gf_double (rd EXP_TABLE a)
  /\ (a <> 0 -> 0 <= rd LOG_TABLE a < 255 /\ rd EXP_TABLE (rd LOG_TABLE a) = a).
Proof.
  intros Ha. pose proof (tables_checked a Ha) as H. unfold check_tables in H.
  repeat match goal with
         | H : _ && _ = true |- _ => apply andb_prop in H; destruct H
         end.
  match goal with H : _ || _ = true |- _ => apply orb_prop in H; destruct H as [H|H] end;
    repeat split; lia.
Qed.

(** [EXP_TABLE] holds the powers of the generator. *)
Lemma exp_scale a m :
  0 <= a ->
  rd EXP_TABLE ((a + Z.of_nat m) mod 255) = gf_scale (rd EXP_TABLE (a mod 255)) m.
Proof.
  intros Ha. induction m as [|m IH]; cbn [gf_scale].
  - rewrite Z.add_0_r. reflexivity.
  - rewrite <- IH.
    replace (a + Z.of_nat (S m)) with ((a + Z.of_nat m) + 1) by lia.
    rewrite <- Z.add_mod_idemp_l by lia.
    apply tables_facts.
    pose proof (Z.mod_pos_bound (a + Z.of_nat m) 255). lia.
Qed.

Lemma exp_power m : rd EXP_TABLE (Z.of_nat m mod 255) = gf_scale 1 m.
Proof. apply (exp_scale 0 m). lia. Qed.

(** [LOG_TABLE] holds the logarithm of every byte but 0. *)
Lemma log_power t :
  0 < t < 256 -> t = gf_scale 1 (Z.to_nat (rd LOG_TABLE t)).
Proof.
  intros Ht. destruct (tables_facts t ltac:(lia)) as (_ & _ & Hl).
  destruct (Hl ltac:(lia)) as [Hr He].
  rewrite <- exp_power. rewrite Z2Nat.id by lia. rewrite Z.mod_small by lia.
  symmetry. exact He.
Qed.

(** *** Sums *)

Lemma xor_sum_ext f g : forall n lo,
  (forall k, lo <= k < lo + Z.of_nat n -> f k = g k) ->
  xor_sum f lo n = xor_sum g lo n.
Proof.
  induction n as [|n IH]; intros lo H; cbn [xor_sum]; [reflexivity|].
  rewrite (H lo) by lia. rewrite (IH (lo + 1)); [reflexivity|].
  intros k Hk. apply H. lia.
Qed.

Lemma xor_sum_zero : forall n lo, xor_sum (fun _ => 0) lo n = 0.
Proof. induction n as [|n IH]; intros lo; cbn [xor_sum]; [reflexivity|]. rewrite IH. reflexivity. Qed.

Lemma xor_sum_lxor f g : forall n lo,
  xor_sum (fun k => Z.lxor (f k) (g k)) lo n
  = Z.lxor (xor_sum f lo n) (xor_sum g lo n).
Proof.
  induction n as [|n IH]; intros lo; cbn [xor_sum]; [reflexivity|].
  rewrite IH. rewrite !Z.lxor_assoc. f_equal.
  rewrite <- !Z.lxor_assoc. f_equal. apply Z.lxor_comm.
Qed.

Lemma xor_sum_app f : forall m n lo,
  xor_sum f lo (m + n)
  = Z.lxor (xor_sum f lo m) (xor_sum f (lo + Z.of_nat m) n).
Proof.
  induction m as [|m IH]; intros n lo; cbn [xor_sum plus].
  - rewrite Z.add_0_r. reflexivity.
  - rewrite IH. rewrite Z.lxor_assoc. do 3 f_equal. lia.
Qed.

Lemma xor_sum_shift f d : forall n lo,
  xor_sum f (lo + d) n = xor_sum (fun k => f (k + d)) lo n.
Proof.
  induction n as [|n IH]; intros lo; cbn [xor_sum]; [reflexivity|].
  f_equal. rewrite <- IH. f_equal. lia.
Qed.

Lemma xor_sum_byte f : forall n lo,
  (forall k, lo <= k < lo + Z.of_nat n -> 0 <= f k < 256) ->
  0 <= xor_sum f lo n < 256.
Proof.
  induction n as [|n IH]; intros lo H; cbn [xor_sum]; [lia|].
  apply lxor_byte; [apply H; lia|]. apply IH. intros k Hk. apply H. lia.
Qed.

Lemma xor_sum_scale f m : forall n lo,
  (forall k, lo <= k < lo + Z.of_nat n -> 0 <= f k < 256) ->
  gf_scale (xor_sum f lo n) m = xor_sum (fun k => gf_scale (f k) m) lo n.
Proof.
  induction n as [|n IH]; intros lo H; cbn [xor_sum]; [apply gf_scale_0|].
  rewrite gf_scale_lxor.
  - f_equal. apply IH. intros k Hk. apply H. lia.
  - apply H. lia.
  - apply xor_sum_byte. intros k Hk. apply H. lia.
Qed.

Lemma range_forall (P : Z -> bool) n :
  forallb P (map Z.of_nat (seq 0 n)) = true ->
  forall i, 0 <= i < Z.of_nat n -> P i = true.
Proof.
  intros H i Hi. rewrite forallb_forall in H. apply H.
  apply in_map_iff. exists (Z.to_nat i). split; [lia|]. apply in_seq. lia.
Qed.

Lemma rd_slice l off n k :
  0 <= off -> 0 <= k ->
  rd (firstn (Z.to_nat n) (skipn (Z.to_nat off) l)) k
  = if k <? n then rd l (off + k) else 0.
Proof.
  intros Ho Hk. unfold rd. rewrite nth_firstn, nth_skipn.
  replace (Z.to_nat (off + k)) with (Z.to_nat off + Z.to_nat k)%nat by lia.
  destruct (Nat.ltb_spec (Z.to_nat k) (Z.to_nat n)); destruct (Z.ltb_spec k n);
    try reflexivity; lia.
Qed.

(** *** One row of the division *)

Lemma xor_row (u : Z -> Z) s n tmp :
  0 <= s -> 0 <= n ->
  let r :=
    for_range 0 n
      (fun j tmp => wr tmp (s + j + 1) (Z.lxor (rd tmp (s + j + 1)) (u j))) tmp in
  Datatypes.length r = Datatypes.length tmp
  /\ forall k, 0 <= k < Z.of_nat (Datatypes.length tmp) ->
       rd r k = if (s <? k) && (k <=? s + n)
                then Z.lxor (rd tmp k) (u (k - s - 1)) else rd tmp k.
Proof.
  intros Hs Hn. cbv zeta.
  apply (for_range_index_inv
           (fun j r =>
              Datatypes.length r = Datatypes.length tmp
              /\ forall k, 0 <= k < Z.of_nat (Datatypes.length tmp) ->
                   rd r k = if (s <? k) && (k <=? s + j)
                            then Z.lxor (rd tmp k) (u (k - s - 1)) else rd tmp k));
    [lia| |].
  - intros j r Hj [Hl Hr]. split; [rewrite wr_length; exact Hl|].
    intros k Hk. destruct (Z.eq_dec k (s + j + 1)) as [->|Hne].
    + rewrite rd_wr_same by lia. rewrite Hr by lia.
      replace ((s <? s + j + 1) && (s + j + 1 <=? s + j)) with false by lia.
      replace ((s <? s + j + 1) && (s + j + 1 <=? s + (j + 1))) with true by lia.
      replace (s + j + 1 - s - 1) with j by lia. reflexivity.
    + rewrite rd_wr_other by lia. rewrite Hr by lia.
      replace ((s <? k) && (k <=? s + (j + 1))) with ((s <? k) && (k <=? s + j)) by lia.
      reflexivity.
  - split; [reflexivity|]. intros k Hk.
    replace ((s <? k) && (k <=? s + 0)) with false by lia. reflexivity.
Qed.

Lemma rs_step_length coeffs ec s tmp :
  Datatypes.length (rs_step coeffs ec s tmp) = Datatypes.length tmp.
Proof.
  unfold rs_step. destruct (rd tmp s =? 0); [reflexivity|]. cbv zeta.
  apply (for_range_inv (fun r => Datatypes.length r = Datatypes.length tmp));
    [|reflexivity].
  intros j r Hr. rewrite wr_length. exact Hr.
Qed.

Lemma block_parity_unfold em offset size :
  block_parity em offset size
  = firstn (Z.to_nat (em_ec_size em))
      (skipn (Z.to_nat size)
         (for_range 0 size
            (rs_step (match em_poly em with Some p => poly_coeffs p | None => [] end)
               (em_ec_size em))
            (memcpy_at 0
               (firstn (Z.to_nat size) (skipn (Z.to_nat offset) (em_data em)))
               (repeat 0 (Z.to_nat (MAX_BLK_SIZE + MAX_EC_SIZE)))))).
Proof. reflexivity. Qed.

Lemma block_parity_length em offset size :
  0 <= size <= MAX_BLK_SIZE -> 0 <= em_ec_size em <= MAX_EC_SIZE ->
  Datatypes.length (block_parity em offset size) = Z.to_nat (em_ec_size em).
Proof.
  intros Hs He. rewrite block_parity_unfold. rewrite length_firstn, length_skipn.
  match goal with
  | |- context [Datatypes.length (for_range 0 size ?body ?t)] =>
      assert (Hl : Datatypes.length (for_range 0 size body t)
                   = Z.to_nat (MAX_BLK_SIZE + MAX_EC_SIZE))
  end.
  { apply (for_range_inv
             (fun r => Datatypes.length r = Z.to_nat (MAX_BLK_SIZE + MAX_EC_SIZE))).
    - intros j r Hr. rewrite rs_step_length. exact Hr.
    - rewrite memcpy_at_length. apply repeat_length. }
  rewrite Hl. unfold MAX_BLK_SIZE, MAX_EC_SIZE in *. lia.
Qed.

Lemma rd_app l l' k :
  0 <= k ->
  rd (l ++ l') k
  = if k <? Z.of_nat (Datatypes.length l) then rd l k
    else rd l' (k - Z.of_nat (Datatypes.length l)).
Proof.
  intros Hk. unfold rd. destruct (Z.ltb_spec k (Z.of_nat (Datatypes.length l))).
  - apply app_nth1. lia.
  - rewrite app_nth2 by lia. f_equal. lia.
Qed.

Lemma slice_ext l l' off n :
  0 <= off -> Datatypes.length l = Datatypes.length l' ->
  (forall k, off <= k < off + n -> rd l k = rd l' k) ->
  firstn (Z.to_nat n) (skipn (Z.to_nat off) l)
  = firstn (Z.to_nat n) (skipn (Z.to_nat off) l').
Proof.
  intros Ho Hl H. apply (nth_ext _ _ 0 0).
  - rewrite !length_firstn, !length_skipn, Hl. reflexivity.
  - intros k _.
    pose proof (rd_slice l off n (Z.of_nat k) Ho ltac:(lia)) as H1.
    pose proof (rd_slice l' off n (Z.of_nat k) Ho ltac:(lia)) as H2.
    unfold rd at 1 in H1. unfold rd at 1 in H2. rewrite Nat2Z.id in H1, H2.
    rewrite H1, H2. destruct (Z.ltb_spec (Z.of_nat k) n); [|reflexivity].
    apply H. lia.
Qed.

Lemma block_parity_ext em em' offset size :
  em_poly em' = em_poly em -> em_ec_size em' = em_ec_size em ->
  firstn (Z.to_nat size) (skipn (Z.to_nat offset) (em_data em'))
  = firstn (Z.to_nat size) (skipn (Z.to_nat offset) (em_data em)) ->
  block_parity em' offset size = block_parity em offset size.
Proof.
  intros Hp He Hd. rewrite !block_parity_unfold. rewrite Hp, He, Hd. reflexivity.
Qed.

(** *** The syndromes of a block *)

Lemma weight_ext i n t t' s :
  (forall k, s <= k < n -> rd t k = rd t' k) -> weight i n t s = weight i n t' s.
Proof.
  intros H. unfold weight. apply xor_sum_ext. intros k Hk. rewrite H by lia. reflexivity.
Qed.

Lemma weight_split i n t s m :
  s <= m <= n ->
  weight i n t s
  = Z.lxor
      (xor_sum (fun k => gf_scale (rd t k) (Z.to_nat (i * (n - 1 - k)))) s
         (Z.to_nat (m - s)))
      (weight i n t m).
Proof.
  intros H. unfold weight.
  replace (Z.to_nat (n - s)) with (Z.to_nat (m - s) + Z.to_nat (n - m))%nat by lia.
  rewrite xor_sum_app. do 2 f_equal. lia.
Qed.

Lemma weight_zero i n t s :
  (forall k, s <= k < n -> rd t k = 0) -> weight i n t s = 0.
Proof.
  intros H. unfold weight. rewrite (xor_sum_ext _ (fun _ => 0)); [apply xor_sum_zero|].
  intros k Hk. rewrite H by lia. apply gf_scale_0.
Qed.

Section Generator.
Variable v : Z.
Hypothesis Hv : 1 <= v <= 40.

Lemma generator_facts :
  S1 v + 1 <= MAX_BLK_SIZE /\ E v <= MAX_EC_SIZE
  /\ (forall j, 0 <= rd (poly_coeffs (vp_poly (param_of v))) j)
  /\ forall i, 0 <= i < E v ->
       xor_sum
         (fun j =>
            rd EXP_TABLE
              ((rd (poly_coeffs (vp_poly (param_of v))) j + i * (E v - 1 - j)) mod 255))
         0 (Z.to_nat (E v))
       = rd EXP_TABLE ((i * E v) mod 255).
Proof.
  pose proof (generator_checked v Hv) as H. unfold check_generator in H. cbv zeta in H.
  repeat match goal with
         | H : _ && _ = true |- _ => apply andb_prop in H; destruct H
         end.
  split; [lia|]. split; [lia|]. split.
  - intros j. unfold rd.
    destruct (Nat.lt_ge_cases (Z.to_nat j)
                (Datatypes.length (poly_coeffs (vp_poly (param_of v))))) as [Hlt|Hge].
    + match goal with
      | H : forallb (fun c => 0 <=? c) _ = true |- _ =>
          rewrite forallb_forall in H;
          specialize (H _ (nth_In _ 0 Hlt)); lia
      end.
    + rewrite nth_overflow by exact Hge. lia.
  - intros i Hi.
    match goal with
    | H : forallb _ (map Z.of_nat (seq 0 _)) = true |- _ =>
        pose proof (range_forall _ _ H i ltac:(lia)) as Hr
    end.
    cbv beta in Hr. lia.
Qed.

(** The generator polynomial of the version has the first [E v] powers of
    the generator as roots: scaled by any byte [t] and any power [m]. *)
Lemma generator_scale t i m :
  0 <= t < 256 -> 0 <= i < E v ->
  xor_sum
    (fun j =>
       gf_scale t
         (Z.to_nat (rd (poly_coeffs (vp_poly (param_of v))) j + i * (E v - 1 - j)) + m))
    0 (Z.to_nat (E v))
  = gf_scale t (Z.to_nat (i * E v) + m).
Proof.
  intros Ht Hi. destruct generator_facts as (_ & _ & Hc & Hroot).
  set (cs := poly_coeffs (vp_poly (param_of v))) in *.
  destruct (Z.eq_dec t 0) as [->|Hnz].
  - rewrite gf_scale_0. rewrite (xor_sum_ext _ (fun _ => 0)); [apply xor_sum_zero|].
    intros k _. apply gf_scale_0.
  - pose proof (log_power t ltac:(lia)) as Ht'.
    set (L := Z.to_nat (rd LOG_TABLE t)) in *.
    assert (Hpos : forall j, 0 <= j < E v -> 0 <= i * (E v - 1 - j))
      by (intros j Hj; apply Z.mul_nonneg_nonneg; lia).
    rewrite (xor_sum_ext _
               (fun j => gf_scale (rd EXP_TABLE ((rd cs j + i * (E v - 1 - j)) mod 255))
                           (m + L))).
    + rewrite <- xor_sum_scale.
      * rewrite (Hroot i Hi).
        rewrite <- (Z2Nat.id (i * E v)) at 1 by (apply Z.mul_nonneg_nonneg; lia).
        rewrite exp_power. rewrite gf_scale_add.
        rewrite Ht' at 1. rewrite gf_scale_add. f_equal. lia.
      * intros k Hk. apply tables_facts.
        pose proof (Z.mod_pos_bound (rd cs k + i * (E v - 1 - k)) 255). lia.
    + intros j Hj. specialize (Hpos j ltac:(lia)). specialize (Hc j).
      rewrite <- (Z2Nat.id (rd cs j + i * (E v - 1 - j))) at 2 by lia.
      rewrite exp_power. rewrite gf_scale_add.
      rewrite Ht' at 1. rewrite gf_scale_add. f_equal. lia.
Qed.

(** A row of the division leaves the syndrome as it is. *)
Lemma rs_step_weight i n s tmp :
  0 <= i < E v -> 0 <= s -> s + E v < n -> n <= Z.of_nat (Datatypes.length tmp) ->
  (forall k, 0 <= k < Z.of_nat (Datatypes.length tmp) -> 0 <= rd tmp k < 256) ->
  let tmp' := rs_step (poly_coeffs (vp_poly (param_of v))) (E v) s tmp in
  Datatypes.length tmp' = Datatypes.length tmp
  /\ (forall k, 0 <= k < Z.of_nat (Datatypes.length tmp) -> 0 <= rd tmp' k < 256)
  /\ weight i n tmp' (s + 1) = weight i n tmp s.
Proof.
  intros Hi Hs Hn Hlen Hb. cbv zeta.
  destruct generator_facts as (_ & _ & Hc & _).
  set (cs := poly_coeffs (vp_poly (param_of v))) in *.
  assert (Hw : weight i n tmp s
               = Z.lxor (gf_scale (rd tmp s) (Z.to_nat (i * (n - 1 - s))))
                   (weight i n tmp (s + 1))).
  { unfold weight. replace (Z.to_nat (n - s)) with (S (Z.to_nat (n - (s + 1)))) by lia.
    reflexivity. }
  unfold rs_step. destruct (rd tmp s =? 0) eqn:El.
  - split; [reflexivity|]. split; [exact Hb|].
    rewrite Hw. replace (rd tmp s) with 0 by lia. rewrite gf_scale_0.
    rewrite Z.lxor_0_l. reflexivity.
  - rewrite Hw. cbv zeta.
    pose proof (Hb s ltac:(lia)) as Hlead.
    set (lead := rd tmp s) in *.
    set (u := fun j => rd EXP_TABLE ((rd cs j + rd LOG_TABLE lead) mod 255)).
    destruct (xor_row u s (E v) tmp Hs ltac:(lia)) as [Hl Hr].
    unfold u in Hl, Hr at 1.
    set (r := for_range 0 (E v) _ tmp) in *.
    assert (Hu : forall j, u j = gf_scale lead (Z.to_nat (rd cs j))).
    { intros j. unfold u. destruct (tables_facts lead ltac:(lia)) as (_ & _ & Hlog).
      destruct (Hlog ltac:(lia)) as [Hlr Hle].
      rewrite Z.add_comm. rewrite <- (Z2Nat.id (rd cs j)) at 1 by apply Hc.
      rewrite exp_scale by lia. rewrite Z.mod_small by lia. rewrite Hle. reflexivity. }
    assert (Hub : forall j, 0 <= u j < 256)
      by (intros j; rewrite Hu; apply gf_scale_byte; lia).
    split; [exact Hl|]. split.
    + intros k Hk. rewrite Hr by exact Hk.
      destruct ((s <? k) && (k <=? s + E v)); [apply lxor_byte; auto|auto].
    + unfold weight.
      set (e := fun k => Z.to_nat (i * (n - 1 - k))).
      set (d := fun k => if k <=? s + E v then u (k - s - 1) else 0).
      rewrite (xor_sum_ext _
                 (fun k => Z.lxor (gf_scale (rd tmp k) (e k)) (gf_scale (d k) (e k)))).
      2:{ intros k Hk. fold (e k). rewrite Hr by lia. unfold d.
          replace (s <? k) with true by lia. rewrite andb_true_l.
          destruct (k <=? s + E v).
          - apply gf_scale_lxor; [apply Hb; lia|apply Hub].
          - rewrite gf_scale_0, Z.lxor_0_r. reflexivity. }
      rewrite xor_sum_lxor. rewrite Z.lxor_comm. f_equal.
      replace (Z.to_nat (n - (s + 1)))
        with (Z.to_nat (E v) + Z.to_nat (n - 1 - s - E v))%nat by lia.
      rewrite xor_sum_app.
      rewrite (xor_sum_ext (fun k => gf_scale (d k) (e k)) (fun _ => 0)
                 (Z.to_nat (n - 1 - s - E v))).
      2:{ intros k Hk. unfold d. replace (k <=? s + E v) with false by lia.
          apply gf_scale_0. }
      rewrite xor_sum_zero, Z.lxor_0_r.
      replace (s + 1) with (0 + (s + 1)) at 1 by lia. rewrite xor_sum_shift.
      assert (Hm : 0 <= i * (n - 1 - s - E v)) by (apply Z.mul_nonneg_nonneg; lia).
      assert (HE : 0 <= i * E v) by (apply Z.mul_nonneg_nonneg; lia).
      rewrite (xor_sum_ext _
                 (fun j => gf_scale lead
                             (Z.to_nat (rd cs j + i * (E v - 1 - j))
                              + Z.to_nat (i * (n - 1 - s - E v))))).
      2:{ intros j Hj. unfold d. replace (j + (s + 1) <=? s + E v) with true by lia.
          replace (j + (s + 1) - s - 1) with j by lia.
          rewrite Hu, gf_scale_add. f_equal. unfold e.
          assert (0 <= i * (E v - 1 - j)) by (apply Z.mul_nonneg_nonneg; lia).
          specialize (Hc j). lia. }
      rewrite generator_scale by lia. f_equal. lia.
Qed.

Lemma rs_loop_weight i size tmp :
  0 <= i < E v -> 0 <= size -> size + E v <= Z.of_nat (Datatypes.length tmp) ->
  (forall k, 0 <= k < Z.of_nat (Datatypes.length tmp) -> 0 <= rd tmp k < 256) ->
  let r := for_range 0 size (rs_step (poly_coeffs (vp_poly (param_of v))) (E v)) tmp in
  Datatypes.length r = Datatypes.length tmp
  /\ weight i (size + E v) r size = weight i (size + E v) tmp 0.
Proof.
  intros Hi Hs Hlen Hb. cbv zeta.
  set (P := fun (s : Z) (r : list Z) =>
              Datatypes.length r = Datatypes.length tmp
              /\ (forall k, 0 <= k < Z.of_nat (Datatypes.length tmp) ->
                    0 <= rd r k < 256)
              /\ weight i (size + E v) r s = weight i (size + E v) tmp 0).
  assert (H : P size
                (for_range 0 size
                   (rs_step (poly_coeffs (vp_poly (param_of v))) (E v)) tmp)).
  { apply (for_range_index_inv P); [lia| |unfold P; auto].
    intros s r Hsr (Hl & Hbr & Hw). unfold P.
    destruct (rs_step_weight i (size + E v) s r Hi) as (Hl' & Hb' & Hw');
      try rewrite Hl; try lia; [exact Hbr|].
    rewrite Hl in Hb'.
    split; [congruence|]. split; [exact Hb'|]. congruence. }
  destruct H as (Hl & _ & Hw). split; assumption.
Qed.

(** The data bytes of a block and the parity bytes computed for them make
    a codeword: its first [E v] syndromes are 0. *)
Lemma block_syndrome em offset size i :
  em_poly em = Some (vp_poly (param_of v)) -> em_ec_size em = E v ->
  0 <= offset -> 0 <= size <= MAX_BLK_SIZE ->
  offset + size <= Z.of_nat (Datatypes.length (em_data em)) ->
  (forall k, offset <= k < offset + size -> 0 <= rd (em_data em) k < 256) ->
  0 <= i < E v ->
  syndrome i
    (firstn (Z.to_nat size) (skipn (Z.to_nat offset) (em_data em))
     ++ block_parity em offset size) = 0.
Proof.
  intros Hp He Ho Hs Hlen Hb Hi.
  destruct generator_facts as (_ & HE & _).
  assert (HE0 : 0 <= E v) by (unfold E; lia).
  pose proof (block_parity_length em offset size Hs ltac:(lia)) as Hpl.
  rewrite block_parity_unfold in *. rewrite Hp, He in *.
  set (block := firstn (Z.to_nat size) (skipn (Z.to_nat offset) (em_data em))) in *.
  assert (Hbl : Datatypes.length block = Z.to_nat size)
    by (unfold block; rewrite length_firstn, length_skipn; lia).
  set (tmp0 := memcpy_at 0 block (repeat 0 (Z.to_nat (MAX_BLK_SIZE + MAX_EC_SIZE)))) in *.
  assert (Hl0 : Datatypes.length tmp0 = Z.to_nat (MAX_BLK_SIZE + MAX_EC_SIZE))
    by (unfold tmp0; rewrite memcpy_at_length; apply repeat_length).
  assert (H0 : forall k, 0 <= k < MAX_BLK_SIZE + MAX_EC_SIZE ->
            rd tmp0 k = if k <? size then rd (em_data em) (offset + k) else 0).
  { intros k Hk. unfold tmp0. destruct (Z.ltb_spec k size).
    - pose proof (rd_memcpy_at_same 0 block
                    (repeat 0 (Z.to_nat (MAX_BLK_SIZE + MAX_EC_SIZE))) (Z.to_nat k)) as H1.
      rewrite repeat_length in H1. cbn [plus] in H1. rewrite Z2Nat.id in H1 by lia.
      rewrite H1 by lia. fold (rd block k). unfold block.
      rewrite rd_slice by lia. replace (k <? size) with true by lia. reflexivity.
    - rewrite rd_memcpy_at_other by lia. unfold rd. apply nth_repeat. }
  unfold MAX_BLK_SIZE, MAX_EC_SIZE in *.
  destruct (rs_loop_weight i size tmp0 Hi) as [Hlr Hw]; try lia.
  { intros k Hk. rewrite H0 by lia. destruct (Z.ltb_spec k size); [|lia].
    apply Hb. lia. }
  set (r := for_range 0 size _ tmp0) in *.
  set (parity := firstn (Z.to_nat (E v)) (skipn (Z.to_nat size) r)) in *.
  set (n := size + E v) in *.
  assert (Hcl : Z.of_nat (Datatypes.length (block ++ parity)) = n)
    by (rewrite length_app; unfold n; lia).
  assert (Hcw : forall k, 0 <= k < n ->
            rd (block ++ parity) k = if k <? size then rd tmp0 k else rd r k).
  { intros k Hk. rewrite rd_app by lia. rewrite Hbl, Z2Nat.id by lia.
    destruct (Z.ltb_spec k size).
    - rewrite H0 by lia. replace (k <? size) with true by lia.
      unfold block. rewrite rd_slice by lia.
      replace (k <? size) with true by lia. reflexivity.
    - unfold parity. rewrite rd_slice by lia.
      replace (k - size <? E v) with true by (unfold n in Hk; lia).
      f_equal. lia. }
  assert (Hsyn : syndrome i (block ++ parity) = weight i n (block ++ parity) 0).
  { unfold syndrome, weight. rewrite Hcl. f_equal. lia. }
  rewrite Hsyn.
  rewrite (weight_split i n (block ++ parity) 0 size) by (unfold n; lia).
  rewrite (weight_ext i n (block ++ parity) r size).
  2:{ intros k Hk. rewrite Hcw by lia. replace (k <? size) with false by lia. reflexivity. }
  rewrite Hw.
  rewrite (weight_split i n tmp0 0 size) by (unfold n; lia).
  rewrite (weight_zero i n tmp0 size).
  2:{ intros k Hk. rewrite H0 by (unfold n in Hk; lia).
      replace (k <? size) with false by lia. reflexivity. }
  rewrite Z.lxor_0_r.
  rewrite (xor_sum_ext _ (fun k => gf_scale (rd tmp0 k) (Z.to_nat (i * (n - 1 - k))))).
  - apply Z.lxor_nilpotent.
  - intros k Hk. rewrite Hcw by (unfold n; lia).
    replace (k <? size) with true by lia. reflexivity.
Qed.

End Generator.

(** *** The blocks of a version *)

Lemma version_poly v :
  1 <= v <= 40 -> qr_version_poly (mk_version v) = Some (vp_poly (param_of v)).
Proof.
  intros Hv. unfold qr_version_poly. cbn [version].
  rewrite InterleaveFacts.size_t_small by (unfold SIZE_MAX; lia).
  replace (v - 1 >=? 40) with false by lia. reflexivity.
Qed.

Lemma block_bounds v b :
  1 <= v <= 40 -> 0 <= b < G1 v + G2 v ->
  0 <= block_start v b /\ 0 < block_size v b <= MAX_BLK_SIZE
  /\ block_start v b + block_size v b <= D v
  /\ block_start v (b + 1) = block_start v b + block_size v b
  /\ 0 <= b * E v /\ (b + 1) * E v <= (G1 v + G2 v) * E v.
Proof.
  intros Hv Hb. layout_facts v Hv.
  destruct (generator_facts v Hv) as (Hs & _).
  unfold block_start, block_size, D.
  assert (0 <= b * S1 v) by (apply Z.mul_nonneg_nonneg; lia).
  assert (0 <= b * E v) by (apply Z.mul_nonneg_nonneg; lia).
  assert ((b + 1) * E v <= (G1 v + G2 v) * E v)
    by (apply Z.mul_le_mono_nonneg_r; lia).
  assert (0 <= G2 v * (S1 v + 1)) by (apply Z.mul_nonneg_nonneg; lia).
  destruct (Z.ltb_spec b (G1 v)).
  - assert ((b + 1) * S1 v <= G1 v * S1 v) by (apply Z.mul_le_mono_nonneg_r; lia).
    lia.
  - assert ((b + 1) * (S1 v + 1) <= (G1 v + G2 v) * (S1 v + 1))
      by (apply Z.mul_le_mono_nonneg_r; lia).
    lia.
Qed.

(** [encoded_msg_compute_error_code] stores the parity of block [b] at
    [D v + b * E v], computed from the data bytes of the block. *)
Lemma compute_error_code_parity v em :
  1 <= v <= 40 -> em_of_version v em ->
  region v <= Z.of_nat (Datatypes.length (em_data em)) ->
  forall b j, 0 <= b < G1 v + G2 v -> 0 <= j < E v ->
    rd (em_data (encoded_msg_compute_error_code em)) (D v + b * E v + j)
    = rd (block_parity em (block_start v b) (block_size v b)) j.
Proof.
  intros Hv Hem Hlen. layout_facts v Hv.
  destruct (generator_facts v Hv) as (_ & HE & _).
  set (P := fun (n : Z) (s : encoded_msg * Z * Z) =>
              em_of_version v (fst (fst s)) /\ em_poly (fst (fst s)) = em_poly em
              /\ snd (fst s) = block_start v n /\ snd s = D v + n * E v
              /\ Datatypes.length (em_data (fst (fst s))) = Datatypes.length (em_data em)
              /\ (forall k, 0 <= k < D v ->
                    rd (em_data (fst (fst s))) k = rd (em_data em) k)
              /\ forall b j, 0 <= b < n -> 0 <= j < E v ->
                   rd (em_data (fst (fst s))) (D v + b * E v + j)
                   = rd (block_parity em (block_start v b) (block_size v b)) j).
  assert (Hstep : forall n (s : encoded_msg * Z * Z),
             0 <= n < G1 v + G2 v -> P n s ->
             P (n + 1)
               (let '(e, o, eo) := s in
                (encoded_msg_error_code_for_block e o (block_size v n) eo,
                 o + block_size v n, eo + em_ec_size e))).
  { intros n [[e o] eo] Hn (He & Hp & Ho & Heo & Hl & Hd & Hpar). unfold P.
    cbn [fst snd] in *.
    destruct (block_bounds v n Hv Hn) as (Hb0 & Hbs & Hbd & Hbn & HnE & HnE').
    pose proof He as [Eec _ _ _ _ _].
    assert (Hpe : block_parity e o (block_size v n)
                  = block_parity em (block_start v n) (block_size v n)).
    { subst o. apply block_parity_ext; [exact Hp| |].
      - destruct Hem as [Eec' _ _ _ _ _]. congruence.
      - apply slice_ext; [lia|exact Hl|]. intros k Hk. apply Hd. lia. }
    assert (Hpl : Datatypes.length (block_parity e o (block_size v n)) = Z.to_nat (E v)).
    { rewrite <- Eec. apply block_parity_length; lia. }
    split; [apply error_code_for_block_of_version, He|].
    split; [exact Hp|]. split; [lia|]. split; [lia|]. split.
    { rewrite error_code_for_block_length. exact Hl. }
    split.
    { intros k Hk. rewrite error_code_for_block_frame by lia. apply Hd, Hk. }
    intros b j Hb Hj. destruct (Z.eq_dec b n) as [->|Hne].
    - rewrite error_code_for_block_data.
      replace (D v + n * E v + j) with (Z.of_nat (Z.to_nat eo + Z.to_nat j)) by lia.
      rewrite rd_memcpy_at_same.
      + rewrite Hpe. unfold rd. reflexivity.
      + lia.
      + unfold region in Hlen. lia.
    - assert ((b + 1) * E v <= n * E v) by (apply Z.mul_le_mono_nonneg_r; lia).
      assert (0 <= b * E v) by (apply Z.mul_nonneg_nonneg; lia).
      rewrite error_code_for_block_frame by lia. apply Hpar; lia. }
  pose proof Hem as [Eec Eg1 Eg2 Es1 Es2 Ever].
  unfold encoded_msg_compute_error_code.
  match goal with
  | |- context [for_range 0 (em_g1_blocks em) ?body ?s0] =>
      assert (H1 : P (G1 v) (for_range 0 (em_g1_blocks em) body s0))
  end.
  { rewrite Eg1. apply (for_range_index_inv P); [lia| |].
    - intros n [[e o] eo] Hn HP.
      pose proof (Hstep n (e, o, eo) ltac:(lia) HP) as H. cbv beta iota zeta in H.
      destruct HP as ([_ _ _ Es1' _ _] & _). cbn [fst snd] in Es1'.
      unfold block_size in H at 1 2. replace (n <? G1 v) with true in H by lia.
      rewrite Es1'. exact H.
    - unfold P. cbn [fst snd]. split; [exact Hem|]. split; [reflexivity|].
      split; [unfold block_start; lia|].
      split; [rewrite ?Eg1, ?Eg2, ?Es1, ?Es2; unfold D; lia|].
      split; [reflexivity|]. split; [auto|]. intros; lia. }
  destruct (for_range 0 (em_g1_blocks em) _ _) as [[em1 o1] eo1].
  assert (Eg2' : em_g2_blocks em1 = G2 v)
    by (destruct H1 as ([_ _ Hx _ _ _] & _); exact Hx).
  match goal with
  | |- context [for_range 0 ?n ?body ?s0] =>
      assert (H2 : P (G1 v + G2 v) (for_range 0 n body s0))
  end.
  { rewrite Eg2'.
    apply (for_range_index_inv (fun n s => P (G1 v + n) s)); [lia| |].
    - intros n [[e o] eo] Hn HP.
      pose proof (Hstep (G1 v + n) (e, o, eo) ltac:(lia) HP) as H.
      cbv beta iota zeta in H.
      destruct HP as ([_ _ _ _ Es2' _] & _). cbn [fst snd] in Es2'.
      unfold block_size in H at 1 2. replace (G1 v + n <? G1 v) with false in H by lia.
      rewrite Es2'. replace (G1 v + (n + 1)) with (G1 v + n + 1) by lia. exact H.
    - cbv beta. rewrite Z.add_0_r. exact H1. }
  destruct (for_range 0 _ _ _) as [[em2 o2] eo2].
  destruct H2 as (_ & _ & _ & _ & _ & _ & Hpar). cbn [fst snd] in Hpar.
  intros b j Hb Hj. apply Hpar; assumption.
Qed.

(** After [encoded_msg_compute_error_code] every block, with its parity
    bytes, is a codeword of the Reed-Solomon code of the version. *)
Lemma compute_error_code_codewords v em b i :
  1 <= v <= 40 -> em_of_version v em ->
  em_poly em = qr_version_poly (mk_version v) ->
  region v <= Z.of_nat (Datatypes.length (em_data em)) ->
  (forall k, 0 <= k < D v -> 0 <= rd (em_data em) k < 256) ->
  0 <= b < G1 v + G2 v -> 0 <= i < E v ->
  syndrome i (block_codeword v (em_data (encoded_msg_compute_error_code em)) b) = 0.
Proof.
  intros Hv Hem Hp Hlen Hbytes Hb Hi.
  destruct (compute_error_code_frame v em Hv Hem) as [Hl Hframe].
  pose proof (compute_error_code_parity v em Hv Hem Hlen) as Hpar.
  destruct (block_bounds v b Hv Hb) as (Hb0 & Hbs & Hbd & _ & HbE & HbE').
  destruct (generator_facts v Hv) as (_ & HE & _).
  pose proof Hem as [Eec _ _ _ _ _].
  set (em' := encoded_msg_compute_error_code em) in *.
  unfold block_codeword.
  rewrite (slice_ext (em_data em') (em_data em) (block_start v b) (block_size v b));
    [|lia|exact Hl|intros k Hk; apply Hframe; lia].
  assert (Hpl : Datatypes.length (block_parity em (block_start v b) (block_size v b))
                = Z.to_nat (E v)).
  { rewrite <- Eec. apply block_parity_length; lia. }
  replace (firstn (Z.to_nat (E v)) (skipn (Z.to_nat (D v + b * E v)) (em_data em')))
    with (block_parity em (block_start v b) (block_size v b)).
  - apply (block_syndrome v Hv); try assumption; try lia.
    + rewrite Hp. apply version_poly, Hv.
    + unfold region in Hlen. lia.
    + intros k Hk. apply Hbytes. lia.
  - apply (nth_ext _ _ 0 0).
    + rewrite Hpl, length_firstn, length_skipn. unfold region in Hlen. lia.
    + intros k Hk. rewrite Hpl in Hk.
      pose proof (rd_slice (em_data em') (D v + b * E v) (E v) (Z.of_nat k)
                    ltac:(lia) ltac:(lia)) as H1.
      unfold rd at 1 in H1. rewrite Nat2Z.id in H1. rewrite H1.
      replace (Z.of_nat k <? E v) with true by lia.
      rewrite Hpar by lia. unfold rd. rewrite Nat2Z.id. reflexivity.
Qed.

(** *** The message is a buffer of bytes *)

Lemma upd_bytes n x d : byte_buffer d -> 0 <= x < 256 -> byte_buffer (upd n x d).
Proof.
  unfold byte_buffer. intros Hd Hx. revert n.
  induction Hd as [|a d Ha Hd IH]; intros [|n]; cbn [upd]; constructor; auto.
Qed.

Lemma wr_bytes d i x : byte_buffer d -> 0 <= x < 256 -> byte_buffer (wr d i x).
Proof. intros Hd Hx. unfold wr. destruct (i <? 0); [exact Hd|apply upd_bytes; assumption]. Qed.

Lemma rd_bytes d k : byte_buffer d -> 0 <= rd d k < 256.
Proof.
  intros Hd. unfold rd.
  destruct (Nat.lt_ge_cases (Z.to_nat k) (Datatypes.length d)) as [Hlt|Hge].
  - unfold byte_buffer in Hd. rewrite Forall_forall in Hd. apply Hd, nth_In, Hlt.
  - rewrite nth_overflow by exact Hge. lia.
Qed.

Lemma land_255_byte x : 0 <= Z.land x 255 < 256.
Proof. rewrite land_255. apply Z.mod_pos_bound. lia. Qed.

Lemma lor_byte a b : 0 <= a < 256 -> 0 <= b < 256 -> 0 <= Z.lor a b < 256.
Proof.
  intros Ha Hb.
  replace (Z.lor a b) with (Z.land (Z.lor a b) 255); [apply land_255_byte|].
  rewrite Z.land_lor_distr_l, !land_255, !Z.mod_small by lia. reflexivity.
Qed.

Lemma memset0_bytes n d : byte_buffer d -> byte_buffer (memset0 n d).
Proof.
  unfold byte_buffer. intros Hd. revert n.
  induction Hd as [|a d Ha Hd IH]; intros [|n]; cbn [memset0]; constructor; auto; lia.
Qed.

Lemma encoded_msg_push_bytes d off number len_bits :
  byte_buffer d -> byte_buffer (fst (encoded_msg_push d off number len_bits)).
Proof.
  intros Hd. unfold encoded_msg_push. cbn [fst].
  repeat match goal with
         | |- context [if ?c then _ else _] => destruct c
         end;
    repeat (apply wr_bytes;
            [|first [apply land_255_byte
                    |apply lor_byte; [apply rd_bytes; exact Hd|apply land_255_byte]]]);
    exact Hd.
Qed.

Lemma push_segment_data_bytes : forall fuel iter d off d' off',
  byte_buffer d -> push_segment_data fuel iter d off = Some (d', off') ->
  byte_buffer d' /\ Datatypes.length d' = Datatypes.length d.
Proof.
  induction fuel as [|fuel IH]; intros iter d off d' off' Hd H; [discriminate H|].
  cbn [push_segment_data] in H.
  destruct (qr_segment_iterator_next iter) as [[[bits size]|] iter'].
  - pose proof (encoded_msg_push_bytes d off bits size Hd) as Hb.
    pose proof (encoded_msg_push_length d off bits size) as Hl.
    destruct (encoded_msg_push d off bits size) as [d1 off1]. cbn [fst] in Hb, Hl.
    destruct (IH _ _ _ _ _ Hb H) as [H1 H2]. split; [exact H1|congruence].
  - assert (d' = d) by congruence. subst d'. split; [exact Hd|reflexivity].
Qed.

Lemma push_segment_bytes ver seg d off d' off' :
  byte_buffer d -> push_segment ver seg (d, off) = Some (d', off') ->
  byte_buffer d' /\ Datatypes.length d' = Datatypes.length d.
Proof.
  intros Hd H. unfold push_segment in H.
  destruct (qr_segment_get_header seg) as [b1 s1].
  pose proof (encoded_msg_push_bytes d off b1 s1 Hd) as Hb1.
  pose proof (encoded_msg_push_length d off b1 s1) as Hl1.
  destruct (encoded_msg_push d off b1 s1) as [d1 off1]. cbn [fst] in Hb1, Hl1.
  destruct (qr_segment_get_length_field seg ver) as [b2 s2].
  pose proof (encoded_msg_push_bytes d1 off1 b2 s2 Hb1) as Hb2.
  pose proof (encoded_msg_push_length d1 off1 b2 s2) as Hl2.
  destruct (encoded_msg_push d1 off1 b2 s2) as [d2 off2]. cbn [fst] in Hb2, Hl2.
  destruct (push_segment_data_bytes _ _ _ _ _ _ Hb2 H) as [H1 H2].
  split; [exact H1|congruence].
Qed.

Lemma push_segments_bytes ver : forall segs d off d' off',
  byte_buffer d -> push_segments ver segs (d, off) = Some (d', off') ->
  byte_buffer d' /\ Datatypes.length d' = Datatypes.length d.
Proof.
  induction segs as [|seg segs IH]; intros d off d' off' Hd H; cbn [push_segments] in H.
  - assert (d' = d) by congruence. subst d'. split; [exact Hd|reflexivity].
  - destruct (push_segment ver seg (d, off)) as [[d1 off1]|] eqn:E1; [|discriminate H].
    destruct (push_segment_bytes _ _ _ _ _ _ Hd E1) as [Hb1 Hl1].
    destruct (IH _ _ _ _ Hb1 H) as [H1 H2]. split; [exact H1|congruence].
Qed.

Lemma add_padding_bytes ver pad d :
  byte_buffer d ->
  byte_buffer (add_padding ver pad d)
  /\ Datatypes.length (add_padding ver pad d) = Datatypes.length d.
Proof.
  intros Hd. unfold add_padding.
  apply (for_range_inv
           (fun r => byte_buffer r /\ Datatypes.length r = Datatypes.length d));
    [|split; [exact Hd|reflexivity]].
  intros i r [Hr Hl]. split; [|rewrite wr_length; exact Hl].
  apply wr_bytes; [exact Hr|]. apply rd_bytes.
  unfold byte_buffer, PADDING. repeat constructor; lia.
Qed.

Lemma encoded_msg_add_segments_bytes em segs em' :
  byte_buffer (em_data em) -> encoded_msg_add_segments em segs = Some em' ->
  byte_buffer (em_data em')
  /\ Datatypes.length (em_data em') = Datatypes.length (em_data em)
  /\ em_poly em' = em_poly em.
Proof.
  intros Hd H. unfold encoded_msg_add_segments, encoded_msg_add_segments_bits in H.
  destruct (push_segments (em_version em) segs (em_data em, 0)) as [[d1 off1]|] eqn:E1;
    [|discriminate H].
  destruct (push_segments_bytes _ _ _ _ _ _ Hd E1) as [Hb1 Hl1].
  pose proof (encoded_msg_push_bytes d1 off1 MODE_STOP 4 Hb1) as Hb2.
  pose proof (encoded_msg_push_length d1 off1 MODE_STOP 4) as Hl2.
  destruct (encoded_msg_push d1 off1 MODE_STOP 4) as [d2 off2]. cbn [fst] in Hb2, Hl2.
  destruct (off2 mod 8 =? 0).
  - assert (Hem : em' = with_data em (add_padding (em_version em) (off2 / 8) d2))
      by congruence.
    subst em'. cbn [with_data em_data em_poly].
    destruct (add_padding_bytes (em_version em) (off2 / 8) d2 Hb2) as [H1 H2].
    split; [exact H1|]. split; [congruence|reflexivity].
  - pose proof (encoded_msg_push_bytes d2 off2 0 (size_t (8 - off2 mod 8)) Hb2) as Hb3.
    pose proof (encoded_msg_push_length d2 off2 0 (size_t (8 - off2 mod 8))) as Hl3.
    destruct (encoded_msg_push d2 off2 0 (size_t (8 - off2 mod 8))) as [d3 off3].
    cbn [fst] in Hb3, Hl3.
    assert (Hem : em' = with_data em (add_padding (em_version em) (off3 / 8) d3))
      by congruence.
    subst em'. cbn [with_data em_data em_poly].
    destruct (add_padding_bytes (em_version em) (off3 / 8) d3 Hb3) as [H1 H2].
    split; [exact H1|]. split; [congruence|reflexivity].
Qed.

Lemma encoded_msg_init_poly segs v data data_size em :
  encoded_msg_init segs v data data_size = Some em ->
  em_poly em = qr_version_poly (mk_version v).
Proof.
  unfold encoded_msg_init. intros H.
  destruct (_ || _) in H; [discriminate|].
  destruct (_ || _) in H; [discriminate|].
  destruct (_ >? _) in H; [discriminate|].
  destruct (_ <? _) in H; [discriminate|].
  assert (Hem : em = mk_encoded_msg (memset0 (Z.to_nat data_size) data)
                       (u8 (qr_version_ec_size (mk_version v)))
                       (u8 (qr_version_g1_blocks (mk_version v)))
                       (u8 (qr_version_g2_blocks (mk_version v)))
                       (u8 (qr_version_g1_blk_size (mk_version v)))
                       (u8 (qr_version_g1_blk_size (mk_version v) + 1))
                       (qr_version_poly (mk_version v)) (mk_version v))
    by congruence.
  subst em. reflexivity.
Qed.

(** The blocks of an encoded message are codewords. *)
Lemma encoded_blocks_are_codewords segs v tmp tmp_size em0 em b i :
  byte_buffer tmp -> tmp_size <= Z.of_nat (Datatypes.length tmp) ->
  encoded_msg_init segs v tmp tmp_size = Some em0 ->
  encoded_msg_encode em0 segs = Some em ->
  0 <= b < G1 v + G2 v -> 0 <= i < E v ->
  syndrome i (block_codeword v (em_data em) b) = 0.
Proof.
  intros Hb Hsz Hinit Henc Hblk Hi.
  destruct (InterleaveFacts.encoded_msg_init_some _ _ _ _ _ Hinit)
    as (Hv & Hem0 & Hreg & Hd0).
  pose proof (encoded_msg_init_poly _ _ _ _ _ Hinit) as Hp0.
  unfold encoded_msg_encode in Henc.
  destruct (encoded_msg_add_segments em0 segs) as [em1|] eqn:E1; [|discriminate Henc].
  assert (em = encoded_msg_compute_error_code em1) by congruence. subst em.
  destruct (encoded_msg_add_segments_bytes em0 segs em1) as (Hb1 & Hl1 & Hp1);
    [rewrite Hd0; apply memset0_bytes, Hb|exact E1|].
  assert (Hem1 : em_of_version v em1).
  { unfold encoded_msg_add_segments in E1.
    destruct (encoded_msg_add_segments_bits em0 segs) as [[d off]|]; [|discriminate E1].
    assert (em1 = with_data em0 (add_padding (em_version em0) (off / 8) d))
      by congruence.
    subst em1. apply InterleaveFacts.with_data_of_version, Hem0. }
  apply compute_error_code_codewords; try assumption.
  - congruence.
  - rewrite Hl1, Hd0, memset0_length. lia.
  - intros k _. apply rd_bytes, Hb1.
Qed.

(** X12. Whenever [qr_generate] draws a symbol, every block of the message
    it leaves in the workspace is a codeword of the Reed-Solomon code of the
    version: the data bytes of block [b], followed by the [E v] parity bytes
    stored for it at [D v + b * E v], read as a polynomial over GF(256)
    modulo 0x11D, vanish at the powers 0, ..., [E v - 1] of the generator 2.
    This holds with and without a URL, for a workspace of bytes that is as
    long as the caller states. *)
Theorem qr_generate_blocks_are_codewords
    url data data_len v data_size tmp tmp_size w image tmp' b i :
  byte_buffer tmp -> tmp_size <= Z.of_nat (Datatypes.length tmp) ->
  qr_generate url data data_len v data_size tmp tmp_size = Some (w, image, tmp') ->
  w <> 0 ->
  0 <= b < G1 v + G2 v -> 0 <= i < E v ->
  syndrome i (block_codeword v tmp' b) = 0.
Proof.
  intros Hb Hsz Hgen Hw Hblk Hi. unfold qr_generate in Hgen.
  destruct (_ || _) in Hgen; [congruence|].
  destruct (_ || _) in Hgen; [congruence|].
  match type of Hgen with
  | context [encoded_msg_init ?segs v tmp tmp_size] => set (segs0 := segs) in *
  end.
  destruct (encoded_msg_init segs0 v tmp tmp_size) as [em0|] eqn:Hinit; [|congruence].
  destruct (encoded_msg_encode em0 segs0) as [em|] eqn:Henc; [|discriminate Hgen].
  assert (Htmp : image = image -> tmp' = em_data em).
  { intros _. destruct (qr_image_init em data data_size) as [qr|]; [|congruence].
    destruct (qr_image_draw qr em) as [qr'|]; [|discriminate Hgen]. congruence. }
  rewrite (Htmp eq_refl).
  apply (encoded_blocks_are_codewords segs0 v tmp tmp_size em0 em); assumption.
Qed.

Lemma qr_generate_blocks_are_codewords_witness :
  syndrome 3 (block_codeword 1 (snd hello_generated) 0) = 0.
Proof.
  apply (qr_generate_blocks_are_codewords None hello_data 6 1 4071 hello_workspace 3706
           (fst (fst hello_generated)) (snd (fst hello_generated)) (snd hello_generated)
           0 3).
  - unfold byte_buffer, hello_workspace. apply Forall_forall. intros x Hx.
    apply repeat_spec in Hx. subst x. lia.
  - vm_compute. intros H. discriminate H.
  - vm_compute. reflexivity.
  - vm_compute. intros H. discriminate H.
  - vm_compute. split; [intros H; discriminate H|reflexivity].
  - vm_compute. split; [intros H; discriminate H|reflexivity].
Defined.

End ReedSolomonFacts.
